(** * plot_contacts: residue contacts reduction and domain annotation

    A shallow embedding of the tabular pipeline of [plot_contacts.py]
    (domain interval normalisation, region-of-interest selection, reduction
    of atom contacts to residue contacts, outlier filtering, domain
    annotation and per-domain aggregation), and the properties established
    on it.

    Conventions of the embedding:
    - a pandas data frame is a list of rows in table order, each row paired
      with its index label ([frame]);
    - integer columns are [Z], text columns are [string], the
      "median distance" column (a finite float) is the rational it denotes,
      kept in canonical form ([Qc]) so that equal values are equal terms;
    - a Python exception is a value of [exn] returned through [result]. *)

From Stdlib Require Import String Ascii DecimalString DecimalZ DecimalPos.
From Stdlib Require Import List ZArith QArith Qcanon Bool Lia.
From Stdlib Require Import Permutation Sorted.
Import ListNotations.
Open Scope Z_scope.

(** ** Exceptions and results *)

Inductive exn : Type :=
| IndexError
| TypeError
| ValueError
| ArgumentTypeError (msg : string).

Inductive result (A : Type) : Type :=
| Ok (a : A)
| Raise (e : exn).

Arguments Ok {A} a.
Arguments Raise {A} e.

Definition bind {A B : Type} (m : result A) (k : A -> result B) : result B :=
  match m with
  | Ok a => k a
  | Raise e => Raise e
  end.

Notation "x <- m ;; k" := (bind m (fun x => k))
  (at level 61, m at next level, right associativity).

(** A [for] loop whose body may raise: the first exception ends the loop. *)
Fixpoint for_each {S A : Type} (body : S -> A -> result S) (l : list A) (s : S)
  : result S :=
  match l with
  | [] => Ok s
  | a :: rest => s' <- body s a ;; for_each body rest s'
  end.

(** [f"{n}"] for an integer [n]. *)
Definition str_of_Z (n : Z) : string := NilZero.string_of_int (Z.to_int n).

(** Rows of a data frame as [iterrows] yields them on a default
    [RangeIndex]: position and row. *)
Definition iterrows_range {A : Type} (l : list A) : list (nat * A) :=
  combine (seq 0 (length l)) l.

(** ** Domain intervals ([get_domains]) *)

Record domain : Type := mk_domain {
  domain_name : string;
  start : Z;
  stop : Z;
  color : string
}.

(** First loop of [get_domains]: the index of every row whose stop lies below
    the stop of the last row that was not itself flagged. *)
Fixpoint embedded_scan (rows : list (nat * domain)) (previous_stop : Z)
  (embedded_raw_idx : list nat) : list nat :=
  match rows with
  | [] => embedded_raw_idx
  | (idx, row) :: rest =>
      if stop row <? previous_stop
      then embedded_scan rest previous_stop (embedded_raw_idx ++ [idx])
      else embedded_scan rest (stop row) embedded_raw_idx
  end.

(** The [previous] dictionary.  Its "domain", "stop" and "color" entries are
    [None] until the first ordinary row is recorded and are always assigned
    together, hence one optional record. *)
Record previous_fields : Type := mk_previous_fields {
  pf_domain : string;
  pf_stop : Z;
  pf_color : string
}.

Record previous_dict : Type := mk_previous {
  embedded : bool;
  fields : option previous_fields
}.

Record domains_state : Type := mk_domains_state {
  data : list domain;
  expected_start : Z;
  previous : previous_dict
}.

(** [data["stop"][-1] = v]: an [IndexError] on an empty list. *)
Fixpoint set_last_stop (data : list domain) (v : Z) : result (list domain) :=
  match data with
  | [] => Raise IndexError
  | [d] => Ok [mk_domain (domain_name d) (start d) v (color d)]
  | d :: rest => rest' <- set_last_stop rest v ;; Ok (d :: rest')
  end.

(** [f"{previous['domain']}"]. *)
Definition previous_domain_str (p : previous_dict) : string :=
  match fields p with
  | Some f => pf_domain f
  | None => "None"
  end.

(** The part of the second loop that closes a parent domain left open by an
    embedded one. *)
Definition close_embedding (st : domains_state) : result domains_state :=
  if embedded (previous st) then
    match fields (previous st) with
    | Some f =>
        Ok (mk_domains_state
              (data st ++ [mk_domain (pf_domain f) (expected_start st) (pf_stop f) (pf_color f)])
              (pf_stop f + 1)
              (mk_previous false (Some f)))
    | None => Raise TypeError
    end
  else Ok st.

(** The part of the second loop that records the undefined stretch before
    an ordinary row. *)
Definition fill_gap (idx : nat) (row : domain) (st : domains_state) : list domain :=
  if expected_start st <? start row then
    let label :=
      if Nat.eqb idx 0
      then ("before " ++ domain_name row)%string
      else ("between " ++ previous_domain_str (previous st) ++ " and "
              ++ domain_name row)%string in
    data st ++ [mk_domain label (expected_start st) (start row - 1) "#cecece"]
  else data st.

(** Body of the second loop of [get_domains]. *)
Definition get_domains_step (use_embedded : bool) (embedded_raw_idx : list nat)
  (st : domains_state) (ir : nat * domain) : result domains_state :=
  let (idx, row) := ir in
  if existsb (Nat.eqb idx) embedded_raw_idx then
    if use_embedded then
      data' <- set_last_stop (data st) (start row - 1) ;;
      Ok (mk_domains_state (data' ++ [row]) (stop row + 1)
            (mk_previous true (fields (previous st))))
    else Ok st
  else
    st1 <- close_embedding st ;;
    Ok (mk_domains_state
          (fill_gap idx row st1 ++ [row])
          (stop row + 1)
          (mk_previous (embedded (previous st1))
             (Some (mk_previous_fields (domain_name row) (stop row) (color row))))).

Definition domains_init : domains_state :=
  mk_domains_state [] 1 (mk_previous false None).

(** [get_domains], from the rows read from the domains file. *)
Definition get_domains (raw : list domain) (use_embedded : bool)
  : result (list domain) :=
  let embedded_raw_idx := embedded_scan (iterrows_range raw) 0 [] in
  st <- for_each (get_domains_step use_embedded embedded_raw_idx)
          (iterrows_range raw) domains_init ;;
  Ok (data st).

(** Number of intervals of a domains table that contain position [x]. *)
Definition covers (x : Z) (d : domain) : bool :=
  (start d <=? x) && (x <=? stop d).

Definition cover_count (x : Z) (l : list domain) : nat :=
  length (filter (covers x) l).

Definition max_stop (raw : list domain) : Z :=
  fold_right (fun d m => Z.max (stop d) m) 0 raw.

(** ** Region of interest ([extract_roi]) *)

(** A Python string is the sequence of its characters here as long as all
    of them are ASCII ([ascii_only]); strings with other characters are
    outside the model. *)
Definition is_ascii (c : ascii) : bool := (nat_of_ascii c <? 128)%nat.

Fixpoint ascii_only (s : string) : bool :=
  match s with
  | EmptyString => true
  | String c rest => is_ascii c && ascii_only rest
  end.

(** [\d] on an ASCII character.  In Python [\d], and [int] as well, also
    accept the decimal digits of other scripts: what is said of
    [extract_roi] on an arbitrary argument is said of [ascii_only]
    arguments. *)
Definition is_digit (c : ascii) : bool :=
  ((48 <=? nat_of_ascii c) && (nat_of_ascii c <=? 57))%nat.

(** The longest prefix of digits and what follows it. *)
Fixpoint span_digits (s : string) : string * string :=
  match s with
  | EmptyString => (EmptyString, EmptyString)
  | String c rest =>
      if is_digit c
      then let (g, r) := span_digits rest in (String c g, r)
      else (EmptyString, s)
  end.

(** A match of [(\d+)-(\d+)] that begins at the head of [s].  Both groups are
    greedy; a shorter first group is followed by a digit, never by the
    hyphen, so only the longest one can match. *)
Definition match_here (s : string) : option (string * string) :=
  let (g1, r1) := span_digits s in
  match g1, r1 with
  | String _ _, String "-"%char r2 =>
      let (g2, _) := span_digits r2 in
      match g2 with
      | String _ _ => Some (g1, g2)
      | EmptyString => None
      end
  | _, _ => None
  end.

(** [pattern.search]: the leftmost match. *)
Fixpoint search (s : string) : option (string * string) :=
  match match_here s with
  | Some m => Some m
  | None =>
      match s with
      | EmptyString => None
      | String _ rest => search rest
      end
  end.

(** [int] of a string of digits. *)
Fixpoint int_of_digits (acc : Z) (s : string) : Z :=
  match s with
  | EmptyString => acc
  | String c rest =>
      int_of_digits (10 * acc + (Z.of_nat (nat_of_ascii c) - 48)) rest
  end.

Definition int (s : string) : Z := int_of_digits 0 s.

(** [extract_roi]; the two-element list it returns is a pair here. *)
Definition extract_roi (roi_to_extract : string) : result (Z * Z) :=
  match search roi_to_extract with
  | Some (g1, g2) => Ok (int g1, int g2)
  | None =>
      Raise (ArgumentTypeError
               ("'" ++ roi_to_extract ++ "' argument is malformed, it should be two integers separated by an hyphen, i.e: '100-200'.")%string)
  end.

Fixpoint all_digits (s : string) : bool :=
  match s with
  | EmptyString => true
  | String c rest => is_digit c && all_digits rest
  end.

(** [s] has a substring made of digits, a hyphen and digits. *)
Definition contains_range (s : string) : Prop :=
  exists pre d1 d2 post : string,
    s = (pre ++ d1 ++ "-" ++ d2 ++ post)%string
    /\ all_digits d1 = true /\ d1 <> EmptyString
    /\ all_digits d2 = true /\ d2 <> EmptyString.

(** ** Data frames *)

(** Rows in table order, each with its index label. *)
Definition frame (A : Type) : Type := list (Z * A).

Definition index {A : Type} (df : frame A) : list Z := map fst df.

Definition rows {A : Type} (df : frame A) : list A := map snd df.

(** The default index of a table that was just read or re-indexed. *)
Definition range_index {A : Type} (l : list A) : frame A :=
  combine (map Z.of_nat (seq 0 (length l))) l.

(** [df.drop(labels)]: every row that bears one of the labels goes. *)
Definition drop {A : Type} (labels : list Z) (df : frame A) : frame A :=
  filter (fun ir => negb (existsb (Z.eqb (fst ir)) labels)) df.

(** [df.reset_index(drop=True)]. *)
Definition reset_index {A : Type} (df : frame A) : frame A :=
  range_index (rows df).

(** ** Atom contacts and their orientation ([extract_residues_contacts]) *)

Record contact : Type := mk_contact {
  contact_id : string;
  donor_position : Z;
  donor_residue : string;
  acceptor_position : Z;
  acceptor_residue : string;
  median_distance : Qc;
  other_columns : list string
}.

Definition contact_eq_dec (a b : contact) : {a = b} + {a <> b}.
Proof.
  decide equality;
    first [ apply string_dec | apply Z.eq_dec | apply Qc_eq_dec
          | apply (list_eq_dec string_dec) ].
Defined.

Inductive side : Type := donor | acceptor.

Record oriented : Type := mk_oriented {
  contact_name : string;
  ordinate_position : Z;
  ordinate_residue : string;
  abscissa_position : Z;
  abscissa_residue : string;
  distance : Qc;
  ordinate_type : side
}.

(** [series.between(lo, hi)], both ends included. *)
Definition between (x lo hi : Z) : bool := (lo <=? x) && (x <=? hi).

(** [df.drop_duplicates()]: of rows with equal columns the first is kept;
    the index takes no part in the comparison. *)
Fixpoint drop_duplicates (df : frame contact) : frame contact :=
  match df with
  | [] => []
  | (i, r) :: rest =>
      (i, r) :: filter (fun jr => if contact_eq_dec (snd jr) r then false else true)
                  (drop_duplicates rest)
  end.

(** The rows kept for a region of interest: donors in the region, then
    acceptors in the region, without duplicates. *)
Definition roi_select (roi : option (Z * Z)) (df_contacts_all : frame contact)
  : frame contact :=
  match roi with
  | Some (lo, hi) =>
      let df_donors :=
        filter (fun ir => between (donor_position (snd ir)) lo hi) df_contacts_all in
      let df_acceptors :=
        filter (fun ir => between (acceptor_position (snd ir)) lo hi) df_contacts_all in
      drop_duplicates (df_donors ++ df_acceptors)
  | None => df_contacts_all
  end.

Definition donor_side (row : contact) : oriented :=
  mk_oriented (contact_id row)
    (donor_position row) (donor_residue row)
    (acceptor_position row) (acceptor_residue row)
    (median_distance row) donor.

Definition acceptor_side (row : contact) : oriented :=
  mk_oriented (contact_id row)
    (acceptor_position row) (acceptor_residue row)
    (donor_position row) (donor_residue row)
    (median_distance row) acceptor.

(** Body of the loops that fill the ordinate and abscissa lists. *)
Definition orient (roi : option (Z * Z)) (row : contact) : oriented :=
  match roi with
  | Some (lo, hi) =>
      if (lo <=? donor_position row) && (donor_position row <=? hi)
      then donor_side row
      else acceptor_side row
  | None => donor_side row
  end.

(** [df_tmp]: the oriented table, on the index of the kept rows. *)
Definition oriented_contacts (roi : option (Z * Z)) (contacts : list contact)
  : frame oriented :=
  map (fun ir => (fst ir, orient roi (snd ir)))
      (roi_select roi (range_index contacts)).

(** ** Reduction to residue contacts ([get_residues_in_contact]) *)

Record reduced : Type := mk_reduced {
  base : oriented;
  atoms_contacts : Z
}.

(** [f"{first}_{second}"]. *)
Definition combination (row : oriented) : string :=
  ((str_of_Z (ordinate_position row) ++ ordinate_residue row) ++ "_"
   ++ (str_of_Z (abscissa_position row) ++ abscissa_residue row))%string.

(** The mask that selects [tmp_df]; its two alternatives are the same
    test. *)
Definition same_positions (row r : oriented) : bool :=
  (ordinate_position r =? ordinate_position row)
    && (abscissa_position r =? abscissa_position row)
  || (abscissa_position r =? abscissa_position row)
    && (ordinate_position r =? ordinate_position row).

Definition lt_distance (a b : Qc) : bool :=
  match (a ?= b)%Qc with
  | Lt => true
  | _ => false
  end.

(** Label of the first row with the least distance, scanning from a
    candidate. *)
Fixpoint idxmin_from (best : Z) (best_distance : Qc) (df : frame oriented) : Z :=
  match df with
  | [] => best
  | (i, r) :: rest =>
      if lt_distance (distance r) best_distance
      then idxmin_from i (distance r) rest
      else idxmin_from best best_distance rest
  end.

(** [df[["median distance"]].idxmin()]; a [ValueError] on an empty table. *)
Definition idxmin (df : frame oriented) : result Z :=
  match df with
  | [] => Raise ValueError
  | (i, r) :: rest => Ok (idxmin_from i (distance r) rest)
  end.

Record reducer_state : Type := mk_reducer_state {
  combinations : list string;
  idx_to_remove : list Z;
  combinations_nb_contacts : list Z
}.

(** Body of the loop of [get_residues_in_contact]. *)
Definition reducer_step (df : frame oriented) (st : reducer_state)
  (ir : Z * oriented) : result reducer_state :=
  let row := snd ir in
  if existsb (String.eqb (combination row)) (combinations st) then Ok st
  else
    let tmp_df := filter (fun jr => same_positions row (snd jr)) df in
    idx_min <- idxmin tmp_df ;;
    let tmp_index_to_remove :=
      filter (fun j => negb (j =? idx_min)) (index tmp_df) in
    Ok (mk_reducer_state
          (combinations st ++ [combination row])
          (match tmp_index_to_remove with
           | [] => idx_to_remove st
           | _ => idx_to_remove st ++ tmp_index_to_remove
           end)
          (combinations_nb_contacts st ++ [Z.of_nat (length tmp_df)])).

(** [df["atoms contacts"] = values]: by position; a [ValueError] when the
    lengths differ. *)
Definition set_atoms_contacts (df : frame oriented) (values : list Z)
  : result (frame reduced) :=
  if Nat.eqb (length values) (length df)
  then Ok (map (fun p => (fst (fst p), mk_reduced (snd (fst p)) (snd p)))
             (combine df values))
  else Raise ValueError.

(** [df.sort_values(by=["ordinate position"])], as an insertion sort.  It
    keeps the order of rows with equal positions; the default sort of pandas
    does not promise that order, and no property below depends on it. *)
Fixpoint insert_sorted (x : Z * reduced) (l : frame reduced) : frame reduced :=
  match l with
  | [] => [x]
  | y :: rest =>
      if ordinate_position (base (snd x)) <=? ordinate_position (base (snd y))
      then x :: l
      else y :: insert_sorted x rest
  end.

Fixpoint sort_values (df : frame reduced) : frame reduced :=
  match df with
  | [] => []
  | x :: rest => insert_sorted x (sort_values rest)
  end.

Definition get_residues_in_contact (df : frame oriented) : result (frame reduced) :=
  st <- for_each (reducer_step df) df (mk_reducer_state [] [] []) ;;
  df1 <- set_atoms_contacts (drop (idx_to_remove st) df) (combinations_nb_contacts st) ;;
  Ok (sort_values df1).

Definition extract_residues_contacts (contacts : list contact) (roi : option (Z * Z))
  : result (frame reduced) :=
  get_residues_in_contact (oriented_contacts roi contacts).

(** The two positions of a row, in the order ordinate, abscissa. *)
Definition positions (r : oriented) : Z * Z :=
  (ordinate_position r, abscissa_position r).

Definition swap_positions (p : Z * Z) : Z * Z := (snd p, fst p).

(** Two rows have the same key exactly when they have the same positions. *)
Definition key_consistent (df : frame oriented) : Prop :=
  forall r1 r2, In r1 (rows df) -> In r2 (rows df) ->
    (combination r1 = combination r2 <-> positions r1 = positions r2).

Definition sum_atoms_contacts (df : frame reduced) : Z :=
  fold_right (fun ir acc => atoms_contacts (snd ir) + acc) 0 df.

(** ** Outliers ([outliers_contacts]) *)

(** The test of the loop of [outliers_contacts]. *)
Definition too_close (res_dist_thr : Z) (ir : Z * reduced) : bool :=
  Z.abs (ordinate_position (base (snd ir)) - abscissa_position (base (snd ir)))
  <? res_dist_thr.

(** Value of the table after [outliers_contacts]: the rows whose label was
    recorded are dropped, then the index is reset. *)
Definition outliers_table (df : frame reduced) (res_dist_thr : Z) : frame reduced :=
  let idx_to_remove_for_residue_distance :=
    index (filter (too_close res_dist_thr) df) in
  reset_index (drop idx_to_remove_for_residue_distance df).

(** Data frames are objects: a variable holds a reference, and
    [inplace=True] operations change the object every holder sees. *)
Definition ref : Type := nat.

Definition heap : Type := ref -> option (frame reduced).

Definition heap_set (h : heap) (r : ref) (df : frame reduced) : heap :=
  fun r' => if Nat.eqb r' r then Some df else h r'.

(** [outliers_contacts]: the frame behind [df] is replaced by the result of
    [drop(..., inplace=True)] and [reset_index(inplace=True, drop=True)],
    and [df] itself is returned. *)
Definition outliers_contacts (df : ref) (res_dist_thr : Z) (h : heap)
  : result (ref * heap) :=
  match h df with
  | None => Raise TypeError (* no table behind the reference *)
  | Some table =>
      let idx_to_remove_for_residue_distance :=
        index (filter (too_close res_dist_thr) table) in
      let dropped := drop idx_to_remove_for_residue_distance table in
      let h1 := heap_set h df dropped in
      Ok (df, heap_set h1 df (reset_index dropped))
  end.

(** ** Domain annotation ([update_domains]) *)

Record annotated : Type := mk_annotated {
  reduced_row : reduced;
  ordinate_domains : option string;
  abscissa_domains : option string
}.

Fixpoint set_nth {A : Type} (n : nat) (v : A) (l : list A) : list A :=
  match l, n with
  | [], _ => []
  | _ :: rest, O => v :: rest
  | a :: rest, S n' => a :: set_nth n' v rest
  end.

(** [l[idx] = v] on a Python list: negative indices count from the end, an
    index outside the list raises [IndexError]. *)
Definition list_setitem {A : Type} (l : list A) (idx : Z) (v : A) : result (list A) :=
  let n := Z.of_nat (length l) in
  let i := if idx <? 0 then idx + n else idx in
  if (0 <=? i) && (i <? n)
  then Ok (set_nth (Z.to_nat i) v l)
  else Raise IndexError.

(** Body of the inner loop of [update_domains]. *)
Definition update_domains_step (idx : Z) (row_contacts : reduced)
  (regions : list (option string) * list (option string)) (row_domains : domain)
  : result (list (option string) * list (option string)) :=
  let (donors_regions, acceptors_regions) := regions in
  donors_regions' <-
    (if (start row_domains <=? ordinate_position (base row_contacts))
          && (ordinate_position (base row_contacts) <=? stop row_domains)
     then list_setitem donors_regions idx (Some (domain_name row_domains))
     else Ok donors_regions) ;;
  acceptors_regions' <-
    (if (start row_domains <=? abscissa_position (base row_contacts))
          && (abscissa_position (base row_contacts) <=? stop row_domains)
     then list_setitem acceptors_regions idx (Some (domain_name row_domains))
     else Ok acceptors_regions) ;;
  Ok (donors_regions', acceptors_regions').

(** The value that [df.insert] gives to the row labelled [label]: the new
    column is aligned on the index, and a label it lacks leaves the entry
    unset. *)
Definition aligned (regions : list (option string)) (label : Z) : option string :=
  if (0 <=? label) && (label <? Z.of_nat (length regions))
  then nth (Z.to_nat label) regions None
  else None.

(** [pd.DataFrame(l)] as the value of [df.insert]: [insert] takes the only
    column of that frame.  Made from an empty list the frame has no column,
    and taking its first column raises [IndexError]. *)
Definition only_column {A : Type} (l : list A) : result (list A) :=
  match l with
  | [] => Raise IndexError
  | _ :: _ => Ok l
  end.

(** [update_domains].  The two lists are filled by label, then inserted as
    columns, aligned on the index.  On a table without rows the lists are
    empty and the first [insert] raises. *)
Definition update_domains (df : frame reduced) (domains : list domain)
  : result (frame annotated) :=
  let donors_regions := repeat (@None string) (length df) in
  let acceptors_regions := repeat (@None string) (length df) in
  regions <-
    for_each (fun regions ir =>
                for_each (update_domains_step (fst ir) (snd ir)) domains regions)
             df (donors_regions, acceptors_regions) ;;
  ordinate_column <- only_column (fst regions) ;;
  abscissa_column <- only_column (snd regions) ;;
  Ok (map (fun ir =>
             (fst ir,
              mk_annotated (snd ir) (aligned ordinate_column (fst ir))
                (aligned abscissa_column (fst ir))))
          df).

(** Name of the first, and of the last, interval that contains [x]. *)
Definition first_match (domains : list domain) (x : Z) : option string :=
  option_map domain_name (find (covers x) domains).

Definition last_match (domains : list domain) (x : Z) : option string :=
  option_map domain_name (find (covers x) (rev domains)).

(** ** Contacts by domain ([acceptors_domains_involved]) *)

(** A [dict] from domain names to counts, in insertion order. *)
Definition dict : Type := list (string * Z).

Fixpoint dict_get (k : string) (d : dict) : option Z :=
  match d with
  | [] => None
  | (k', v) :: rest => if String.eqb k k' then Some v else dict_get k rest
  end.

Fixpoint dict_set (k : string) (v : Z) (d : dict) : dict :=
  match d with
  | [] => [(k, v)]
  | (k', v') :: rest =>
      if String.eqb k k' then (k, v) :: rest else (k', v') :: dict_set k v rest
  end.

(** [data[k] += v]; a [KeyError] cannot occur where it is used, the key is
    set just before. *)
Definition dict_add (k : string) (v : Z) (d : dict) : dict :=
  match dict_get k d with
  | Some old => dict_set k (old + v) d
  | None => d
  end.

(** Body of the loop over the domains table. *)
Definition domains_involved_step (df : frame annotated) (data : dict)
  (row_domains : domain) : dict :=
  let tmp := filter (fun ir =>
                       match abscissa_domains (snd ir) with
                       | Some name => String.eqb name (domain_name row_domains)
                       | None => false
                       end) df in
  match tmp with
  | [] => data
  | _ =>
      let data0 :=
        match dict_get (domain_name row_domains) data with
        | None => dict_set (domain_name row_domains) 0 data
        | Some _ => data
        end in
      fold_left (fun d row_tmp =>
                   dict_add (domain_name row_domains)
                     (atoms_contacts (reduced_row (snd row_tmp))) d)
                tmp data0
  end.

(** The [data] dictionary that [acceptors_domains_involved] plots. *)
Definition acceptors_domains_involved (df : frame annotated) (domains : list domain)
  : dict :=
  fold_left (domains_involved_step df) domains [].

(** Rows of the annotated table whose abscissa domain is [name], and the
    total of their "atoms contacts". *)
Definition abscissa_rows (df : frame annotated) (name : string) : frame annotated :=
  filter (fun ir =>
            match abscissa_domains (snd ir) with
            | Some n => String.eqb n name
            | None => false
            end) df.

Definition abscissa_total (df : frame annotated) (name : string) : Z :=
  fold_right (fun ir acc => atoms_contacts (reduced_row (snd ir)) + acc) 0
    (abscissa_rows df name).

(** Number of rows of the domains table that bear [name]. *)
Definition name_count (domains : list domain) (name : string) : nat :=
  length (filter (fun d => String.eqb (domain_name d) name) domains).

(** ** Distinct values of a column, in ascending order *)

Fixpoint insert_unique (x : Z) (l : list Z) : list Z :=
  match l with
  | [] => [x]
  | y :: rest =>
      if x <? y then x :: l
      else if x =? y then l
      else y :: insert_unique x rest
  end.

(** [sorted(list(set(column)))]. *)
Definition sorted_unique (column : list Z) : list Z :=
  fold_right insert_unique [] column.

(** ** Matrices of the heatmap ([heatmap_distances_nb_contacts]) *)

(** [if s not in l: l.append(s)]. *)
Definition append_unique (s : string) (l : list string) : list string :=
  if existsb (String.eqb s) l then l else l ++ [s].

(** [if k not in d: d[k] = []] followed by [d[k].append(v)], on a
    dictionary kept in insertion order. *)
Fixpoint dict_append {V : Type} (k : Z) (v : V) (d : list (Z * list V))
  : list (Z * list V) :=
  match d with
  | [] => [(k, [v])]
  | (k', l) :: rest =>
      if k =? k' then (k', l ++ [v]) :: rest
      else (k', l) :: dict_append k v rest
  end.

(** [df.loc[mask, column].values[0]]: the entry of the first row the mask
    selects; an [IndexError] when it selects none. *)
Definition first_value {A V : Type} (mask : A -> bool) (column : A -> V)
  (df : frame A) : result V :=
  match find (fun ir => mask (snd ir)) df with
  | Some ir => Ok (column (snd ir))
  | None => Raise IndexError
  end.

(** The value put in a square: the entry of the first row with the two
    positions, [None] when there is no such row. *)
Definition square {V : Type} (column : reduced -> V) (df : frame reduced)
  (ordinate_pos abscissa_pos : Z) : option V :=
  match find (fun ir =>
                (ordinate_position (base (snd ir)) =? ordinate_pos)
                && (abscissa_position (base (snd ir)) =? abscissa_pos)) df with
  | Some ir => Some (column (snd ir))
  | None => None
  end.

Record heatmap_state : Type := mk_heatmap_state {
  distances : list (Z * list (option Qc));
  nb_contacts : list (Z * list (option Z));
  ordinates : list string;
  abscissas : list string
}.

(** Body of the inner loop, for one ordinate and one abscissa position. *)
Definition heatmap_inner (df : frame reduced) (ordinate_pos : Z)
  (st : heatmap_state) (abscissa_pos : Z) : result heatmap_state :=
  residue <- first_value (fun r => abscissa_position (base r) =? abscissa_pos)
               (fun r => abscissa_residue (base r)) df ;;
  let abscissa := (str_of_Z abscissa_pos ++ residue)%string in
  Ok (mk_heatmap_state
        (dict_append abscissa_pos
           (square (fun r => distance (base r)) df ordinate_pos abscissa_pos)
           (distances st))
        (dict_append abscissa_pos
           (square atoms_contacts df ordinate_pos abscissa_pos)
           (nb_contacts st))
        (ordinates st)
        (append_unique abscissa (abscissas st))).

(** Body of the outer loop, for one ordinate position. *)
Definition heatmap_outer (df : frame reduced) (unique_abscissa_positions : list Z)
  (st : heatmap_state) (ordinate_pos : Z) : result heatmap_state :=
  residue <- first_value (fun r => ordinate_position (base r) =? ordinate_pos)
               (fun r => ordinate_residue (base r)) df ;;
  let ordinate := (str_of_Z ordinate_pos ++ residue)%string in
  for_each (heatmap_inner df ordinate_pos) unique_abscissa_positions
    (mk_heatmap_state (distances st) (nb_contacts st)
       (append_unique ordinate (ordinates st)) (abscissas st)).

(** A matrix with its row labels, its column labels and its columns, each
    column listing one entry per row label. *)
Record matrix (V : Type) : Type := mk_matrix {
  row_labels : list string;
  column_labels : list string;
  columns : list (list (option V))
}.

Arguments mk_matrix {V} _ _ _.
Arguments row_labels {V} _.
Arguments column_labels {V} _.
Arguments columns {V} _.

(** [pd.DataFrame(d, index=labels)] followed by [.columns = names]: a
    [ValueError] when a column has not one entry per label, or when the
    names are not as many as the columns. *)
Definition make_matrix {V : Type} (d : list (Z * list (option V)))
  (labels names : list string) : result (matrix V) :=
  if forallb (fun c => Nat.eqb (length (snd c)) (length labels)) d
  then if Nat.eqb (length names) (length d)
       then Ok (mk_matrix labels names (map snd d))
       else Raise ValueError
  else Raise ValueError.

Definition heatmap_distances_nb_contacts (df : frame reduced)
  : result (matrix Qc * matrix Z) :=
  let unique_ordinate_positions :=
    sorted_unique (map (fun r => ordinate_position (base r)) (rows df)) in
  let unique_abscissa_positions :=
    sorted_unique (map (fun r => abscissa_position (base r)) (rows df)) in
  st <- for_each (heatmap_outer df unique_abscissa_positions)
          unique_ordinate_positions (mk_heatmap_state [] [] [] []) ;;
  source_distances <- make_matrix (distances st) (ordinates st) (abscissas st) ;;
  source_nb_contacts <- make_matrix (nb_contacts st) (ordinates st) (abscissas st) ;;
  Ok (source_distances, source_nb_contacts).

(** ** Unique residue pairs ([unique_residues_pairs]) *)

Record unique_pair : Type := mk_unique_pair {
  donor_positions : Z;
  donor_residues : string;
  acceptor_positions : Z;
  acceptor_residues : string;
  pair_atoms_contacts : Z;
  maximum_atoms_distance : Qc;
  contacts_ID : string
}.

(** [column.iloc[0]]: an [IndexError] on an empty table. *)
Definition iloc0 {A V : Type} (column : A -> V) (df : frame A) : result V :=
  match df with
  | [] => Raise IndexError
  | ir :: _ => Ok (column (snd ir))
  end.

Definition max_distance (a b : Qc) : Qc :=
  if lt_distance a b then b else a.

(** [max(column)]: the first of the greatest entries; a [ValueError] on an
    empty column. *)
Definition max_of (column : list Qc) : result Qc :=
  match column with
  | [] => Raise ValueError
  | x :: rest => Ok (fold_left max_distance rest x)
  end.

(** [" | ".join(l)]. *)
Fixpoint join_ids (l : list string) : string :=
  match l with
  | [] => EmptyString
  | [s] => s
  | s :: rest => (s ++ " | " ++ join_ids rest)%string
  end.

(** Body of the inner loop: the row of one donor and one acceptor
    position. *)
Definition unique_pair_row (col : contact -> Qc) (df_donors : frame contact)
  (donor_position0 acceptor_position0 : Z) : result unique_pair :=
  let df_acceptors :=
    filter (fun ir => acceptor_position (snd ir) =? acceptor_position0) df_donors in
  donor_res <- iloc0 donor_residue df_donors ;;
  acceptor_res <- iloc0 acceptor_residue df_acceptors ;;
  max_dist <- max_of (map col (rows df_acceptors)) ;;
  Ok (mk_unique_pair donor_position0 donor_res acceptor_position0 acceptor_res
        (Z.of_nat (length df_acceptors)) max_dist
        (join_ids (map contact_id (rows df_acceptors)))).

(** Body of the outer loop: the rows of one donor position, appended to
    those already made. *)
Definition unique_pairs_of_donor (col : contact -> Qc) (df_not_unique : frame contact)
  (made : list unique_pair) (donor_position0 : Z) : result (list unique_pair) :=
  let df_donors :=
    filter (fun ir => donor_position (snd ir) =? donor_position0) df_not_unique in
  for_each (fun made' acceptor_position0 =>
              row <- unique_pair_row col df_donors donor_position0 acceptor_position0 ;;
              Ok (made' ++ [row]))
    (sorted_unique (map acceptor_position (rows df_donors))) made.

(** [unique_residues_pairs]; the returned frame has the default index, it
    is the list of its rows here. *)
Definition unique_residues_pairs (df_not_unique : frame contact) (col : contact -> Qc)
  : result (list unique_pair) :=
  for_each (unique_pairs_of_donor col df_not_unique)
    (sorted_unique (map donor_position (rows df_not_unique))) [].

(** ** Definitions used in the statements and proofs *)

Definition enum_from {A : Type} (k : nat) (l : list A) : list (nat * A) :=
  combine (seq k (length l)) l.

(** The second loop, with the flag of each row decided on the way. *)
Fixpoint fused (ue : bool) (ps : Z) (k : nat) (rows : list domain)
  (st : domains_state) : result domains_state :=
  match rows with
  | [] => Ok st
  | row :: rest =>
      if stop row <? ps
      then st' <- get_domains_step ue [k] st (k, row) ;;
           fused ue ps (S k) rest st'
      else st' <- get_domains_step ue [] st (k, row) ;;
           fused ue (stop row) (S k) rest st'
  end.

(** Every row either lies below the highest stop met so far (it is flagged
    as embedded by the first loop) or starts after it. *)
Fixpoint separated_from (highest : Z) (rows : list domain) : Prop :=
  match rows with
  | [] => True
  | row :: rest =>
      (stop row < highest \/ highest < start row)
      /\ separated_from (Z.max highest (stop row)) rest
  end.

Definition separated (raw : list domain) : Prop := separated_from 0 raw.

Fixpoint starts_increasing (rows : list domain) : Prop :=
  match rows with
  | a :: (b :: _) as rest => start a < start b /\ starts_increasing rest
  | _ => True
  end.

(** The last row reaches the highest stop of the table: it is not flagged
    as embedded. *)
Definition ends_ordinary (raw : list domain) : Prop :=
  max_stop (removelast raw) <= stop (last raw (mk_domain "" 0 0 "")).

(** Intervals that follow one another from [lo] to [hi] without gap. *)
Fixpoint chain (lo : Z) (l : list domain) (hi : Z) : Prop :=
  match l with
  | [] => hi = lo - 1
  | d :: rest => start d = lo /\ start d <= stop d /\ chain (stop d + 1) rest hi
  end.

(** The stop that the first loop of [get_domains] holds after [rows]. *)
Fixpoint running_stop (ps : Z) (rows : list domain) : Z :=
  match rows with
  | [] => ps
  | row :: rest =>
      if stop row <? ps then running_stop ps rest else running_stop (stop row) rest
  end.

(** State of the second loop after the rows [pre]. *)
Definition tiling_inv (ue : bool) (pre : list domain) (st : domains_state) : Prop :=
  chain 1 (data st) (expected_start st - 1)
  /\ (embedded (previous st) = false -> expected_start st = max_stop pre + 1)
  /\ (embedded (previous st) = true ->
        ue = true /\ expected_start st <= max_stop pre
        /\ exists pre' row, pre = pre' ++ [row] /\ stop row < max_stop pre')
  /\ (pre <> [] -> exists f, fields (previous st) = Some f /\ pf_stop f = max_stop pre)
  /\ (ue = true -> forall pre' row, pre = pre' ++ [row] ->
        exists front d, data st = front ++ [d] /\ start d = start row).

(** The row of the oriented table [io] comes from the contact [row]: its
    label is the place of a contact equal to [row] in the list read. *)
Definition from_contact (contacts : list contact) (row : contact)
  (io : Z * oriented) : bool :=
  match nth_error contacts (Z.to_nat (fst io)) with
  | Some r => if contact_eq_dec r row then true else false
  | None => false
  end.

Definition is_letter (c : ascii) : bool :=
  ((65 <=? nat_of_ascii c) && (nat_of_ascii c <=? 90)
   || (97 <=? nat_of_ascii c) && (nat_of_ascii c <=? 122))%nat.

(** The characters of a printed integer. *)
Definition is_numeric (c : ascii) : bool := is_digit c || Ascii.eqb c "-".

Fixpoint all_chars (p : ascii -> bool) (s : string) : bool :=
  match s with
  | EmptyString => true
  | String c rest => p c && all_chars p rest
  end.

Definition head_not (p : ascii -> bool) (s : string) : bool :=
  match s with
  | EmptyString => true
  | String c _ => negb (p c)
  end.

(** Residue names are made of letters and each position bears one name. *)
Definition residues_well_named (df : frame oriented) : Prop :=
  (forall r, In r (rows df) ->
     all_chars is_letter (ordinate_residue r) = true
     /\ all_chars is_letter (abscissa_residue r) = true)
  /\ (forall r1 r2, In r1 (rows df) -> In r2 (rows df) ->
        ordinate_position r1 = ordinate_position r2 ->
        ordinate_residue r1 = ordinate_residue r2)
  /\ (forall r1 r2, In r1 (rows df) -> In r2 (rows df) ->
        abscissa_position r1 = abscissa_position r2 ->
        abscissa_residue r1 = abscissa_residue r2).

(** [tmp_df] for a row. *)
Definition group (df : frame oriented) (row : oriented) : frame oriented :=
  filter (fun jr => same_positions row (snd jr)) df.

(** The label [idxmin] returns on the group of a row. *)
Definition group_min (df : frame oriented) (row : oriented) : Z :=
  match group df row with
  | [] => 0
  | (i, r) :: rest => idxmin_from i (distance r) rest
  end.

Definition group_removed (df : frame oriented) (row : oriented) : list Z :=
  filter (fun j => negb (j =? group_min df row)) (index (group df row)).

(** The rows at which the loop meets a key for the first time. *)
Fixpoint representatives (seen : list string) (l : frame oriented) : list oriented :=
  match l with
  | [] => []
  | (_, row) :: rest =>
      if existsb (String.eqb (combination row)) seen
      then representatives seen rest
      else row :: representatives (seen ++ [combination row]) rest
  end.

Definition positions_eqb (p q : Z * Z) : bool :=
  (fst p =? fst q) && (snd p =? snd q).

(** The rows that survive [df.drop(idx_to_remove)] when labels are distinct
    and keys follow positions: in each group, the row [idxmin] selected. *)
Definition kept_rows (df : frame oriented) : frame oriented :=
  filter (fun ir => fst ir =? group_min df (snd ir)) df.

Definition sum_Z (l : list Z) : Z := fold_right Z.add 0 l.

(** No two rows with the same two positions, in either order. *)
Definition no_shared_unordered_pair (out : frame reduced) : Prop :=
  ForallOrdPairs
    (fun a b =>
       positions (base (snd a)) <> positions (base (snd b))
       /\ positions (base (snd a)) <> swap_positions (positions (base (snd b))))
    out.

(** [key_consistent], as a test. *)
Definition key_consistentb (df : frame oriented) : bool :=
  forallb (fun r1 =>
    forallb (fun r2 =>
      Bool.eqb (String.eqb (combination r1) (combination r2))
               (positions_eqb (positions r1) (positions r2)))
      (rows df))
    (rows df).

(** [x] is the first row of [l] with the least distance. *)
Definition first_closest (x : Z * oriented) (l : frame oriented) : Prop :=
  exists l1 l2,
    l = l1 ++ x :: l2
    /\ (forall y, In y l1 -> (distance (snd x) < distance (snd y))%Qc)
    /\ (forall y, In y l2 -> (distance (snd x) <= distance (snd y))%Qc).

(** The rows the outlier filter is meant to keep. *)
Definition far_enough (res_dist_thr : Z) (r : reduced) : bool :=
  res_dist_thr <=? Z.abs (ordinate_position (base r) - abscissa_position (base r)).

(** What one pass over the domains table leaves in an entry that held [v]. *)
Definition pick (domains : list domain) (x : Z) (v : option string) : option string :=
  fold_left (fun acc d => if covers x d then Some (domain_name d) else acc) domains v.

Definition total_contacts (tmp : frame annotated) : Z :=
  fold_right (fun ir acc => atoms_contacts (reduced_row (snd ir)) + acc) 0 tmp.

Definition or_zero (v : option Z) : Z :=
  match v with
  | Some z => z
  | None => 0
  end.

(** The rows of a table with a given donor and acceptor position. *)
Definition pair_group (df : frame contact) (d a : Z) : frame contact :=
  filter (fun ir => acceptor_position (snd ir) =? a)
    (filter (fun ir => donor_position (snd ir) =? d) df).

(** The pairs (donor position, acceptor position) in the order in which
    [unique_residues_pairs] visits them. *)
Definition visited_pairs (df : frame contact) : list (Z * Z) :=
  flat_map (fun d =>
              map (fun a => (d, a))
                (sorted_unique
                   (map acceptor_position
                      (rows (filter (fun ir => donor_position (snd ir) =? d) df)))))
    (sorted_unique (map donor_position (rows df))).

Definition pair_of (u : unique_pair) : Z * Z :=
  (donor_positions u, acceptor_positions u).

(** Order of the pairs: by donor position, then by acceptor position. *)
Definition pair_lt (p q : Z * Z) : Prop :=
  fst p < fst q \/ (fst p = fst q /\ snd p < snd q).

(** The row [u] summarises the rows of [df] with the positions [da]. *)
Definition describes (df : frame contact) (col : contact -> Qc) (da : Z * Z)
  (u : unique_pair) : Prop :=
  pair_of u = da
  /\ pair_group df (fst da) (snd da) <> []
  /\ pair_atoms_contacts u = Z.of_nat (length (pair_group df (fst da) (snd da)))
  /\ (forall ir, In ir (pair_group df (fst da) (snd da)) ->
        (col (snd ir) <= maximum_atoms_distance u)%Qc)
  /\ (exists ir, In ir (pair_group df (fst da) (snd da))
                 /\ col (snd ir) = maximum_atoms_distance u)
  /\ contacts_ID u
     = join_ids (map contact_id (rows (pair_group df (fst da) (snd da))))
  /\ (exists ir rest,
        filter (fun ir => donor_position (snd ir) =? fst da) df = ir :: rest
        /\ donor_residues u = donor_residue (snd ir))
  /\ (exists ir rest,
        pair_group df (fst da) (snd da) = ir :: rest
        /\ acceptor_residues u = acceptor_residue (snd ir)).

(** Label of an ordinate, and of an abscissa, position: the position
    followed by the residue name of the first row that has it. *)
Definition ordinate_label (df : frame reduced) (p : Z) : string :=
  match find (fun ir => ordinate_position (base (snd ir)) =? p) df with
  | Some ir => (str_of_Z p ++ ordinate_residue (base (snd ir)))%string
  | None => str_of_Z p
  end.

Definition abscissa_label (df : frame reduced) (p : Z) : string :=
  match find (fun ir => abscissa_position (base (snd ir)) =? p) df with
  | Some ir => (str_of_Z p ++ abscissa_residue (base (snd ir)))%string
  | None => str_of_Z p
  end.

Definition ordinate_positions (df : frame reduced) : list Z :=
  sorted_unique (map (fun r => ordinate_position (base r)) (rows df)).

Definition abscissa_positions (df : frame reduced) : list Z :=
  sorted_unique (map (fun r => abscissa_position (base r)) (rows df)).

(** Residue names made of letters. *)
Definition residues_lettered (df : frame reduced) : Prop :=
  forall r, In r (rows df) ->
    all_chars is_letter (ordinate_residue (base r)) = true
    /\ all_chars is_letter (abscissa_residue (base r)) = true.

(** The columns of a matrix of the heatmap: for each abscissa position, the
    squares of the ordinate positions. *)
Definition squares {V : Type} (column : reduced -> V) (df : frame reduced)
  (abscissa_list ordinate_list : list Z) : list (Z * list (option V)) :=
  map (fun a => (a, map (fun o => square column df o a) ordinate_list)) abscissa_list.

Definition is_set {V : Type} (v : option V) : bool :=
  match v with
  | Some _ => true
  | None => false
  end.

(** Number of squares of a matrix that hold a value. *)
Definition filled {V : Type} (m : matrix V) : nat :=
  length (filter is_set (concat (columns m))).

(** The squares of a matrix, column after column. *)
Definition grid (abscissa_list ordinate_list : list Z) : list (Z * Z) :=
  flat_map (fun a => map (fun o => (o, a)) ordinate_list) abscissa_list.

(** The first row of the table has a negative stop. *)
Definition negative_first (raw : list domain) : bool :=
  match raw with
  | row :: _ => stop row <? 0
  | [] => false
  end.

(** An ordinary row has been recorded. *)
Definition armed (st : domains_state) : Prop :=
  data st <> [] /\ fields (previous st) <> None.

Ltac digit_value :=
  match goal with
  | |- context [Z.of_nat (nat_of_ascii ?c)] =>
      let v := eval vm_compute in (Z.of_nat (nat_of_ascii c)) in
      change (Z.of_nat (nat_of_ascii c)) with v
  end; lia.

(** The annotation of a table by the last interval that contains each
    position. *)
Definition annotated_by_last_match (df : frame reduced) (domains : list domain)
  : frame annotated :=
  map (fun ir =>
         (fst ir,
          mk_annotated (snd ir)
            (last_match domains (ordinate_position (base (snd ir))))
            (last_match domains (abscissa_position (base (snd ir))))))
      df.

(** Both region lists have [n] entries. *)
Definition sized (n : nat) (regions : list (option string) * list (option string))
  : Prop :=
  length (fst regions) = n /\ length (snd regions) = n.

(** Names under which a dictionary holds a value. *)
Definition keys (d : dict) : list string := map fst d.

Definition atom (name : string) (d : Z) (dres : string) (a : Z) (ares : string)
  (dist : Q) : contact :=
  mk_contact name d dres a ares (Q2Qc dist) [].

Definition residue_row (name : string) (o : Z) (ores : string) (a : Z)
  (ares : string) (dist : Q) : oriented :=
  mk_oriented name o ores a ares (Q2Qc dist) donor.

(** Three atom contacts on two residue pairs; the closest contact of the
    pair met first comes last. *)
Definition sample_oriented : frame oriented :=
  [ (0, residue_row "c0" 1 "ALA" 2 "GLY" (3 # 1));
    (1, residue_row "c1" 3 "SER" 4 "THR" (1 # 1));
    (2, residue_row "c2" 1 "ALA" 2 "GLY" (2 # 1)) ].

(** A residue pair met twice in one order and once in the other. *)
Definition sample_both_orders : frame oriented :=
  [ (0, residue_row "c0" 1 "ALA" 2 "GLY" (3 # 1));
    (1, residue_row "c1" 2 "GLY" 1 "ALA" (1 # 1));
    (2, residue_row "c2" 1 "ALA" 2 "GLY" (2 # 1)) ].

(** The same residue pair met in both orders. *)
Definition sample_swapped : frame oriented :=
  [ (0, residue_row "c0" 1 "ALA" 2 "GLY" (3 # 1));
    (1, residue_row "c1" 2 "GLY" 1 "ALA" (1 # 1)) ].

Definition sample_contacts : list contact :=
  [ atom "c0" 15 "ALA" 30 "GLY" (3 # 1);
    atom "c1" 30 "GLY" 40 "SER" (1 # 1);
    atom "c2" 50 "THR" 12 "VAL" (2 # 1);
    atom "c3" 11 "LEU" 12 "VAL" (1 # 1) ].

Definition sample_reduced : frame reduced :=
  [ (0, mk_reduced (residue_row "c0" 12 "ALA" 15 "GLY" (5 # 2)) 2);
    (1, mk_reduced (residue_row "c1" 7 "SER" 12 "THR" (4 # 1)) 1) ].

Definition sample_heap : heap :=
  fun r => if Nat.eqb r 0 then Some sample_reduced else None.

Definition overlapping_domains : list domain :=
  [mk_domain "A" 1 10 "#fff"; mk_domain "B" 5 15 "#000"].

Definition split_domains : list domain :=
  [mk_domain "A" 1 4 "#fff"; mk_domain "B" 5 7 "#000"; mk_domain "A" 8 10 "#fff"].

Definition sample_annotated : frame annotated :=
  [ (0, mk_annotated (mk_reduced (residue_row "c0" 6 "ALA" 2 "GLY" (5 # 2)) 2)
          (Some "B"%string) (Some "A"%string));
    (1, mk_annotated (mk_reduced (residue_row "c1" 6 "ALA" 9 "THR" (4 # 1)) 3)
          (Some "B"%string) (Some "A"%string)) ].

(** A position pair under two keys: position 2 is named GLY in one row and
    SER in the other. *)
Definition sample_two_keys : frame oriented :=
  [ (0, residue_row "c0" 1 "ALA" 2 "GLY" (3 # 1));
    (1, residue_row "c1" 1 "ALA" 2 "SER" (1 # 1)) ].

(** A table whose only row bears the label 5. *)
Definition sample_mislabelled : frame reduced :=
  [ (5, mk_reduced (residue_row "c0" 12 "ALA" 15 "GLY" (5 # 2)) 2) ].

(** The table that [extract_residues_contacts] returns on the sample
    contacts with the region 10..20. *)
Definition sample_table : frame reduced :=
  [ (3, mk_reduced (mk_oriented "c3" 11 "LEU" 12 "VAL" (Q2Qc (1 # 1)) donor) 1);
    (2, mk_reduced (mk_oriented "c2" 12 "VAL" 50 "THR" (Q2Qc (2 # 1)) acceptor) 1);
    (0, mk_reduced (mk_oriented "c0" 15 "ALA" 30 "GLY" (Q2Qc (3 # 1)) donor) 1) ].

(** * Properties *)

(** ** Domain intervals: the two loops of [get_domains] *)

Section DomainsLoop.

Lemma enum_from_cons {A : Type} (k : nat) (a : A) (l : list A) :
  enum_from k (a :: l) = (k, a) :: enum_from (S k) l.
Proof. reflexivity. Qed.

Lemma max_stop_snoc (pre : list domain) (row : domain) :
  max_stop (pre ++ [row]) = Z.max (max_stop pre) (stop row).
Proof.
  induction pre as [|d pre IH]; simpl.
  - lia.
  - fold (max_stop (pre ++ [row])). fold (max_stop pre). rewrite IH. lia.
Qed.

Lemma max_stop_nonneg (l : list domain) : 0 <= max_stop l.
Proof. induction l; simpl; [lia | fold (max_stop l); lia]. Qed.

(** Indices met by the scan are appended, earlier ones are kept. *)
Lemma embedded_scan_below (rows : list domain) :
  forall k ps acc j, (j < k)%nat ->
    existsb (Nat.eqb j) (embedded_scan (enum_from k rows) ps acc)
    = existsb (Nat.eqb j) acc.
Proof.
  induction rows as [|row rows IH]; intros k ps acc j Hj.
  - reflexivity.
  - rewrite enum_from_cons. simpl.
    destruct (stop row <? ps).
    + rewrite IH by lia. rewrite existsb_app. simpl.
      replace (Nat.eqb j k) with false by (symmetry; apply Nat.eqb_neq; lia).
      now rewrite !orb_false_r.
    + now rewrite IH by lia.
Qed.

Lemma step_flag (ue : bool) (E : list nat) (st : domains_state) (k : nat)
  (row : domain) :
  get_domains_step ue E st (k, row)
  = if existsb (Nat.eqb k) E
    then get_domains_step ue [k] st (k, row)
    else get_domains_step ue [] st (k, row).
Proof.
  unfold get_domains_step. simpl. rewrite Nat.eqb_refl. simpl.
  now destruct (existsb (Nat.eqb k) E).
Qed.

Lemma loop_fused (ue : bool) (rows : list domain) :
  forall k ps acc st,
    (forall j, In j acc -> (j < k)%nat) ->
    for_each (get_domains_step ue (embedded_scan (enum_from k rows) ps acc))
      (enum_from k rows) st
    = fused ue ps k rows st.
Proof.
  induction rows as [|row rows IH]; intros k ps acc st Hacc.
  - reflexivity.
  - rewrite enum_from_cons.
    cbn [for_each fused embedded_scan].
    rewrite step_flag.
    assert (Hnot : existsb (Nat.eqb k) acc = false).
    { apply not_true_is_false. intros H. apply existsb_exists in H.
      destruct H as [j [Hin Hj]]. apply Nat.eqb_eq in Hj. subst j.
      specialize (Hacc k Hin). lia. }
    destruct (stop row <? ps) eqn:Hemb.
    + rewrite embedded_scan_below by lia.
      rewrite existsb_app. cbn [existsb]. rewrite Nat.eqb_refl, orb_true_r.
      destruct (get_domains_step ue [k] st (k, row)) as [st'|e]; cbn [bind]; [|reflexivity].
      apply IH. intros j Hj. apply in_app_or in Hj. destruct Hj as [Hj|[Hj|[]]].
      * specialize (Hacc j Hj). lia.
      * lia.
    + rewrite embedded_scan_below by lia. rewrite Hnot.
      destruct (get_domains_step ue [] st (k, row)) as [st'|e]; cbn [bind]; [|reflexivity].
      apply IH. intros j Hj. specialize (Hacc j Hj). lia.
Qed.

Lemma get_domains_fused (raw : list domain) (ue : bool) :
  get_domains raw ue = st <- fused ue 0 0%nat raw domains_init ;; Ok (data st).
Proof.
  unfold get_domains, iterrows_range. fold (enum_from 0 raw).
  rewrite loop_fused; [reflexivity | intros j []].
Qed.

End DomainsLoop.

(** ** Domain intervals: tables that [get_domains] tiles *)

Section DomainsTiling.

Lemma chain_snoc (l : list domain) : forall lo d hi,
  chain lo (l ++ [d]) hi <->
  chain lo l (start d - 1) /\ start d <= stop d /\ hi = stop d.
Proof.
  induction l as [|a l IH]; intros lo d hi; simpl.
  - lia.
  - rewrite IH. tauto.
Qed.

Lemma chain_below (l : list domain) : forall lo hi x,
  chain lo l hi -> x < lo -> cover_count x l = 0%nat.
Proof.
  unfold cover_count.
  induction l as [|a l IH]; intros lo hi x Hc Hx; simpl in *.
  - reflexivity.
  - destruct Hc as [Hs [Hle Hc]]. unfold covers at 1.
    replace (start a <=? x) with false by (symmetry; apply Z.leb_gt; lia).
    simpl. apply (IH _ _ _ Hc). lia.
Qed.

Lemma chain_bounds (l : list domain) : forall lo hi,
  chain lo l hi -> lo - 1 <= hi.
Proof.
  induction l as [|a l IH]; intros lo hi Hc; simpl in *.
  - lia.
  - destruct Hc as [Hs [Hle Hc]]. apply IH in Hc. lia.
Qed.

Lemma chain_cover (l : list domain) : forall lo hi x,
  chain lo l hi -> lo <= x <= hi -> cover_count x l = 1%nat.
Proof.
  induction l as [|a l IH]; intros lo hi x Hc Hx; simpl in *.
  - lia.
  - destruct Hc as [Hs [Hle Hc]]. unfold cover_count in *. simpl.
    unfold covers at 1.
    destruct (Z_le_gt_dec x (stop a)) as [Hin|Hout].
    + replace (start a <=? x) with true by (symmetry; apply Z.leb_le; lia).
      replace (x <=? stop a) with true by (symmetry; apply Z.leb_le; lia).
      simpl. f_equal. apply (chain_below _ _ _ _ Hc). lia.
    + replace (x <=? stop a) with false by (symmetry; apply Z.leb_gt; lia).
      rewrite andb_false_r. apply (IH _ _ _ Hc). lia.
Qed.

Lemma set_last_stop_snoc (front : list domain) (d : domain) (v : Z) :
  set_last_stop (front ++ [d]) v
  = Ok (front ++ [mk_domain (domain_name d) (start d) v (color d)]).
Proof.
  induction front as [|a front IH].
  - reflexivity.
  - change ((a :: front) ++ [d]) with (a :: (front ++ [d])).
    cbn [set_last_stop]. rewrite IH.
    destruct (front ++ [d]) eqn:E.
    + destruct front; discriminate.
    + reflexivity.
Qed.

Lemma running_stop_max (rows : list domain) : forall ps,
  0 <= ps -> running_stop ps rows = Z.max ps (max_stop rows).
Proof.
  induction rows as [|row rows IH]; intros ps Hps; simpl.
  - lia.
  - fold (max_stop rows). pose proof (max_stop_nonneg rows).
    destruct (stop row <? ps) eqn:E.
    + apply Z.ltb_lt in E. rewrite IH by lia. lia.
    + apply Z.ltb_ge in E. rewrite IH by lia. lia.
Qed.

Lemma fused_snoc (ue : bool) (l : list domain) (row : domain) :
  forall ps k st,
    fused ue ps k (l ++ [row]) st
    = st' <- fused ue ps k l st ;;
      if stop row <? running_stop ps l
      then get_domains_step ue [(k + length l)%nat] st' ((k + length l)%nat, row)
      else get_domains_step ue [] st' ((k + length l)%nat, row).
Proof.
  induction l as [|a l IH]; intros ps k st.
  - cbn [app fused running_stop length bind]. rewrite Nat.add_0_r.
    destruct (stop row <? ps).
    + destruct (get_domains_step ue [k] st (k, row)); reflexivity.
    + destruct (get_domains_step ue [] st (k, row)); reflexivity.
  - change ((a :: l) ++ [row]) with (a :: (l ++ [row])).
    cbn [fused running_stop length].
    replace (k + S (length l))%nat with (S k + length l)%nat by lia.
    destruct (stop a <? ps).
    + destruct (get_domains_step ue [k] st (k, a)); cbn [bind]; [apply IH|reflexivity].
    + destruct (get_domains_step ue [] st (k, a)); cbn [bind]; [apply IH|reflexivity].
Qed.

Lemma separated_from_snoc (l : list domain) (row : domain) : forall M,
  0 <= M ->
  separated_from M (l ++ [row]) <->
  separated_from M l
  /\ (stop row < Z.max M (max_stop l) \/ Z.max M (max_stop l) < start row).
Proof.
  induction l as [|a l IH]; intros M HM; simpl.
  - rewrite Z.max_l by lia. tauto.
  - fold (max_stop l). rewrite IH by lia.
    replace (Z.max (Z.max M (stop a)) (max_stop l))
      with (Z.max M (Z.max (stop a) (max_stop l))) by lia.
    tauto.
Qed.

Lemma starts_increasing_snoc (l : list domain) (a b : domain) :
  starts_increasing (l ++ [a; b]) ->
  starts_increasing (l ++ [a]) /\ start a < start b.
Proof.
  induction l as [|c l IH]; simpl.
  - tauto.
  - destruct l as [|c' l]; simpl in *.
    + tauto.
    + intros [H1 H2]. destruct (IH H2) as [H3 H4]. tauto.
Qed.

Lemma starts_increasing_init (l : list domain) (a : domain) :
  starts_increasing (l ++ [a]) -> starts_increasing l.
Proof.
  induction l as [|c l IH]; simpl.
  - trivial.
  - destruct l as [|c' l]; simpl in *.
    + trivial.
    + intros [H1 H2]. split; [exact H1 | exact (IH H2)].
Qed.

End DomainsTiling.

Section DomainsInvariant.

Lemma close_embedding_tiles (ue : bool) (pre : list domain) (st : domains_state) :
  tiling_inv ue pre st ->
  exists st1, close_embedding st = Ok st1
    /\ chain 1 (data st1) (max_stop pre)
    /\ expected_start st1 = max_stop pre + 1
    /\ embedded (previous st1) = false.
Proof.
  intros (Hchain & Hclosed & Hopen & Hfields & _).
  unfold close_embedding.
  destruct (embedded (previous st)) eqn:Hemb.
  - destruct (Hopen eq_refl) as (_ & Hle & pre' & row & Hpre & _).
    destruct Hfields as (f & Hf & Hstop).
    { rewrite Hpre. now destruct pre'. }
    rewrite Hf. eexists. split; [reflexivity|]. simpl.
    repeat split; try lia.
    apply chain_snoc. simpl. repeat split; try lia. exact Hchain.
  - exists st. rewrite Hemb. specialize (Hclosed eq_refl).
    repeat split; try assumption.
    now replace (max_stop pre) with (expected_start st - 1) by lia.
Qed.

Lemma fill_gap_tiles (idx : nat) (row : domain) (st1 : domains_state) (M : Z) :
  chain 1 (data st1) M -> expected_start st1 = M + 1 -> M < start row ->
  chain 1 (fill_gap idx row st1) (start row - 1).
Proof.
  intros Hchain Hexp Hlt. unfold fill_gap.
  destruct (expected_start st1 <? start row) eqn:Hgap.
  - apply Z.ltb_lt in Hgap. apply chain_snoc. simpl.
    repeat split; try lia. now replace (expected_start st1 - 1) with M by lia.
  - apply Z.ltb_ge in Hgap. now replace (start row - 1) with M by lia.
Qed.

Lemma tiling_loop (ue : bool) (raw : list domain) :
  Forall (fun d => 1 <= start d <= stop d) raw ->
  separated raw ->
  (ue = true -> starts_increasing raw) ->
  exists st, fused ue 0 0%nat raw domains_init = Ok st /\ tiling_inv ue raw st.
Proof.
  induction raw as [|row pre IH] using rev_ind; intros Hrows Hsep Hinc.
  - exists domains_init. split; [reflexivity|].
    unfold tiling_inv; simpl. repeat split; try lia; try discriminate.
    + intros H; now elim H.
    + intros _ pre' row H. now destruct pre'.
  - apply Forall_app in Hrows. destruct Hrows as [Hpre Hrow].
    inversion Hrow as [|? ? Hrow1 _]; subst.
    apply separated_from_snoc in Hsep; [|lia].
    destruct Hsep as [Hsep Hhere].
    pose proof (max_stop_nonneg pre) as Hnn.
    rewrite Z.max_r in Hhere by lia.
    destruct IH as (st & Hrun & Hinv); auto.
    { intros Hue. eapply starts_increasing_init; eauto. }
    rewrite fused_snoc, Hrun. cbn [bind].
    rewrite running_stop_max by lia. rewrite Z.max_r by lia.
    destruct (stop row <? max_stop pre) eqn:Hemb.
    + apply Z.ltb_lt in Hemb.
      assert (Hne : pre <> []) by (intros ->; simpl in Hemb; lia).
      destruct Hinv as (Hchain & Hclosed & Hopen & Hfields & Hlast).
      destruct (Hfields Hne) as (f & Hf & Hstop).
      unfold get_domains_step. cbn [existsb]. rewrite Nat.eqb_refl. cbn [orb].
      destruct ue.
      * destruct (exists_last Hne) as (pre' & lastrow & ->).
        destruct (Hlast eq_refl pre' lastrow eq_refl) as (front & d & Hdata & Hd).
        specialize (Hinc eq_refl). rewrite <- app_assoc in Hinc. simpl in Hinc.
        apply starts_increasing_snoc in Hinc. destruct Hinc as [_ Hinc].
        rewrite Hdata, set_last_stop_snoc. cbn [bind].
        eexists. split; [reflexivity|].
        unfold tiling_inv. simpl. rewrite !max_stop_snoc.
        rewrite max_stop_snoc in Hemb, Hstop.
        rewrite Hdata in Hchain. apply chain_snoc in Hchain.
        destruct Hchain as (Hfront & _ & _).
        split; [|split; [|split; [|split]]].
        -- apply chain_snoc. repeat split; try lia.
           apply chain_snoc. simpl. repeat split; try lia. exact Hfront.
        -- discriminate.
        -- intros _. split; [reflexivity|]. split; [lia|].
           exists (pre' ++ [lastrow]), row. split; [reflexivity|].
           rewrite max_stop_snoc. lia.
        -- intros _. exists f. split; [exact Hf|]. lia.
        -- intros _ p r Heq. apply app_inj_tail in Heq. destruct Heq as [_ <-].
           eexists _, row. split; reflexivity.
      * exists st. split; [reflexivity|].
        unfold tiling_inv. rewrite !max_stop_snoc.
        split; [exact Hchain|]. split; [|split; [|split]].
        -- intros H. rewrite (Hclosed H). lia.
        -- intros H. destruct (Hopen H) as [Hue _]. discriminate.
        -- intros _. exists f. split; [exact Hf|]. lia.
        -- discriminate.
    + apply Z.ltb_ge in Hemb.
      assert (Hlt : max_stop pre < start row) by lia.
      destruct (close_embedding_tiles _ _ _ Hinv) as (st1 & Hclose & Hchain1 & Hexp1 & Hemb1).
      unfold get_domains_step. cbn [existsb]. rewrite Hclose. cbn [bind].
      eexists. split; [reflexivity|].
      unfold tiling_inv. simpl. rewrite Hemb1, !max_stop_snoc.
      split; [|split; [|split; [|split]]].
      * apply chain_snoc. repeat split; try lia.
        eapply fill_gap_tiles; eauto.
      * intros _. lia.
      * discriminate.
      * intros _. eexists. split; [reflexivity|]. simpl. lia.
      * intros _ p r Heq. apply app_inj_tail in Heq. destruct Heq as [_ <-].
        eexists _, row. split; reflexivity.
Qed.

End DomainsInvariant.

(** C4 (as amended): on a table of 1-indexed rows with start <= stop in which
    each row either is nested below the highest stop met so far or starts
    after it, and, when embedded domains are used, whose starts increase and
    whose last row is not nested, [get_domains] returns intervals in which
    every position from 1 to the highest stop lies in exactly one interval. *)
Theorem get_domains_tiles (raw : list domain) (use_embedded : bool) :
  Forall (fun d => 1 <= start d <= stop d) raw ->
  separated raw ->
  (use_embedded = true -> starts_increasing raw /\ ends_ordinary raw) ->
  exists out,
    get_domains raw use_embedded = Ok out
    /\ forall x, 1 <= x <= max_stop raw -> cover_count x out = 1%nat.
Proof.
  intros Hrows Hsep Hue.
  destruct (tiling_loop use_embedded raw Hrows Hsep) as (st & Hrun & Hinv).
  { intros H. now destruct (Hue H). }
  rewrite get_domains_fused, Hrun. cbn [bind].
  exists (data st). split; [reflexivity|].
  intros x Hx.
  destruct Hinv as (Hchain & Hclosed & Hopen & _ & _).
  apply (chain_cover _ _ _ _ Hchain).
  destruct (embedded (previous st)) eqn:Hemb.
  - exfalso. destruct (Hopen eq_refl) as (Htrue & _ & pre' & row & Hpre & Hlow).
    destruct (Hue Htrue) as [_ Hend]. unfold ends_ordinary in Hend.
    rewrite Hpre, removelast_last, last_last in Hend. lia.
  - rewrite (Hclosed eq_refl). lia.
Qed.

Lemma get_domains_tiles_witness :
  exists out,
    get_domains [mk_domain "A" 3 10 "#fff"; mk_domain "B" 5 7 "#000";
                 mk_domain "C" 12 20 "#00f"] true = Ok out
    /\ forall x, 1 <= x <= 20 -> cover_count x out = 1%nat.
Proof.
  apply (get_domains_tiles
           [mk_domain "A" 3 10 "#fff"; mk_domain "B" 5 7 "#000";
            mk_domain "C" 12 20 "#00f"] true).
  - repeat constructor; simpl; lia.
  - unfold separated; simpl. repeat split; lia.
  - intros _. unfold ends_ordinary; simpl. repeat split; lia.
Defined.

(** C4, counterexample: two rows with start <= stop that overlap without
    nesting are both emitted unchanged, so position 7 lies in two intervals. *)
Lemma get_domains_overlap_counterexample :
  ~ (forall (raw : list domain) (use_embedded : bool) (out : list domain) (x : Z),
       Forall (fun d => start d <= stop d) raw ->
       get_domains raw use_embedded = Ok out ->
       1 <= x <= max_stop raw ->
       cover_count x out = 1%nat).
Proof.
  intros H.
  specialize (H [mk_domain "A" 1 10 "#fff"; mk_domain "B" 5 15 "#000"] false
                [mk_domain "A" 1 10 "#fff"; mk_domain "B" 5 15 "#000"] 7).
  assert (Hc : cover_count 7 [mk_domain "A" 1 10 "#fff"; mk_domain "B" 5 15 "#000"] = 2%nat)
    by reflexivity.
  rewrite H in Hc.
  - discriminate.
  - repeat constructor; simpl; lia.
  - reflexivity.
  - simpl. lia.
Qed.

(** C3: with embedded domains used, the table A 1-10, B 5-7 yields two
    intervals only; the rest of A (8-10) is never emitted because no
    ordinary row follows the embedded one. *)
Theorem get_domains_trailing_embedded :
  get_domains [mk_domain "A" 1 10 "#fff"; mk_domain "B" 5 7 "#000"] true
  = Ok [mk_domain "A" 1 4 "#fff"; mk_domain "B" 5 7 "#000"].
Proof. reflexivity. Qed.

(** ** Region of interest *)

Section RoiSearch.

Local Open Scope string_scope.

Lemma append_empty_r (s : string) : s ++ "" = s.
Proof. induction s as [|c s IH]; simpl; [reflexivity | now rewrite IH]. Qed.

Lemma span_digits_app (d r : string) :
  all_digits d = true ->
  span_digits (d ++ r) = (d ++ fst (span_digits r), snd (span_digits r)).
Proof.
  induction d as [|c d IH]; simpl; intros Hd.
  - now destruct (span_digits r).
  - apply andb_true_iff in Hd. destruct Hd as [Hc Hd].
    rewrite Hc, (IH Hd). reflexivity.
Qed.

Lemma span_digits_split (s : string) :
  s = fst (span_digits s) ++ snd (span_digits s)
  /\ all_digits (fst (span_digits s)) = true.
Proof.
  induction s as [|c s [IH1 IH2]]; simpl.
  - split; reflexivity.
  - destruct (is_digit c) eqn:Hc.
    + destruct (span_digits s) as [g r]; simpl in *.
      rewrite Hc, IH2. split; [now f_equal | reflexivity].
    + split; reflexivity.
Qed.

Lemma match_here_range (s g1 g2 : string) :
  match_here s = Some (g1, g2) ->
  all_digits g1 = true /\ g1 <> "" /\ all_digits g2 = true /\ g2 <> ""
  /\ exists post, s = g1 ++ "-" ++ g2 ++ post.
Proof.
  unfold match_here.
  destruct (span_digits_split s) as [Hs Hd1].
  destruct (span_digits s) as [h1 r1]; simpl in *.
  destruct h1 as [|c1 h1]; [discriminate|].
  destruct r1 as [|c r2]; [discriminate|].
  destruct (ascii_dec c "-") as [->|Hc].
  - destruct (span_digits_split r2) as [Hr Hd2].
    destruct (span_digits r2) as [h2 r3]; simpl in *.
    destruct h2 as [|c2 h2]; [discriminate|].
    intros H; injection H as <- <-.
    repeat split; try assumption; try discriminate.
    exists r3. rewrite Hs at 1. simpl. f_equal. f_equal.
    rewrite Hr at 1. reflexivity.
  - intros H. exfalso.
    destruct c as [[] [] [] [] [] [] [] []]; try discriminate. now apply Hc.
Qed.

Lemma match_here_found (d1 d2 post : string) :
  all_digits d1 = true -> d1 <> "" -> all_digits d2 = true -> d2 <> "" ->
  match_here (d1 ++ "-" ++ d2 ++ post)
  = Some (d1, d2 ++ fst (span_digits post)).
Proof.
  intros H1 N1 H2 N2. unfold match_here.
  rewrite (span_digits_app d1 _ H1). simpl.
  rewrite append_empty_r.
  rewrite (span_digits_app d2 _ H2). simpl.
  destruct d1 as [|c1 d1]; [now elim N1|].
  destruct d2 as [|c2 d2]; [now elim N2|].
  reflexivity.
Qed.

Lemma search_unfold (s : string) :
  search s
  = match match_here s with
    | Some m => Some m
    | None => match s with
              | EmptyString => None
              | String _ rest => search rest
              end
    end.
Proof. destruct s; reflexivity. Qed.

Lemma search_found (s : string) :
  contains_range s -> exists g1 g2, search s = Some (g1, g2).
Proof.
  intros (pre & d1 & d2 & post & -> & H1 & N1 & H2 & N2).
  induction pre as [|c pre IH].
  - change ("" ++ d1 ++ "-" ++ d2 ++ post) with (d1 ++ "-" ++ d2 ++ post).
    rewrite search_unfold.
    rewrite (match_here_found d1 d2 post H1 N1 H2 N2). eauto.
  - change ((String c pre) ++ d1 ++ "-" ++ d2 ++ post)
      with (String c (pre ++ d1 ++ "-" ++ d2 ++ post)).
    cbn [search].
    destruct (match_here (String c (pre ++ d1 ++ "-" ++ d2 ++ post))) as [[g1 g2]|].
    + eauto.
    + exact IH.
Qed.

Lemma search_range (s g1 g2 : string) :
  search s = Some (g1, g2) ->
  contains_range s /\ all_digits g1 = true /\ all_digits g2 = true.
Proof.
  induction s as [|c s IH].
  - cbn. discriminate.
  - cbn [search].
    destruct (match_here (String c s)) as [[h1 h2]|] eqn:E.
    + intros H; injection H as <- <-.
      apply match_here_range in E.
      destruct E as (H1 & N1 & H2 & N2 & post & E).
      split; [|split; assumption].
      exists "", h1, h2, post. simpl. repeat split; assumption.
    + intros H. destruct (IH H) as [(pre & d1 & d2 & post & -> & Hd) Hg].
      split; [|exact Hg].
      exists (String c pre), d1, d2, post. split; [reflexivity | exact Hd].
Qed.

End RoiSearch.

(** C8 (as amended): on an ASCII argument, [extract_roi] raises, and what it
    raises is an [ArgumentTypeError], exactly when the argument contains no
    digits-hyphen-digits substring, and it returns otherwise; on digits,
    hyphen, digits it returns the two integers as they stand, whatever their
    order. *)
Theorem extract_roi_accepts_any_order :
  (forall s,
     ascii_only s = true ->
     ((exists msg, extract_roi s = Raise (ArgumentTypeError msg))
      <-> ~ contains_range s)
     /\ ((exists lo hi, extract_roi s = Ok (lo, hi)) <-> contains_range s)
     /\ (forall e, extract_roi s = Raise e -> exists msg, e = ArgumentTypeError msg))
  /\ (forall d1 d2,
        all_digits d1 = true -> d1 <> EmptyString ->
        all_digits d2 = true -> d2 <> EmptyString ->
        extract_roi (d1 ++ "-" ++ d2)%string = Ok (int d1, int d2)).
Proof.
  split.
  - intros s _. unfold extract_roi. split; [|split].
    + split.
      * intros [msg He] Hc. destruct (search_found s Hc) as (g1 & g2 & Hs).
        rewrite Hs in He. discriminate.
      * intros Hn. destruct (search s) as [[g1 g2]|] eqn:Hs.
        -- elim Hn. now apply (search_range s g1 g2).
        -- eauto.
    + split.
      * intros (lo & hi & He). destruct (search s) as [[g1 g2]|] eqn:Hs.
        -- now apply (search_range s g1 g2).
        -- discriminate.
      * intros Hc. destruct (search_found s Hc) as (g1 & g2 & Hs).
        rewrite Hs. eauto.
    + intros e He. destruct (search s) as [[g1 g2]|]; [discriminate|].
      injection He as <-. eauto.
  - intros d1 d2 H1 N1 H2 N2. unfold extract_roi.
    pose proof (match_here_found d1 d2 EmptyString H1 N1 H2 N2) as Hm.
    cbn [span_digits fst] in Hm. rewrite !append_empty_r in Hm.
    rewrite search_unfold, Hm. reflexivity.
Qed.

(** C8, counterexample: a decreasing range is returned, not rejected. *)
Lemma extract_roi_decreasing_counterexample :
  ~ (forall s lo hi, extract_roi s = Ok (lo, hi) -> lo <= hi).
Proof.
  intros H. specialize (H "200-100"%string 200 100 eq_refl). lia.
Qed.

(** ** Region of interest: rows kept and their orientation *)

Section RoiSelection.

Lemma rows_combine {A : Type} (l : list A) : forall labels : list Z,
  length labels = length l -> rows (combine labels l) = l.
Proof.
  unfold rows.
  induction l as [|a l IH]; intros [|z zs] H; simpl in *; try discriminate; auto.
  f_equal. apply IH. now injection H.
Qed.

Lemma index_combine {A : Type} (l : list A) : forall labels : list Z,
  length labels = length l -> index (combine labels l) = labels.
Proof.
  unfold index.
  induction l as [|a l IH]; intros [|z zs] H; simpl in *; try discriminate; auto.
  f_equal. apply IH. now injection H.
Qed.

Lemma rows_range_index {A : Type} (l : list A) : rows (range_index l) = l.
Proof.
  apply rows_combine. now rewrite length_map, length_seq.
Qed.

Lemma index_range_index {A : Type} (l : list A) :
  index (range_index l) = map Z.of_nat (seq 0 (length l)).
Proof.
  apply index_combine. now rewrite length_map, length_seq.
Qed.

Lemma rows_filter_in {A : Type} (f : A -> bool) (df : frame A) (r : A) :
  In r (rows (filter (fun ir => f (snd ir)) df)) <-> In r (rows df) /\ f r = true.
Proof.
  unfold rows. rewrite !in_map_iff. split.
  - intros [[i r'] [<- H]]. apply filter_In in H. destruct H as [H1 H2].
    split; [now exists (i, r') | exact H2].
  - intros [[[i r'] [<- H1]] H2]. exists (i, r'). split; [reflexivity|].
    apply filter_In. now split.
Qed.

Lemma NoDup_rows_filter {A : Type} (f : Z * A -> bool) (df : frame A) :
  NoDup (rows df) -> NoDup (rows (filter f df)).
Proof.
  unfold rows. induction df as [|a l IH]; simpl; intros Hnd; [constructor|].
  inversion Hnd as [|? ? Hnotin Hnd']; subst.
  destruct (f a); simpl; [constructor|]; auto.
  intros H. apply Hnotin. apply in_map_iff in H. destruct H as [x [Hx Hin]].
  apply in_map_iff. exists x. split; [exact Hx|]. apply filter_In in Hin. tauto.
Qed.

Lemma drop_duplicates_cons (i : Z) (a : contact) (l : frame contact) (r : contact) :
  In r (rows (drop_duplicates ((i, a) :: l))) <->
  r = a \/ (r <> a /\ In r (rows (drop_duplicates l))).
Proof.
  cbn [drop_duplicates]. unfold rows. cbn [map snd].
  pose proof (rows_filter_in (fun x => if contact_eq_dec x a then false else true)
                (drop_duplicates l) r) as E.
  unfold rows in E. cbv beta in E.
  split.
  - intros [H|H]; [left; now symmetry|].
    apply E in H. destruct H as [H1 H2]. right. split; [|exact H1].
    destruct (contact_eq_dec r a); [discriminate | assumption].
  - intros [->|[Hne H]]; [now left|]. right. apply E. split; [exact H|].
    destruct (contact_eq_dec r a); [contradiction | reflexivity].
Qed.

Lemma drop_duplicates_in (df : frame contact) (r : contact) :
  In r (rows (drop_duplicates df)) <-> In r (rows df).
Proof.
  induction df as [|[i a] l IH]; [reflexivity|].
  rewrite drop_duplicates_cons, IH. unfold rows. cbn [map snd].
  destruct (contact_eq_dec r a) as [->|Hne].
  - split; intros _; now left.
  - split.
    + intros [H|[_ H]]; [left; now symmetry | now right].
    + intros [H|H]; [left; now symmetry | right; now split].
Qed.

Lemma drop_duplicates_distinct (df : frame contact) :
  NoDup (rows (drop_duplicates df)).
Proof.
  induction df as [|[i a] l IH]; [constructor|].
  cbn [drop_duplicates]. unfold rows. cbn [map snd]. constructor.
  - intros H.
    apply (rows_filter_in (fun x => if contact_eq_dec x a then false else true)) in H.
    destruct H as [_ H]. destruct (contact_eq_dec a a); [discriminate | congruence].
  - now apply NoDup_rows_filter.
Qed.

Lemma roi_select_in (lo hi : Z) (df : frame contact) (r : contact) :
  In r (rows (roi_select (Some (lo, hi)) df)) <->
  In r (rows df)
  /\ (between (donor_position r) lo hi = true
      \/ between (acceptor_position r) lo hi = true).
Proof.
  cbn [roi_select]. rewrite drop_duplicates_in.
  pose proof (rows_filter_in (fun x => between (donor_position x) lo hi) df r) as E1.
  pose proof (rows_filter_in (fun x => between (acceptor_position x) lo hi) df r) as E2.
  cbv beta in E1, E2.
  unfold rows at 1. rewrite map_app, in_app_iff.
  unfold rows in E1, E2 |- *. rewrite E1, E2. tauto.
Qed.

Lemma oriented_in_region (lo hi : Z) (contacts : list contact) (o : oriented) :
  In o (rows (oriented_contacts (Some (lo, hi)) contacts)) ->
  between (ordinate_position o) lo hi = true.
Proof.
  unfold oriented_contacts, rows. rewrite map_map. cbn [snd].
  intros H. apply in_map_iff in H. destruct H as [[i r] [<- Hin]]. cbn [snd].
  assert (Hr : In r (rows (roi_select (Some (lo, hi)) (range_index contacts))))
    by (unfold rows; apply in_map_iff; now exists (i, r)).
  apply roi_select_in in Hr. destruct Hr as [_ Hr].
  unfold orient. fold (between (donor_position r) lo hi).
  destruct (between (donor_position r) lo hi) eqn:E; simpl; [exact E|].
  destruct Hr as [Hr|Hr]; [discriminate | exact Hr].
Qed.

Lemma oriented_acceptor_outside (lo hi : Z) (contacts : list contact) (o : oriented) :
  In o (rows (oriented_contacts (Some (lo, hi)) contacts)) ->
  ordinate_type o = acceptor -> between (abscissa_position o) lo hi = false.
Proof.
  unfold oriented_contacts, rows. rewrite map_map. cbn [snd].
  intros H. apply in_map_iff in H. destruct H as [[i r] [<- _]]. cbn [snd].
  unfold orient. fold (between (donor_position r) lo hi).
  destruct (between (donor_position r) lo hi) eqn:E; simpl; [discriminate|].
  intros _. exact E.
Qed.

Lemma range_index_nth {A : Type} (l : list A) (i : Z) (a : A) :
  In (i, a) (range_index l) -> nth_error l (Z.to_nat i) = Some a.
Proof.
  unfold range_index.
  assert (G : forall (l : list A) k,
             In (i, a) (combine (map Z.of_nat (seq k (length l))) l) ->
             nth_error l (Z.to_nat i - k) = Some a).
  { clear l. induction l as [|x l IH]; intros k H; [destruct H|].
    cbn [length seq map combine] in H. destruct H as [H|H].
    - injection H as <- <-. rewrite Nat2Z.id, Nat.sub_diag. reflexivity.
    - assert (Hk : (S k <= Z.to_nat i)%nat).
      { apply in_combine_l in H. apply in_map_iff in H.
        destruct H as [n [<- Hn]]. apply in_seq in Hn. rewrite Nat2Z.id. lia. }
      specialize (IH (S k) H).
      replace (Z.to_nat i - k)%nat with (S (Z.to_nat i - S k)) by lia.
      exact IH. }
  intros H. specialize (G l 0%nat H). now rewrite Nat.sub_0_r in G.
Qed.

Lemma roi_select_incl (lo hi : Z) (df : frame contact) (x : Z * contact) :
  In x (roi_select (Some (lo, hi)) df) -> In x df.
Proof.
  cbn [roi_select].
  assert (G : forall l (y : Z * contact), In y (drop_duplicates l) -> In y l).
  { induction l as [|[i a] l IH]; intros y; [trivial|].
    cbn [drop_duplicates]. intros [H|H]; [now left|].
    apply filter_In in H. right. now apply IH. }
  intros H. apply G in H. apply in_app_or in H.
  destruct H as [H|H]; apply filter_In in H; tauto.
Qed.

Lemma one_or_no_row (row : contact) (df : frame contact) :
  NoDup (rows df) ->
  (In row (rows df) ->
   exists i, filter (fun ir => if contact_eq_dec (snd ir) row then true else false) df
             = [(i, row)])
  /\ (~ In row (rows df) ->
      filter (fun ir => if contact_eq_dec (snd ir) row then true else false) df = []).
Proof.
  unfold rows. induction df as [|[i a] l IH]; cbn [map snd filter]; intros Hnd.
  - split; [intros [] | reflexivity].
  - inversion Hnd as [|? ? Hnotin Hnd']; subst. destruct (IH Hnd') as [IH1 IH2].
    destruct (contact_eq_dec a row) as [->|Hne].
    + split; [|intros H; elim H; now left].
      intros _. exists i. now rewrite (IH2 Hnotin).
    + split.
      * intros [H|H]; [contradiction | now apply IH1].
      * intros H. apply IH2. intros H'. apply H. now right.
Qed.

Lemma from_contact_kept (lo hi : Z) (contacts : list contact) (row : contact) :
  filter (from_contact contacts row) (oriented_contacts (Some (lo, hi)) contacts)
  = map (fun ir => (fst ir, orient (Some (lo, hi)) (snd ir)))
      (filter (fun ir => if contact_eq_dec (snd ir) row then true else false)
         (roi_select (Some (lo, hi)) (range_index contacts))).
Proof.
  unfold oriented_contacts.
  assert (G : forall l : frame contact,
             (forall x, In x l -> In x (range_index contacts)) ->
             filter (from_contact contacts row)
               (map (fun ir => (fst ir, orient (Some (lo, hi)) (snd ir))) l)
             = map (fun ir => (fst ir, orient (Some (lo, hi)) (snd ir)))
                 (filter (fun ir => if contact_eq_dec (snd ir) row then true else false) l)).
  { induction l as [|[i r] l IH]; intros Hl; [reflexivity|].
    cbn [map filter fst snd]. unfold from_contact at 1. cbn [fst].
    rewrite (range_index_nth contacts i r) by (apply Hl; now left).
    rewrite IH by (intros x Hx; apply Hl; now right).
    now destruct (contact_eq_dec r row). }
  apply G. intros x. apply roi_select_incl.
Qed.

End RoiSelection.

(** C6: with a region of interest [lo, hi], among the rows of the oriented
    table those that come from a given contact row are: one row, oriented on
    the donor side, when the donor position is in the region, whether or not
    the acceptor position is in it too (the row is kept once, not once per
    side); one row, oriented on the acceptor side, when only the acceptor
    position is in the region; none when neither position is in the region,
    and then neither orientation of the row is in the table. *)
Theorem roi_orientation (contacts : list contact) (lo hi : Z) (row : contact) :
  In row contacts ->
  (between (donor_position row) lo hi = true ->
     (exists i,
        filter (from_contact contacts row) (oriented_contacts (Some (lo, hi)) contacts)
        = [(i, donor_side row)])
     /\ ~ In (acceptor_side row) (rows (oriented_contacts (Some (lo, hi)) contacts)))
  /\ (between (donor_position row) lo hi = false ->
      between (acceptor_position row) lo hi = true ->
      (exists i,
         filter (from_contact contacts row) (oriented_contacts (Some (lo, hi)) contacts)
         = [(i, acceptor_side row)])
      /\ ~ In (donor_side row) (rows (oriented_contacts (Some (lo, hi)) contacts)))
  /\ (between (donor_position row) lo hi = false ->
      between (acceptor_position row) lo hi = false ->
      filter (from_contact contacts row) (oriented_contacts (Some (lo, hi)) contacts)
      = []
      /\ ~ In (donor_side row) (rows (oriented_contacts (Some (lo, hi)) contacts))
      /\ ~ In (acceptor_side row) (rows (oriented_contacts (Some (lo, hi)) contacts))).
Proof.
  intros Hin. rewrite from_contact_kept.
  pose proof (one_or_no_row row (roi_select (Some (lo, hi)) (range_index contacts))
                (drop_duplicates_distinct _)) as [Hone Hnone].
  pose proof (roi_select_in lo hi (range_index contacts) row) as Hsel.
  rewrite rows_range_index in Hsel.
  assert (Hd : forall o, In o (rows (oriented_contacts (Some (lo, hi)) contacts)) ->
                 ordinate_type o = donor \/ between (abscissa_position o) lo hi = false).
  { intros o Ho. destruct (ordinate_type o) eqn:E; [now left|].
    right. now apply (oriented_acceptor_outside lo hi contacts). }
  split; [|split].
  - intros Hdonor. split.
    + destruct Hone as [i Hi]; [apply Hsel; auto|].
      exists i. rewrite Hi. cbn [map fst snd]. unfold orient.
      fold (between (donor_position row) lo hi). now rewrite Hdonor.
    + intros H. destruct (Hd _ H) as [H'|H']; simpl in H'; congruence.
  - intros Hdonor Hacceptor. split.
    + destruct Hone as [i Hi]; [apply Hsel; auto|].
      exists i. rewrite Hi. cbn [map fst snd]. unfold orient.
      fold (between (donor_position row) lo hi). now rewrite Hdonor.
    + intros H. apply oriented_in_region in H. simpl in H. congruence.
  - intros Hdonor Hacceptor. split; [|split].
    + rewrite Hnone; [reflexivity|]. intros H. apply Hsel in H.
      destruct H as [_ [H|H]]; congruence.
    + intros H. apply oriented_in_region in H. simpl in H. congruence.
    + intros H. apply oriented_in_region in H. simpl in H. congruence.
Qed.

(** ** Keys of the reducer: when they follow the positions *)

Section ReducerKeys.

Local Open Scope string_scope.

Lemma append_assoc3 (a b c : string) : (a ++ b) ++ c = a ++ (b ++ c).
Proof. induction a as [|x a IH]; simpl; [reflexivity | now rewrite IH]. Qed.

Lemma split_unique (p : ascii -> bool) (u : string) : forall u' s s',
  all_chars p u = true -> all_chars p u' = true ->
  head_not p s = true -> head_not p s' = true ->
  u ++ s = u' ++ s' -> u = u' /\ s = s'.
Proof.
  induction u as [|c u IH]; intros [|c' u'] s s' Hu Hu' Hs Hs' E; simpl in *.
  - now split.
  - subst s. simpl in Hs. apply andb_true_iff in Hu'. destruct Hu' as [Hc _].
    rewrite Hc in Hs. discriminate.
  - subst s'. simpl in Hs'. apply andb_true_iff in Hu. destruct Hu as [Hc _].
    rewrite Hc in Hs'. discriminate.
  - injection E as -> E.
    apply andb_true_iff in Hu, Hu'. destruct Hu as [_ Hu], Hu' as [_ Hu'].
    destruct (IH u' s s' Hu Hu' Hs Hs' E) as [-> ->]. now split.
Qed.

Lemma letter_not_numeric (c : ascii) : is_letter c = true -> is_numeric c = false.
Proof.
  unfold is_letter, is_numeric, is_digit. intros H.
  apply orb_false_iff. split.
  - apply andb_false_iff.
    apply orb_true_iff in H. rewrite !andb_true_iff, !Nat.leb_le in H.
    rewrite !Nat.leb_gt. lia.
  - apply not_true_is_false. intros E. apply Ascii.eqb_eq in E. subst c.
    discriminate H.
Qed.

Lemma letters_head_not_numeric (s t : string) :
  all_chars is_letter s = true -> head_not is_numeric t = true ->
  head_not is_numeric (s ++ t) = true.
Proof.
  destruct s as [|c s]; simpl; intros Hs Ht; [exact Ht|].
  apply andb_true_iff in Hs. destruct Hs as [Hc _].
  now rewrite (letter_not_numeric c Hc).
Qed.

Lemma uint_digits (d : Decimal.uint) :
  all_chars is_numeric (NilEmpty.string_of_uint d) = true.
Proof. induction d; simpl; auto. Qed.

Lemma str_of_Z_numeric (z : Z) : all_chars is_numeric (str_of_Z z) = true.
Proof.
  unfold str_of_Z.
  assert (H : forall d, all_chars is_numeric (NilZero.string_of_uint d) = true).
  { intros d. destruct d; try apply uint_digits. reflexivity. }
  destruct (Z.to_int z); simpl; auto.
Qed.

Lemma str_of_Z_inj (a b : Z) : str_of_Z a = str_of_Z b -> a = b.
Proof.
  unfold str_of_Z. intros H.
  assert (Hnn : forall z, Z.to_int z <> Decimal.Pos Decimal.Nil
                          /\ Z.to_int z <> Decimal.Neg Decimal.Nil).
  { intros [|p|p]; simpl; split; try discriminate; intros E; injection E;
      apply Unsigned.to_uint_nonnil. }
  assert (E : Some (Z.to_int a) = Some (Z.to_int b)).
  { rewrite <- (NilZero.isi (Z.to_int a)) by apply Hnn.
    rewrite <- (NilZero.isi (Z.to_int b)) by apply Hnn.
    now rewrite H. }
  injection E as E. rewrite <- (DecimalZ.of_to a), <- (DecimalZ.of_to b).
  now rewrite E.
Qed.

Lemma combination_positions (r r' : oriented) :
  all_chars is_letter (ordinate_residue r) = true ->
  all_chars is_letter (abscissa_residue r) = true ->
  all_chars is_letter (ordinate_residue r') = true ->
  all_chars is_letter (abscissa_residue r') = true ->
  combination r = combination r' -> positions r = positions r'.
Proof.
  intros Ho Ha Ho' Ha'. unfold combination, positions. intros E.
  rewrite !append_assoc3 in E.
  apply (split_unique is_numeric) in E;
    try apply str_of_Z_numeric;
    try (apply letters_head_not_numeric; [assumption | reflexivity]).
  destruct E as [E1 E].
  apply (split_unique is_letter) in E; try assumption; try reflexivity.
  destruct E as [_ E]. injection E as E.
  apply (split_unique is_numeric) in E;
    try apply str_of_Z_numeric.
  - destruct E as [E2 _].
    now rewrite (str_of_Z_inj _ _ E1), (str_of_Z_inj _ _ E2).
  - rewrite <- (append_empty_r (abscissa_residue r)).
    apply letters_head_not_numeric; [assumption | reflexivity].
  - rewrite <- (append_empty_r (abscissa_residue r')).
    apply letters_head_not_numeric; [assumption | reflexivity].
Qed.

(** On tables whose residue names are letters, one name per position, the
    keys of the reducer follow the positions. *)
Lemma well_named_key_consistent (df : frame oriented) :
  residues_well_named df -> key_consistent df.
Proof.
  intros (Hletters & Hord & Habs) r1 r2 H1 H2. split.
  - destruct (Hletters r1 H1), (Hletters r2 H2).
    now apply combination_positions.
  - unfold positions, combination. intros E. injection E as Eo Ea.
    now rewrite (Hord r1 r2 H1 H2 Eo), (Habs r1 r2 H1 H2 Ea), Eo, Ea.
Qed.

End ReducerKeys.

(** ** Reduction to residue contacts: what the loop computes *)

Section ReducerLoop.

Variable df : frame oriented.

Lemma same_positions_iff (row r : oriented) :
  same_positions row r = true <-> positions r = positions row.
Proof.
  unfold same_positions, positions.
  rewrite orb_true_iff, !andb_true_iff, !Z.eqb_eq.
  split.
  - intros [[H1 H2]|[H1 H2]]; congruence.
  - intros H; injection H as H1 H2. tauto.
Qed.

Lemma same_positions_refl (row : oriented) : same_positions row row = true.
Proof. now apply same_positions_iff. Qed.

Lemma group_ext (r1 r2 : oriented) :
  positions r1 = positions r2 -> group df r1 = group df r2.
Proof.
  intros H. unfold group. apply filter_ext. intros [j r]. simpl.
  apply eq_true_iff_eq. rewrite !same_positions_iff. rewrite H. tauto.
Qed.

Lemma group_min_ext (r1 r2 : oriented) :
  positions r1 = positions r2 -> group_min df r1 = group_min df r2.
Proof. intros H. unfold group_min. now rewrite (group_ext r1 r2 H). Qed.

Lemma idxmin_group (i : Z) (row : oriented) :
  In (i, row) df -> idxmin (group df row) = Ok (group_min df row).
Proof.
  intros Hin. unfold group_min.
  assert (Hg : In (i, row) (group df row)).
  { apply filter_In. split; [exact Hin | apply same_positions_refl]. }
  destruct (group df row) as [|[j r] rest]; [destruct Hg | reflexivity].
Qed.

Lemma reducer_loop (l : frame oriented) : forall st,
  incl l df ->
  for_each (reducer_step df) l st
  = Ok (mk_reducer_state
          (combinations st ++ map combination (representatives (combinations st) l))
          (idx_to_remove st
             ++ flat_map (group_removed df) (representatives (combinations st) l))
          (combinations_nb_contacts st
             ++ map (fun row => Z.of_nat (length (group df row)))
                  (representatives (combinations st) l))).
Proof.
  induction l as [|[i row] rest IH]; intros st Hincl.
  - simpl. rewrite !app_nil_r. now destruct st.
  - assert (Hrest : incl rest df) by (intros x Hx; apply Hincl; now right).
    assert (Hrow : In (i, row) df) by (apply Hincl; now left).
    cbn [for_each representatives]. unfold reducer_step at 1. cbn [snd].
    destruct (existsb (String.eqb (combination row)) (combinations st)) eqn:Hseen.
    + cbn [bind]. now apply IH.
    + fold (group df row). rewrite (idxmin_group i row Hrow). cbn [bind].
      rewrite IH by assumption. cbn [combinations idx_to_remove combinations_nb_contacts].
      fold (group_removed df row).
      f_equal. f_equal.
      * now rewrite <- app_assoc.
      * cbn [flat_map map]. destruct (group_removed df row) eqn:E.
        -- reflexivity.
        -- now rewrite <- app_assoc.
      * cbn [map]. now rewrite <- app_assoc.
Qed.

Lemma representatives_spec (l : frame oriented) : forall seen,
  NoDup (map combination (representatives seen l))
  /\ (forall r, In r (representatives seen l) ->
        ~ In (combination r) seen /\ In r (rows l))
  /\ (forall r, In r (rows l) ->
        In (combination r) seen
        \/ In (combination r) (map combination (representatives seen l))).
Proof.
  induction l as [|[i row] rest IH]; intros seen.
  - simpl. split; [constructor|]. split; intros r [].
  - cbn [representatives rows map snd].
    destruct (existsb (String.eqb (combination row)) seen) eqn:Hseen.
    + destruct (IH seen) as (Hnd & Hin & Hcov).
      split; [exact Hnd|]. split.
      * intros r Hr. destruct (Hin r Hr). split; [assumption | now right].
      * intros r [<-|Hr].
        -- left. apply existsb_exists in Hseen. destruct Hseen as [k [Hk Heq]].
           apply String.eqb_eq in Heq. now subst k.
        -- now apply Hcov.
    + destruct (IH (seen ++ [combination row])) as (Hnd & Hin & Hcov).
      assert (Hnot : ~ In (combination row) seen).
      { intros H. apply not_true_iff_false in Hseen. apply Hseen.
        apply existsb_exists. exists (combination row).
        split; [exact H | apply String.eqb_refl]. }
      split; [|split].
      * cbn [map]. constructor; [|exact Hnd].
        intros H. apply in_map_iff in H. destruct H as [r [Heq Hr]].
        destruct (Hin r Hr) as [Hn _]. apply Hn. apply in_or_app. right.
        left. now symmetry.
      * intros r [<-|Hr].
        -- split; [exact Hnot | now left].
        -- destruct (Hin r Hr) as [Hn Hr']. split; [|now right].
           intros H. apply Hn. apply in_or_app. now left.
      * intros r [<-|Hr].
        -- right. now left.
        -- destruct (Hcov r Hr) as [H|H].
           ++ apply in_app_or in H. destruct H as [H|[H|[]]].
              ** now left.
              ** right. left. exact H.
           ++ right. now right.
Qed.

End ReducerLoop.

(** ** Reduction to residue contacts: counting rows by group *)

Section Counting.

Lemma positions_eqb_eq (p q : Z * Z) : positions_eqb p q = true <-> p = q.
Proof.
  destruct p as [a b], q as [c d]. unfold positions_eqb. simpl.
  rewrite andb_true_iff, !Z.eqb_eq. split; [intros []; congruence|].
  intros H; injection H; auto.
Qed.

Lemma NoDup_map_dependent {A B C : Type} (f : A -> B) (g : A -> C) (l : list A) :
  NoDup (map f l) ->
  (forall x y, In x l -> In y l -> g x = g y -> f x = f y) ->
  NoDup (map g l).
Proof.
  induction l as [|a l IH]; simpl; intros Hnd Hdep.
  - constructor.
  - inversion Hnd as [|? ? Hnotin Hnd']; subst. constructor.
    + intros H. apply in_map_iff in H. destruct H as [x [Hx Hin]].
      apply Hnotin. apply in_map_iff. exists x. split; [|exact Hin].
      apply Hdep; auto.
    + apply IH; auto.
Qed.

(** One member of a duplicate-free list is hit exactly once. *)
Lemma hit_once (P : list (Z * Z)) (p : Z * Z) :
  NoDup P -> In p P ->
  list_sum (map (fun q => if positions_eqb p q then 1%nat else 0%nat) P) = 1%nat.
Proof.
  induction P as [|q P IH]; intros Hnd Hin; [destruct Hin|].
  inversion Hnd as [|? ? Hnotin Hnd']; subst. simpl.
  destruct (positions_eqb p q) eqn:E.
  - apply positions_eqb_eq in E. subst q. f_equal.
    clear IH Hin Hnd. induction P as [|q P IH]; [reflexivity|]. simpl.
    destruct (positions_eqb p q) eqn:E.
    + apply positions_eqb_eq in E. subst q. elim Hnotin. now left.
    + simpl. apply IH.
      * intros H. apply Hnotin. now right.
      * now inversion Hnd'.
  - destruct Hin as [->|Hin].
    + rewrite (proj2 (positions_eqb_eq p p) eq_refl) in E. discriminate.
    + simpl. now apply IH.
Qed.

Lemma list_sum_map_add {A : Type} (f g : A -> nat) (l : list A) :
  list_sum (map (fun x => (f x + g x)%nat) l)
  = (list_sum (map f l) + list_sum (map g l))%nat.
Proof. induction l as [|a l IH]; simpl; [reflexivity | rewrite IH; lia]. Qed.

Lemma list_sum_map_zero {A : Type} (l : list A) :
  list_sum (map (fun _ => 0%nat) l) = 0%nat.
Proof. induction l; simpl; auto. Qed.

(** Rows that satisfy [f], counted group by group. *)
Lemma count_by_group {A : Type} (pos : A -> Z * Z) (f : A -> bool)
  (P : list (Z * Z)) (l : list A) :
  NoDup P ->
  (forall x, In x l -> In (pos x) P) ->
  length (filter f l)
  = list_sum (map (fun q => length (filter (fun x => positions_eqb (pos x) q && f x) l)) P).
Proof.
  intros Hnd. induction l as [|a l IH]; intros Hcov.
  - simpl. now rewrite list_sum_map_zero.
  - assert (Hl : forall x, In x l -> In (pos x) P) by (intros x Hx; apply Hcov; now right).
    specialize (IH Hl).
    assert (Ha : In (pos a) P) by (apply Hcov; now left).
    transitivity
      (list_sum (map (fun q => ((if positions_eqb (pos a) q && f a then 1 else 0)
                                + length (filter (fun x => positions_eqb (pos x) q && f x) l))%nat) P)).
    2:{ f_equal. apply map_ext. intros q. simpl.
        now destruct (positions_eqb (pos a) q && f a). }
    rewrite list_sum_map_add, <- IH. cbn [filter].
    destruct (f a).
    + rewrite (map_ext _ (fun q => if positions_eqb (pos a) q then 1%nat else 0%nat)).
      * now rewrite (hit_once P (pos a) Hnd Ha).
      * intros q. now rewrite andb_true_r.
    + rewrite (map_ext _ (fun _ => 0%nat)).
      * now rewrite list_sum_map_zero.
      * intros q. now rewrite andb_false_r.
Qed.

Lemma list_sum_map_const {A : Type} (f : A -> nat) (l : list A) (c : nat) :
  (forall x, In x l -> f x = c) -> list_sum (map f l) = (c * length l)%nat.
Proof.
  induction l as [|a l IH]; intros H; simpl.
  - lia.
  - rewrite (H a) by now left. rewrite IH by (intros x Hx; apply H; now right). lia.
Qed.

(** A label of a table with distinct labels selects one row. *)
Lemma one_row_per_label {A : Type} (l : frame A) (i : Z) :
  NoDup (index l) -> In i (index l) ->
  length (filter (fun ir => fst ir =? i) l) = 1%nat.
Proof.
  unfold index. induction l as [|[j r] l IH]; intros Hnd Hin; [destruct Hin|].
  simpl in *. inversion Hnd as [|? ? Hnotin Hnd']; subst.
  destruct (j =? i) eqn:E.
  - apply Z.eqb_eq in E. subst j. simpl. f_equal.
    clear IH Hin Hnd Hnd'. induction l as [|[j r'] l IH]; [reflexivity|].
    simpl in *. destruct (j =? i) eqn:E.
    + apply Z.eqb_eq in E. subst j. elim Hnotin. now left.
    + apply IH. tauto.
  - destruct Hin as [->|Hin]; [rewrite Z.eqb_refl in E; discriminate|].
    now apply IH.
Qed.

Lemma NoDup_index_filter {A : Type} (f : Z * A -> bool) (l : frame A) :
  NoDup (index l) -> NoDup (index (filter f l)).
Proof.
  unfold index. induction l as [|a l IH]; simpl; intros Hnd; [constructor|].
  inversion Hnd as [|? ? Hnotin Hnd']; subst.
  destruct (f a); simpl; [constructor|]; auto.
  intros H. apply Hnotin. apply in_map_iff in H. destruct H as [x [Hx Hin]].
  apply in_map_iff. exists x. split; [exact Hx|]. apply filter_In in Hin. tauto.
Qed.

Lemma NoDup_index_unique {A : Type} (l : frame A) (i : Z) (r1 r2 : A) :
  NoDup (index l) -> In (i, r1) l -> In (i, r2) l -> r1 = r2.
Proof.
  unfold index. induction l as [|[j r] l IH]; intros Hnd H1 H2; [destruct H1|].
  simpl in *. inversion Hnd as [|? ? Hnotin Hnd']; subst.
  destruct H1 as [H1|H1], H2 as [H2|H2].
  - congruence.
  - injection H1 as -> ->. elim Hnotin. apply in_map_iff. now exists (i, r2).
  - injection H2 as -> ->. elim Hnotin. apply in_map_iff. now exists (i, r1).
  - now apply IH.
Qed.

Lemma idxmin_from_in (l : frame oriented) : forall best d,
  In (idxmin_from best d l) (best :: index l).
Proof.
  induction l as [|[i r] l IH]; intros best d; simpl.
  - now left.
  - destruct (lt_distance (distance r) d).
    + destruct (IH i (distance r)) as [H|H]; [right; left; exact H | right; right; exact H].
    + destruct (IH best d) as [H|H]; [left; exact H | right; right; exact H].
Qed.

End Counting.

(** ** Reduction to residue contacts: the rows kept and their counts *)

Lemma group_term (df : frame oriented) (f : Z * oriented -> bool) (rep : oriented) :
  filter (fun x => positions_eqb (positions (snd x)) (positions rep) && f x) df
  = filter f (group df rep).
Proof.
  unfold group. induction df as [|a l IH]; [reflexivity|]. simpl.
  assert (E : positions_eqb (positions (snd a)) (positions rep)
              = same_positions rep (snd a)).
  { apply eq_true_iff_eq. now rewrite positions_eqb_eq, same_positions_iff. }
  rewrite E. destruct (same_positions rep (snd a)); simpl; rewrite IH; reflexivity.
Qed.

Lemma filter_all {A : Type} (l : list A) : filter (fun _ => true) l = l.
Proof. induction l as [|a l IH]; simpl; [reflexivity | now rewrite IH]. Qed.

Section ReducerKept.

Variable df : frame oriented.
Hypothesis labels_distinct : NoDup (index df).
Hypothesis keys_follow_positions : key_consistent df.

Let R : list oriented := representatives [] df.

Lemma representatives_in_df (rep : oriented) :
  In rep R -> In rep (rows df).
Proof.
  intros H. now destruct (proj1 (proj2 (representatives_spec df [])) rep H).
Qed.

Lemma representatives_positions_distinct : NoDup (map positions R).
Proof.
  apply (NoDup_map_dependent combination positions).
  - exact (proj1 (representatives_spec df [])).
  - intros x y Hx Hy Hpos.
    apply keys_follow_positions; auto using representatives_in_df.
Qed.

Lemma representatives_cover (ir : Z * oriented) :
  In ir df -> exists rep, In rep R /\ positions rep = positions (snd ir).
Proof.
  intros Hin.
  assert (Hr : In (snd ir) (rows df)) by (apply in_map; exact Hin).
  destruct (proj2 (proj2 (representatives_spec df [])) _ Hr) as [[]|H].
  apply in_map_iff in H. destruct H as [rep [Heq Hrep]].
  exists rep. split; [exact Hrep|].
  apply keys_follow_positions; auto using representatives_in_df.
Qed.

Lemma removed_labels (i : Z) (r : oriented) :
  In (i, r) df ->
  existsb (Z.eqb i) (flat_map (group_removed df) R)
  = negb (i =? group_min df r).
Proof.
  intros Hin. destruct (i =? group_min df r) eqn:Hmin; simpl.
  - apply not_true_is_false. intros H.
    apply existsb_exists in H. destruct H as [j [Hj Heq]].
    apply Z.eqb_eq in Heq. subst j.
    apply in_flat_map in Hj. destruct Hj as [rep [Hrep Hj]].
    unfold group_removed in Hj. apply filter_In in Hj. destruct Hj as [Hidx Hneq].
    unfold index in Hidx. apply in_map_iff in Hidx.
    destruct Hidx as [[i' r'] [Hi' Hg]]. simpl in Hi'. subst i'.
    apply filter_In in Hg. destruct Hg as [Hdf Hsame]. simpl in Hsame.
    assert (r' = r) by (eapply NoDup_index_unique; eauto). subst r'.
    apply same_positions_iff in Hsame.
    rewrite (group_min_ext df r rep Hsame) in Hmin.
    rewrite Hmin in Hneq. discriminate.
  - destruct (representatives_cover (i, r) Hin) as [rep [Hrep Hpos]]. simpl in Hpos.
    apply existsb_exists. exists i. split; [|apply Z.eqb_refl].
    apply in_flat_map. exists rep. split; [exact Hrep|].
    unfold group_removed. apply filter_In. split.
    + unfold index. apply in_map_iff. exists (i, r). split; [reflexivity|].
      apply filter_In. split; [exact Hin|]. simpl.
      apply same_positions_iff. now symmetry.
    + rewrite (group_min_ext df rep r Hpos), Hmin. reflexivity.
Qed.

Lemma drop_removed :
  drop (flat_map (group_removed df) R) df = kept_rows df.
Proof.
  unfold drop, kept_rows. apply filter_ext_in. intros [i r] Hin. simpl.
  rewrite (removed_labels i r Hin). now rewrite negb_involutive.
Qed.

Lemma group_min_in_group (rep : oriented) :
  In rep (rows df) -> In (group_min df rep) (index (group df rep)).
Proof.
  intros H. unfold rows in H. apply in_map_iff in H. destruct H as [[i r] [Hr Hin]].
  simpl in Hr. subst r.
  assert (Hg : In (i, rep) (group df rep)).
  { apply filter_In. split; [exact Hin | apply same_positions_refl]. }
  unfold group_min. destruct (group df rep) as [|[j r] rest]; [destruct Hg|].
  apply (idxmin_from_in rest j (distance r)).
Qed.

Lemma kept_length : length (kept_rows df) = length R.
Proof.
  unfold kept_rows.
  rewrite (count_by_group (fun ir => positions (snd ir)) _ (map positions R) df
             representatives_positions_distinct).
  - rewrite map_map.
    rewrite (list_sum_map_const _ R 1%nat); [lia|].
    intros rep Hrep. rewrite group_term.
    rewrite (filter_ext_in _ (fun ir => fst ir =? group_min df rep)).
    + apply one_row_per_label.
      * now apply NoDup_index_filter.
      * apply group_min_in_group. now apply representatives_in_df.
    + intros [i r] Hin. simpl. apply filter_In in Hin. destruct Hin as [_ Hsame].
      simpl in Hsame. apply same_positions_iff in Hsame.
      now rewrite (group_min_ext df r rep Hsame).
  - intros ir Hin. destruct (representatives_cover ir Hin) as [rep [Hrep Hpos]].
    rewrite <- Hpos. now apply in_map.
Qed.

Lemma groups_total :
  list_sum (map (fun rep => length (group df rep)) R) = length df.
Proof.
  transitivity (length (filter (fun _ : Z * oriented => true) df));
    [|now rewrite filter_all].
  rewrite (count_by_group (fun ir => positions (snd ir)) _ (map positions R) df
             representatives_positions_distinct).
  - rewrite map_map. f_equal. apply map_ext. intros rep.
    pose proof (group_term df (fun _ => true) rep) as E. cbv beta in E.
    now rewrite E, filter_all.
  - intros ir Hin. destruct (representatives_cover ir Hin) as [rep [Hrep Hpos]].
    rewrite <- Hpos. now apply in_map.
Qed.

Lemma kept_positions_distinct :
  NoDup (map (fun ir => positions (snd ir)) (kept_rows df)).
Proof.
  apply (NoDup_map_dependent fst).
  - exact (NoDup_index_filter (fun ir => fst ir =? group_min df (snd ir)) df
             labels_distinct).
  - intros [i r] [j r'] Hx Hy Hpos. simpl in *.
    apply filter_In in Hx, Hy. destruct Hx as [_ Hx], Hy as [_ Hy]. simpl in *.
    apply Z.eqb_eq in Hx, Hy. rewrite Hx, Hy. now apply group_min_ext.
Qed.

End ReducerKept.

(** ** Reduction to residue contacts: the returned table *)

Section ReducerOutput.

Lemma key_consistentb_sound (df : frame oriented) :
  key_consistentb df = true -> key_consistent df.
Proof.
  unfold key_consistentb, key_consistent. intros H r1 r2 H1 H2.
  rewrite forallb_forall in H. specialize (H r1 H1).
  rewrite forallb_forall in H. specialize (H r2 H2).
  apply Bool.eqb_prop in H.
  rewrite <- String.eqb_eq, <- positions_eqb_eq, H. tauto.
Qed.

Lemma insert_sorted_perm (x : Z * reduced) (l : frame reduced) :
  Permutation (insert_sorted x l) (x :: l).
Proof.
  induction l as [|y l IH]; simpl.
  - apply Permutation_refl.
  - destruct (ordinate_position (base (snd x)) <=? ordinate_position (base (snd y))).
    + apply Permutation_refl.
    + eapply perm_trans; [apply perm_skip, IH | apply perm_swap].
Qed.

Lemma sort_values_perm (l : frame reduced) : Permutation (sort_values l) l.
Proof.
  induction l as [|x l IH]; simpl.
  - constructor.
  - eapply perm_trans; [apply insert_sorted_perm | now apply perm_skip].
Qed.

Lemma sum_atoms_contacts_perm (l l' : frame reduced) :
  Permutation l l' -> sum_atoms_contacts l = sum_atoms_contacts l'.
Proof.
  induction 1; simpl; lia.
Qed.

Lemma insert_sorted_sorted (x : Z * reduced) (l : frame reduced) :
  Sorted (fun a b => ordinate_position (base (snd a)) <= ordinate_position (base (snd b))) l ->
  Sorted (fun a b => ordinate_position (base (snd a)) <= ordinate_position (base (snd b)))
    (insert_sorted x l).
Proof.
  induction l as [|y l IH]; simpl; intros Hs.
  - repeat constructor.
  - destruct (ordinate_position (base (snd x)) <=? ordinate_position (base (snd y))) eqn:E.
    + apply Z.leb_le in E. constructor; [exact Hs | now constructor].
    + apply Z.leb_gt in E. inversion Hs as [|? ? Hs' Hhd]; subst.
      constructor; [now apply IH|].
      destruct l as [|z l]; simpl.
      * constructor. lia.
      * destruct (ordinate_position (base (snd x)) <=? ordinate_position (base (snd z))).
        -- constructor. lia.
        -- inversion Hhd; subst. now constructor.
Qed.

Lemma sort_values_sorted (l : frame reduced) :
  Sorted (fun a b => ordinate_position (base (snd a)) <= ordinate_position (base (snd b)))
    (sort_values l).
Proof.
  induction l as [|x l IH]; simpl; [constructor | now apply insert_sorted_sorted].
Qed.

Lemma set_atoms_contacts_ok (df : frame oriented) (values : list Z) :
  length values = length df ->
  exists df1, set_atoms_contacts df values = Ok df1
    /\ map (fun ir => (fst ir, base (snd ir))) df1 = df
    /\ map (fun ir => atoms_contacts (snd ir)) df1 = values.
Proof.
  intros Hlen. unfold set_atoms_contacts.
  rewrite (proj2 (Nat.eqb_eq _ _) Hlen).
  eexists. split; [reflexivity|].
  revert values Hlen. induction df as [|[i r] df IH]; intros [|v values] Hlen;
    simpl in *; try discriminate; auto.
  injection Hlen as Hlen. destruct (IH values Hlen) as [H1 H2].
  now rewrite H1, H2.
Qed.

Lemma sum_atoms_contacts_column (l : frame reduced) :
  sum_atoms_contacts l = sum_Z (map (fun ir => atoms_contacts (snd ir)) l).
Proof.
  induction l as [|x l IH]; simpl; [reflexivity|].
  fold (sum_atoms_contacts l). now rewrite IH.
Qed.

Lemma sum_Z_of_nat {A : Type} (f : A -> nat) (l : list A) :
  sum_Z (map (fun x => Z.of_nat (f x)) l) = Z.of_nat (list_sum (map f l)).
Proof.
  induction l as [|a l IH]; simpl; [reflexivity|].
  fold (sum_Z (map (fun x => Z.of_nat (f x)) l)). rewrite IH. lia.
Qed.

End ReducerOutput.

Lemma kept_rows_cover (df : frame oriented) (r : oriented) :
  In r (rows df) ->
  exists y, In y (kept_rows df) /\ positions (snd y) = positions r.
Proof.
  intros Hr. pose proof (group_min_in_group df r Hr) as H.
  unfold index in H. apply in_map_iff in H. destruct H as [[j r'] [Hj Hg]].
  simpl in Hj. subst j. apply filter_In in Hg. destruct Hg as [Hdf Hsame].
  cbn [snd] in Hsame. apply same_positions_iff in Hsame.
  exists (group_min df r, r'). split; [|exact Hsame].
  apply filter_In. split; [exact Hdf|]. cbn [fst snd].
  apply Z.eqb_eq. now apply group_min_ext.
Qed.

(** C1 (as amended): on a table with distinct index labels in which two rows
    have the same key exactly when they have the same positions,
    [get_residues_in_contact] returns a table with one row for each
    (ordinate position, abscissa position) of the table given, in that
    order: no two rows have the same ordered pair, every pair of the table
    given is the pair of a row and conversely, and the "atoms contacts" add
    up to the number of input rows.  The order counts: when the table has a
    row for (p, q) and a row for (q, p), with p <> q, two different rows are
    returned, one for each. *)
Theorem get_residues_in_contact_ordered_pairs (df : frame oriented) :
  NoDup (index df) ->
  key_consistent df ->
  exists out,
    get_residues_in_contact df = Ok out
    /\ NoDup (map (fun ir => positions (base (snd ir))) out)
    /\ sum_atoms_contacts out = Z.of_nat (length df)
    /\ (forall p, In p (map (fun ir => positions (base (snd ir))) out)
                  <-> In p (map positions (rows df)))
    /\ (forall r1 r2,
          In r1 (rows df) -> In r2 (rows df) ->
          positions r2 = swap_positions (positions r1) ->
          ordinate_position r1 <> abscissa_position r1 ->
          exists o1 o2,
            In o1 out /\ In o2 out /\ o1 <> o2
            /\ positions (base (snd o1)) = positions r1
            /\ positions (base (snd o2)) = swap_positions (positions r1)).
Proof.
  intros Hnd Hkey. unfold get_residues_in_contact.
  rewrite (reducer_loop df df) by apply incl_refl.
  cbn [bind combinations idx_to_remove combinations_nb_contacts app].
  rewrite (drop_removed df Hnd Hkey).
  destruct (set_atoms_contacts_ok (kept_rows df)
              (map (fun row => Z.of_nat (length (group df row))) (representatives [] df)))
    as (df1 & Hset & Hbase & Hcol).
  { rewrite length_map. symmetry. now apply kept_length. }
  rewrite Hset. cbn [bind]. exists (sort_values df1).
  assert (Hpairs : forall p,
             In p (map (fun ir => positions (base (snd ir))) (sort_values df1))
             <-> In p (map positions (rows df))).
  { intros p.
    assert (E : map (fun ir => positions (base (snd ir))) df1
                = map (fun ir => positions (snd ir)) (kept_rows df))
      by (rewrite <- Hbase, map_map; reflexivity).
    split.
    - intros H.
      apply (Permutation_in _ (Permutation_map _ (sort_values_perm df1))) in H.
      rewrite E in H. apply in_map_iff in H. destruct H as [[i r] [<- Hin]].
      apply filter_In in Hin. destruct Hin as [Hin _]. cbn [snd].
      apply in_map. unfold rows. now apply (in_map snd) in Hin.
    - intros H. apply in_map_iff in H. destruct H as [r [<- Hr]].
      destruct (kept_rows_cover df r Hr) as [y [Hy Hp]].
      apply (Permutation_in _
               (Permutation_sym (Permutation_map _ (sort_values_perm df1)))).
      rewrite E, <- Hp.
      now apply (in_map (fun ir => positions (snd ir))). }
  split; [reflexivity|]. split; [|split; [|split; [exact Hpairs|]]].
  - apply (Permutation_NoDup (l := map (fun ir => positions (base (snd ir))) df1)).
    + apply Permutation_map, Permutation_sym, sort_values_perm.
    + pose proof (kept_positions_distinct df Hnd) as H.
      rewrite <- Hbase in H at 1. rewrite map_map in H. exact H.
  - rewrite (sum_atoms_contacts_perm _ _ (sort_values_perm df1)).
    rewrite sum_atoms_contacts_column, Hcol.
    rewrite (sum_Z_of_nat (fun row => length (group df row))).
    now rewrite (groups_total df Hkey).
  - intros r1 r2 H1 H2 Hswap Hne.
    assert (G : forall r, In r (rows df) ->
               exists o, In o (sort_values df1)
                         /\ positions (base (snd o)) = positions r).
    { intros r Hr. assert (H : In (positions r) (map positions (rows df)))
        by now apply in_map.
      apply Hpairs in H. apply in_map_iff in H. destruct H as [o [Ho Hin]].
      now exists o. }
    destruct (G r1 H1) as [o1 [Ho1 Hp1]]. destruct (G r2 H2) as [o2 [Ho2 Hp2]].
    exists o1, o2. repeat split; auto; [|now rewrite Hp2].
    intros ->. rewrite Hp2, Hswap in Hp1. unfold swap_positions, positions in Hp1.
    cbn [fst snd] in Hp1. injection Hp1 as Ha Hb. congruence.
Qed.

(** ** Reduction to residue contacts: the row kept in a group *)

Section ReducerClosest.

Lemma lt_distance_true (a b : Qc) : lt_distance a b = true -> (a < b)%Qc.
Proof.
  unfold lt_distance. intros H. apply Qclt_alt.
  destruct (a ?= b)%Qc; [discriminate | reflexivity | discriminate].
Qed.

Lemma lt_distance_false (a b : Qc) : lt_distance a b = false -> (b <= a)%Qc.
Proof.
  unfold lt_distance. intros H. apply Qcge_alt.
  destruct (a ?= b)%Qc; [discriminate | discriminate | discriminate].
Qed.

Lemma idxmin_from_first (rest : frame oriented) :
  forall (l1 l2 : frame oriented) (b : Z) (rb : oriented),
    (forall y, In y l1 -> (distance rb < distance (snd y))%Qc) ->
    (forall y, In y l2 -> (distance rb <= distance (snd y))%Qc) ->
    exists r,
      first_closest (idxmin_from b (distance rb) rest, r)
        (l1 ++ (b, rb) :: l2 ++ rest).
Proof.
  induction rest as [|[i r] rest IH]; intros l1 l2 b rb H1 H2.
  - exists rb. exists l1, l2. rewrite app_nil_r. auto.
  - cbn [idxmin_from].
    destruct (lt_distance (distance r) (distance rb)) eqn:E.
    + apply lt_distance_true in E.
      destruct (IH (l1 ++ (b, rb) :: l2) [] i r) as [r' Hr'].
      * intros y Hy. apply in_app_or in Hy. destruct Hy as [Hy|[<-|Hy]].
        -- eapply Qclt_trans; [exact E | now apply H1].
        -- exact E.
        -- eapply Qclt_le_trans; [exact E | now apply H2].
      * intros y [].
      * exists r'. rewrite <- app_assoc in Hr'. exact Hr'.
    + apply lt_distance_false in E.
      destruct (IH l1 (l2 ++ [(i, r)]) b rb H1) as [r' Hr'].
      * intros y Hy. apply in_app_or in Hy. destruct Hy as [Hy|[<-|[]]].
        -- now apply H2.
        -- exact E.
      * exists r'. rewrite <- app_assoc in Hr'. exact Hr'.
Qed.

Lemma group_min_first (df : frame oriented) (i : Z) (row : oriented) :
  In (i, row) df ->
  exists r, first_closest (group_min df row, r) (group df row).
Proof.
  intros Hin.
  assert (Hg : In (i, row) (group df row)).
  { apply filter_In. split; [exact Hin | apply same_positions_refl]. }
  unfold group_min. destruct (group df row) as [|[j r0] rest]; [destruct Hg|].
  apply (idxmin_from_first rest [] [] j r0); intros y [].
Qed.

Lemma kept_rows_first_closest (df : frame oriented) (x : Z * oriented) :
  NoDup (index df) ->
  In x (kept_rows df) -> first_closest x (group df (snd x)).
Proof.
  intros Hnd Hx. destruct x as [i r]. apply filter_In in Hx.
  destruct Hx as [Hin Hmin]. cbn [fst snd] in *. apply Z.eqb_eq in Hmin.
  destruct (group_min_first df i r Hin) as [r' Hr']. rewrite <- Hmin in Hr'.
  assert (Hin' : In (i, r') (group df r)).
  { destruct Hr' as (l1 & l2 & E & _). rewrite E. apply in_or_app. right. now left. }
  apply filter_In in Hin'. destruct Hin' as [Hin' _].
  assert (Heq : r' = r) by (eapply NoDup_index_unique; eauto).
  subst r'. exact Hr'.
Qed.

(** X9: the rows of the reduced table, their counts apart: on a table with
    distinct labels whose keys follow the positions, the rows returned are,
    up to their "atoms contacts" entry, the first closest row of each group
    of rows with the same positions, sorted by ordinate position. *)
Lemma get_residues_in_contact_keeps_closest (df : frame oriented) :
  NoDup (index df) ->
  key_consistent df ->
  exists out,
    get_residues_in_contact df = Ok out
    /\ Sorted (fun a b => ordinate_position (base (snd a))
                          <= ordinate_position (base (snd b))) out
    /\ Permutation (map (fun ir => (fst ir, base (snd ir))) out) (kept_rows df)
    /\ (forall x, In x (kept_rows df) -> first_closest x (group df (snd x)))
    /\ (forall x, In x df ->
          exists y, In y (kept_rows df) /\ positions (snd y) = positions (snd x)).
Proof.
  intros Hnd Hkey. unfold get_residues_in_contact.
  rewrite (reducer_loop df df) by apply incl_refl.
  cbn [bind combinations idx_to_remove combinations_nb_contacts app].
  rewrite (drop_removed df Hnd Hkey).
  destruct (set_atoms_contacts_ok (kept_rows df)
              (map (fun row => Z.of_nat (length (group df row))) (representatives [] df)))
    as (df1 & Hset & Hbase & _).
  { rewrite length_map. symmetry. now apply kept_length. }
  rewrite Hset. cbn [bind]. exists (sort_values df1).
  split; [reflexivity|]. split; [apply sort_values_sorted|]. split; [|split].
  - rewrite <- Hbase. apply Permutation_map, sort_values_perm.
  - intros x Hx. now apply kept_rows_first_closest.
  - intros [i r] Hin.
    destruct (group_min_first df i r Hin) as [r' (l1 & l2 & E & _)].
    assert (Hg : In (group_min df r, r') (group df r)).
    { rewrite E. apply in_or_app. right. now left. }
    apply filter_In in Hg. destruct Hg as [Hdf Hsame]. cbn [snd] in Hsame.
    apply same_positions_iff in Hsame.
    exists (group_min df r, r'). split; [|exact Hsame].
    apply filter_In. split; [exact Hdf|]. cbn [fst snd].
    apply Z.eqb_eq. now apply group_min_ext.
Qed.

End ReducerClosest.

(** ** Index labels along the pipeline

    The tables that reach the reducer and the outlier filter have distinct
    index labels: the contacts are read on a range index, the selection for a
    region of interest keeps each label at most once, and the reducer only
    removes and reorders rows. *)

Section IndexLabels.

Lemma range_index_distinct {A : Type} (l : list A) : NoDup (index (range_index l)).
Proof.
  rewrite index_range_index.
  apply Finite.Injective_map_NoDup; [exact Nat2Z.inj | apply seq_NoDup].
Qed.

Lemma drop_duplicates_incl (df : frame contact) (x : Z * contact) :
  In x (drop_duplicates df) -> In x df.
Proof.
  induction df as [|[i a] l IH]; [trivial|].
  cbn [drop_duplicates]. intros [H|H]; [now left|].
  apply filter_In in H. right. now apply IH.
Qed.

Lemma roi_select_index_distinct (roi : option (Z * Z)) (df : frame contact) :
  NoDup (index df) -> NoDup (index (roi_select roi df)).
Proof.
  intros Hnd. destruct roi as [[lo hi]|]; [|exact Hnd].
  cbn [roi_select]. unfold index.
  apply (NoDup_map_dependent snd fst).
  - apply drop_duplicates_distinct.
  - intros [i r] [j r'] Hx Hy Heq. simpl in *. subst j.
    apply drop_duplicates_incl in Hx, Hy.
    assert (Hdf : forall x, In x (filter (fun ir => between (donor_position (snd ir)) lo hi) df
                                  ++ filter (fun ir => between (acceptor_position (snd ir)) lo hi) df)
                            -> In x df).
    { intros x Hin. apply in_app_or in Hin. destruct Hin as [Hin|Hin];
        apply filter_In in Hin; tauto. }
    eapply NoDup_index_unique; eauto.
Qed.

Lemma oriented_contacts_index_distinct (roi : option (Z * Z)) (contacts : list contact) :
  NoDup (index (oriented_contacts roi contacts)).
Proof.
  unfold oriented_contacts, index. rewrite map_map. cbn [fst].
  apply (roi_select_index_distinct roi (range_index contacts)).
  apply range_index_distinct.
Qed.

Lemma get_residues_in_contact_index_distinct (df : frame oriented) (out : frame reduced) :
  NoDup (index df) -> get_residues_in_contact df = Ok out -> NoDup (index out).
Proof.
  intros Hnd. unfold get_residues_in_contact.
  rewrite (reducer_loop df df) by apply incl_refl.
  cbn [bind combinations idx_to_remove combinations_nb_contacts app].
  set (labels := flat_map (group_removed df) (representatives [] df)).
  set (values := map (fun row => Z.of_nat (length (group df row))) (representatives [] df)).
  destruct (Nat.eq_dec (length values) (length (drop labels df))) as [Hlen|Hlen].
  - destruct (set_atoms_contacts_ok (drop labels df) values Hlen) as (df1 & Hset & Hbase & _).
    rewrite Hset. cbn [bind]. intros H; injection H as <-.
    apply (Permutation_NoDup (l := index df1)).
    + apply Permutation_map, Permutation_sym, sort_values_perm.
    + assert (E : index df1 = index (drop labels df)).
      { rewrite <- Hbase. unfold index. now rewrite map_map. }
      rewrite E. now apply NoDup_index_filter.
  - unfold set_atoms_contacts. rewrite (proj2 (Nat.eqb_neq _ _) Hlen). discriminate.
Qed.

(** X7: the table that [extract_residues_contacts] returns has no index label
    twice, with or without a region of interest: its rows keep the labels
    they had in the table of atom contacts. *)
Lemma extract_residues_contacts_index_distinct (contacts : list contact)
  (roi : option (Z * Z)) (out : frame reduced) :
  extract_residues_contacts contacts roi = Ok out -> NoDup (index out).
Proof.
  apply get_residues_in_contact_index_distinct, oriented_contacts_index_distinct.
Qed.

End IndexLabels.

(** ** Outliers *)

Section Outliers.

Lemma rows_filter {A : Type} (f : A -> bool) (df : frame A) :
  rows (filter (fun ir => f (snd ir)) df) = filter f (rows df).
Proof.
  unfold rows. induction df as [|a l IH]; simpl; [reflexivity|].
  destruct (f (snd a)); simpl; now rewrite IH.
Qed.

Lemma drop_too_close (df : frame reduced) (t : Z) :
  NoDup (index df) ->
  drop (index (filter (too_close t) df)) df
  = filter (fun ir => far_enough t (snd ir)) df.
Proof.
  intros Hnd. unfold drop. apply filter_ext_in. intros [i r] Hin. cbn [fst snd].
  assert (E : far_enough t r = negb (too_close t (i, r))).
  { unfold far_enough, too_close. cbn [snd]. now rewrite Z.ltb_antisym, negb_involutive. }
  rewrite E. f_equal.
  destruct (too_close t (i, r)) eqn:Hclose.
  - apply existsb_exists. exists i. split; [|apply Z.eqb_refl].
    unfold index. apply in_map_iff. exists (i, r). split; [reflexivity|].
    apply filter_In. now split.
  - apply not_true_is_false. intros H. apply existsb_exists in H.
    destruct H as [j [Hj Heq]]. apply Z.eqb_eq in Heq. subst j.
    unfold index in Hj. apply in_map_iff in Hj. destruct Hj as [[i' r'] [Hi Hf]].
    simpl in Hi. subst i'. apply filter_In in Hf. destruct Hf as [Hin' Hclose'].
    assert (r' = r) by (eapply NoDup_index_unique; eauto). subst r'.
    congruence.
Qed.

Lemma outliers_table_rows (df : frame reduced) (t : Z) :
  NoDup (index df) ->
  rows (outliers_table df t) = filter (far_enough t) (rows df)
  /\ index (outliers_table df t)
     = map Z.of_nat (seq 0 (length (outliers_table df t))).
Proof.
  intros Hnd. unfold outliers_table, reset_index.
  rewrite rows_range_index, index_range_index, (drop_too_close df t Hnd).
  split.
  - apply (rows_filter (far_enough t)).
  - f_equal. f_equal. unfold range_index.
    rewrite length_combine, length_map, length_seq. lia.
Qed.

Lemma far_enough_not_close (t : Z) (ir : Z * reduced) :
  far_enough t (snd ir) = negb (too_close t ir).
Proof.
  unfold far_enough, too_close. now rewrite Z.ltb_antisym, negb_involutive.
Qed.

Lemma dropped_rows_far (df : frame reduced) (t : Z) (ir : Z * reduced) :
  In ir (drop (index (filter (too_close t) df)) df) ->
  In ir df /\ far_enough t (snd ir) = true.
Proof.
  unfold drop. intros H. apply filter_In in H. destruct H as [Hin Hkeep].
  split; [exact Hin|]. rewrite far_enough_not_close.
  destruct (too_close t ir) eqn:E; [|reflexivity]. exfalso.
  apply negb_true_iff in Hkeep. apply not_true_iff_false in Hkeep. apply Hkeep.
  apply existsb_exists. exists (fst ir). split; [|apply Z.eqb_refl].
  unfold index. apply in_map. apply filter_In. now split.
Qed.

End Outliers.

(** C7: on a table with distinct index labels, [outliers_contacts] leaves
    exactly the rows with |ordinate position - abscissa position| >= t, in
    their order, with the index 0, 1, 2, ...; when t <= 0 all rows stay. *)
Theorem outliers_contacts_keeps_far_rows (h : heap) (df : ref)
  (table : frame reduced) (t : Z) :
  h df = Some table ->
  NoDup (index table) ->
  exists h' out,
    outliers_contacts df t h = Ok (df, h')
    /\ h' df = Some out
    /\ rows out = filter (far_enough t) (rows table)
    /\ index out = map Z.of_nat (seq 0 (length out))
    /\ (t <= 0 -> rows out = rows table).
Proof.
  intros Hdf Hnd. unfold outliers_contacts. rewrite Hdf.
  eexists. exists (outliers_table table t). split; [reflexivity|].
  destruct (outliers_table_rows table t Hnd) as [Hrows Hidx].
  split; [|split; [exact Hrows | split; [exact Hidx|]]].
  - unfold heap_set. now rewrite Nat.eqb_refl.
  - intros Ht. rewrite Hrows.
    rewrite (filter_ext (far_enough t) (fun _ => true)); [apply filter_all|].
    intros r. unfold far_enough. apply Z.leb_le. lia.
Qed.

(** C9 (as amended): [outliers_contacts] changes the table it is given.  It
    returns the reference it received; the table behind that reference,
    which is the table of the caller, now holds only rows of the former
    table that pass the threshold, under the index 0, 1, 2, ...: a row below
    the threshold is no longer in it, and if there was one the table is not
    what it was.  Every other table is untouched. *)
Theorem outliers_contacts_in_place (h : heap) (df : ref)
  (table : frame reduced) (t : Z) :
  h df = Some table ->
  exists h' out,
    outliers_contacts df t h = Ok (df, h')
    /\ h' df = Some out
    /\ (forall r, In r (rows out) -> In r (rows table) /\ far_enough t r = true)
    /\ (forall r, far_enough t r = false -> ~ In r (rows out))
    /\ index out = map Z.of_nat (seq 0 (length out))
    /\ ((exists r, In r (rows table) /\ far_enough t r = false) ->
        h' df <> Some table)
    /\ (forall other, other <> df -> h' other = h other).
Proof.
  intros Hdf. unfold outliers_contacts. rewrite Hdf.
  set (dropped := drop (index (filter (too_close t) table)) table).
  exists (heap_set (heap_set h df dropped) df (reset_index dropped)).
  exists (reset_index dropped).
  assert (Hset : heap_set (heap_set h df dropped) df (reset_index dropped) df
                 = Some (reset_index dropped))
    by (unfold heap_set; now rewrite Nat.eqb_refl).
  assert (Hfar : forall r, In r (rows (reset_index dropped)) ->
                   In r (rows table) /\ far_enough t r = true).
  { intros r Hr. unfold reset_index in Hr. rewrite rows_range_index in Hr.
    unfold rows in Hr. apply in_map_iff in Hr. destruct Hr as [ir [<- Hin]].
    apply dropped_rows_far in Hin. destruct Hin as [Hin Hf].
    split; [now apply (in_map snd) | exact Hf]. }
  split; [reflexivity|]. split; [exact Hset|]. split; [exact Hfar|].
  split; [|split; [|split]].
  - intros r Hr Hin. apply Hfar in Hin. destruct Hin as [_ Hin]. congruence.
  - unfold reset_index. rewrite index_range_index. f_equal. f_equal.
    unfold range_index. rewrite length_combine, length_map, length_seq. lia.
  - intros [r [Hr Hclose]]. rewrite Hset. intros E. injection E as E.
    rewrite <- E in Hr. apply Hfar in Hr. destruct Hr as [_ Hr]. congruence.
  - intros other Hne. unfold heap_set.
    now rewrite (proj2 (Nat.eqb_neq other df) Hne).
Qed.

(** ** Domain annotation *)

Section Annotation.

Lemma set_nth_middle {A : Type} (l1 l2 : list A) (a v : A) :
  set_nth (length l1) v (l1 ++ a :: l2) = l1 ++ v :: l2.
Proof. induction l1 as [|b l1 IH]; simpl; [reflexivity | now rewrite IH]. Qed.

Lemma list_setitem_middle {A : Type} (l1 l2 : list A) (a v : A) :
  list_setitem (l1 ++ a :: l2) (Z.of_nat (length l1)) v = Ok (l1 ++ v :: l2).
Proof.
  unfold list_setitem.
  replace (Z.of_nat (length l1) <? 0) with false by (symmetry; apply Z.ltb_ge; lia).
  replace (0 <=? Z.of_nat (length l1)) with true by (symmetry; apply Z.leb_le; lia).
  replace (Z.of_nat (length l1) <? Z.of_nat (length (l1 ++ a :: l2))) with true.
  - simpl. now rewrite Nat2Z.id, set_nth_middle.
  - symmetry. apply Z.ltb_lt. rewrite length_app. simpl. lia.
Qed.

Lemma pick_last_match (domains : list domain) (x : Z) :
  pick domains x None = last_match domains x.
Proof.
  unfold pick, last_match.
  induction domains as [|d l IH] using rev_ind; [reflexivity|].
  rewrite fold_left_app, rev_app_distr. simpl.
  destruct (covers x d); [reflexivity | exact IH].
Qed.

(** The inner loop of [update_domains] on the row at position
    [length pre_d]. *)
Lemma inner_loop (row : reduced) (domains : list domain) :
  forall (pre_d post_d pre_a post_a : list (option string)) (vd va : option string),
    length pre_a = length pre_d ->
    for_each (update_domains_step (Z.of_nat (length pre_d)) row) domains
      (pre_d ++ vd :: post_d, pre_a ++ va :: post_a)
    = Ok (pre_d ++ pick domains (ordinate_position (base row)) vd :: post_d,
          pre_a ++ pick domains (abscissa_position (base row)) va :: post_a).
Proof.
  induction domains as [|d l IH]; intros pre_d post_d pre_a post_a vd va Hlen.
  - reflexivity.
  - cbn [for_each]. unfold update_domains_step at 1.
    fold (covers (ordinate_position (base row)) d).
    fold (covers (abscissa_position (base row)) d).
    unfold pick. cbn [fold_left].
    fold (pick l (ordinate_position (base row))).
    fold (pick l (abscissa_position (base row))).
    destruct (covers (ordinate_position (base row)) d);
      destruct (covers (abscissa_position (base row)) d);
      rewrite ?list_setitem_middle; cbn [bind];
      rewrite <- ?Hlen, ?list_setitem_middle; cbn [bind];
      rewrite ?Hlen; now apply IH.
Qed.

Lemma outer_loop (domains : list domain) (suf : frame reduced) :
  forall pre_d pre_a : list (option string),
    length pre_a = length pre_d ->
    index suf = map Z.of_nat (seq (length pre_d) (length suf)) ->
    for_each (fun regions ir =>
                for_each (update_domains_step (fst ir) (snd ir)) domains regions)
      suf (pre_d ++ repeat None (length suf), pre_a ++ repeat None (length suf))
    = Ok (pre_d ++ map (fun r => last_match domains (ordinate_position (base r))) (rows suf),
          pre_a ++ map (fun r => last_match domains (abscissa_position (base r))) (rows suf)).
Proof.
  induction suf as [|[i r] suf IH]; intros pre_d pre_a Hlen Hidx.
  - reflexivity.
  - simpl in Hidx. injection Hidx as Hi Hidx. subst i.
    cbn [for_each length repeat fst snd rows map].
    rewrite (inner_loop r domains pre_d _ pre_a _ None None Hlen). cbn [bind].
    rewrite !pick_last_match.
    specialize (IH (pre_d ++ [last_match domains (ordinate_position (base r))])
                   (pre_a ++ [last_match domains (abscissa_position (base r))])).
    rewrite <- !app_assoc in IH. cbn [app] in IH.
    apply IH.
    + rewrite !length_app. simpl. lia.
    + rewrite length_app. simpl. rewrite Nat.add_1_r. exact Hidx.
Qed.

Lemma aligned_middle (l1 l2 : list (option string)) (v : option string) :
  aligned (l1 ++ v :: l2) (Z.of_nat (length l1)) = v.
Proof.
  unfold aligned.
  replace (0 <=? Z.of_nat (length l1)) with true by (symmetry; apply Z.leb_le; lia).
  replace (Z.of_nat (length l1) <? Z.of_nat (length (l1 ++ v :: l2))) with true.
  - simpl. rewrite Nat2Z.id. apply nth_middle.
  - symmetry. apply Z.ltb_lt. rewrite length_app. simpl. lia.
Qed.

Lemma aligned_columns (f g : reduced -> option string) (suf : frame reduced) :
  forall pre_d pre_a : list (option string),
    length pre_a = length pre_d ->
    index suf = map Z.of_nat (seq (length pre_d) (length suf)) ->
    map (fun ir =>
           (fst ir,
            mk_annotated (snd ir)
              (aligned (pre_d ++ map f (rows suf)) (fst ir))
              (aligned (pre_a ++ map g (rows suf)) (fst ir)))) suf
    = map (fun ir => (fst ir, mk_annotated (snd ir) (f (snd ir)) (g (snd ir)))) suf.
Proof.
  induction suf as [|[i r] suf IH]; intros pre_d pre_a Hlen Hidx.
  - reflexivity.
  - simpl in Hidx. injection Hidx as Hi Hidx. subst i.
    cbn [rows map fst snd]. f_equal.
    + rewrite aligned_middle. rewrite <- Hlen, aligned_middle. reflexivity.
    + specialize (IH (pre_d ++ [f r]) (pre_a ++ [g r])).
      rewrite <- !app_assoc in IH. cbn [app] in IH. apply IH.
      * rewrite !length_app. simpl. lia.
      * rewrite length_app. simpl. rewrite Nat.add_1_r. exact Hidx.
Qed.

End Annotation.

Lemma update_domains_annotates (df : frame reduced) (domains : list domain) :
  df <> [] ->
  index df = map Z.of_nat (seq 0 (length df)) ->
  update_domains df domains
  = Ok (map (fun ir =>
               (fst ir,
                mk_annotated (snd ir)
                  (last_match domains (ordinate_position (base (snd ir))))
                  (last_match domains (abscissa_position (base (snd ir))))))
            df).
Proof.
  intros Hne Hidx. unfold update_domains.
  pose proof (outer_loop domains df [] [] eq_refl Hidx) as Hloop.
  cbn [app] in Hloop. rewrite Hloop. cbn [bind fst snd].
  pose proof (aligned_columns
                (fun r => last_match domains (ordinate_position (base r)))
                (fun r => last_match domains (abscissa_position (base r)))
                df [] [] eq_refl Hidx) as Hal.
  cbn [app] in Hal.
  destruct df as [|ir rest]; [now elim Hne|].
  cbn [rows map only_column bind]. apply f_equal. exact Hal.
Qed.

Lemma update_domains_empty (domains : list domain) :
  update_domains [] domains = Raise IndexError.
Proof. reflexivity. Qed.

(** C5 (as amended): on a table with at least one row and the index
    0, 1, 2, ..., [update_domains] gives each side of each row the name of the
    last interval, in the order of the domains table, that contains the
    position of that side, and leaves the entry unset when no interval
    does. *)
Theorem update_domains_last_match (df : frame reduced) (domains : list domain) :
  df <> [] ->
  index df = map Z.of_nat (seq 0 (length df)) ->
  update_domains df domains
  = Ok (map (fun ir =>
               (fst ir,
                mk_annotated (snd ir)
                  (last_match domains (ordinate_position (base (snd ir))))
                  (last_match domains (abscissa_position (base (snd ir))))))
            df).
Proof. apply update_domains_annotates. Qed.

(** ** Contacts by domain *)

Section DomainsInvolved.

Lemma dict_get_set_same (k : string) (v : Z) (d : dict) :
  dict_get k (dict_set k v d) = Some v.
Proof.
  induction d as [|[k' v'] d IH]; simpl.
  - now rewrite String.eqb_refl.
  - destruct (String.eqb k k') eqn:E; simpl.
    + now rewrite String.eqb_refl.
    + now rewrite E.
Qed.

Lemma dict_get_set_other (k k' : string) (v : Z) (d : dict) :
  k <> k' -> dict_get k (dict_set k' v d) = dict_get k d.
Proof.
  intros Hne. induction d as [|[k2 v2] d IH]; simpl.
  - now rewrite (proj2 (String.eqb_neq k k') Hne).
  - destruct (String.eqb k' k2) eqn:E; simpl.
    + apply String.eqb_eq in E. subst k2.
      now rewrite (proj2 (String.eqb_neq k k') Hne).
    + destruct (String.eqb k k2); [reflexivity | exact IH].
Qed.

Lemma dict_get_add_other (k k' : string) (v : Z) (d : dict) :
  k <> k' -> dict_get k (dict_add k' v d) = dict_get k d.
Proof.
  intros Hne. unfold dict_add.
  destruct (dict_get k' d); [now apply dict_get_set_other | reflexivity].
Qed.

Lemma dict_get_add_same (k : string) (v : Z) (d : dict) :
  dict_get k (dict_add k v d) = option_map (fun old => old + v) (dict_get k d).
Proof.
  unfold dict_add. destruct (dict_get k d) eqn:E; simpl.
  - apply dict_get_set_same.
  - exact E.
Qed.

Lemma add_rows_same (k : string) (tmp : frame annotated) : forall d,
  dict_get k
    (fold_left (fun d row_tmp =>
                  dict_add k (atoms_contacts (reduced_row (snd row_tmp))) d) tmp d)
  = option_map (fun old => old + total_contacts tmp) (dict_get k d).
Proof.
  induction tmp as [|a tmp IH]; intros d; simpl.
  - destruct (dict_get k d); simpl; [f_equal; lia | reflexivity].
  - rewrite IH, dict_get_add_same. fold (total_contacts tmp).
    destruct (dict_get k d); simpl; [f_equal; lia | reflexivity].
Qed.

Lemma add_rows_other (k k' : string) (tmp : frame annotated) : forall d,
  k <> k' ->
  dict_get k
    (fold_left (fun d row_tmp =>
                  dict_add k' (atoms_contacts (reduced_row (snd row_tmp))) d) tmp d)
  = dict_get k d.
Proof.
  induction tmp as [|a tmp IH]; intros d Hne; simpl.
  - reflexivity.
  - rewrite IH by assumption. now apply dict_get_add_other.
Qed.

Lemma step_same (df : frame annotated) (data : dict) (d : domain) :
  dict_get (domain_name d) (domains_involved_step df data d)
  = match abscissa_rows df (domain_name d) with
    | [] => dict_get (domain_name d) data
    | _ => Some (or_zero (dict_get (domain_name d) data)
                 + abscissa_total df (domain_name d))
    end.
Proof.
  unfold domains_involved_step, abscissa_total.
  fold (abscissa_rows df (domain_name d)).
  destruct (abscissa_rows df (domain_name d)) as [|a tmp] eqn:E; [reflexivity|].
  rewrite add_rows_same. fold (total_contacts (a :: tmp)).
  destruct (dict_get (domain_name d) data) eqn:G; simpl.
  - rewrite G. reflexivity.
  - rewrite dict_get_set_same. reflexivity.
Qed.

Lemma step_other (df : frame annotated) (data : dict) (d : domain) (name : string) :
  name <> domain_name d ->
  dict_get name (domains_involved_step df data d) = dict_get name data.
Proof.
  intros Hne. unfold domains_involved_step.
  match goal with |- context [match ?t with [] => _ | _ :: _ => _ end] =>
    destruct t as [|a tmp] end; [reflexivity|].
  rewrite add_rows_other by assumption.
  destruct (dict_get (domain_name d) data); [reflexivity|].
  now apply dict_get_set_other.
Qed.

Lemma involved_loop (df : frame annotated) (name : string) (domains : list domain) :
  forall data,
    dict_get name (fold_left (domains_involved_step df) domains data)
    = match abscissa_rows df name, name_count domains name with
      | _ :: _, S _ =>
          Some (or_zero (dict_get name data)
                + Z.of_nat (name_count domains name) * abscissa_total df name)
      | _, _ => dict_get name data
      end.
Proof.
  unfold name_count.
  induction domains as [|d l IH]; intros data.
  - simpl. now destruct (abscissa_rows df name).
  - cbn [fold_left filter]. rewrite IH.
    destruct (String.eqb (domain_name d) name) eqn:E.
    + apply String.eqb_eq in E. subst name.
      rewrite step_same.
      destruct (abscissa_rows df (domain_name d)) as [|a tmp]; [reflexivity|].
      cbn [length or_zero].
      destruct (length (filter (fun d0 => String.eqb (domain_name d0) (domain_name d)) l));
        f_equal; lia.
    + assert (Hne : name <> domain_name d).
      { intros ->. rewrite String.eqb_refl in E. discriminate. }
      rewrite (step_other df data d name Hne). reflexivity.
Qed.

End DomainsInvolved.

(** C10: a domain name borne by k >= 1 rows of the domains table is reported
    with k times the total "atoms contacts" of the rows whose abscissa domain
    is that name; the name is left out when there is no such row. *)
Theorem domains_involved_counts_each_interval (df : frame annotated)
  (domains : list domain) (name : string) :
  (1 <= name_count domains name)%nat ->
  dict_get name (acceptors_domains_involved df domains)
  = match abscissa_rows df name with
    | [] => None
    | _ => Some (Z.of_nat (name_count domains name) * abscissa_total df name)
    end.
Proof.
  intros Hk. unfold acceptors_domains_involved. rewrite involved_loop.
  destruct (abscissa_rows df name); [reflexivity|].
  destruct (name_count domains name); [lia | reflexivity].
Qed.

(** ** Distinct values in ascending order *)

Section SortedUnique.

Lemma insert_unique_in (x y : Z) (l : list Z) :
  In y (insert_unique x l) <-> y = x \/ In y l.
Proof.
  induction l as [|a l IH]; simpl.
  - intuition.
  - destruct (x <? a) eqn:E1; [simpl; intuition|].
    destruct (x =? a) eqn:E2.
    + apply Z.eqb_eq in E2. subst a. simpl. intuition.
    + simpl. rewrite IH. intuition.
Qed.

Lemma insert_unique_sorted (x : Z) (l : list Z) :
  StronglySorted Z.lt l -> StronglySorted Z.lt (insert_unique x l).
Proof.
  induction l as [|a l IH]; simpl; intros Hs.
  - repeat constructor.
  - inversion Hs as [|? ? Hs' Hall]; subst.
    destruct (x <? a) eqn:E1.
    + apply Z.ltb_lt in E1. constructor; [exact Hs|].
      constructor; [exact E1|].
      rewrite Forall_forall in *. intros y Hy. specialize (Hall y Hy). lia.
    + destruct (x =? a) eqn:E2; [exact Hs|].
      apply Z.ltb_ge in E1. apply Z.eqb_neq in E2.
      constructor; [now apply IH|].
      rewrite Forall_forall in *. intros y Hy.
      apply insert_unique_in in Hy. destruct Hy as [->|Hy]; [lia | now apply Hall].
Qed.

Lemma sorted_unique_in (l : list Z) (x : Z) : In x (sorted_unique l) <-> In x l.
Proof.
  unfold sorted_unique. induction l as [|a l IH]; simpl; [tauto|].
  rewrite insert_unique_in, IH. intuition.
Qed.

Lemma sorted_unique_sorted (l : list Z) : StronglySorted Z.lt (sorted_unique l).
Proof.
  unfold sorted_unique. induction l as [|a l IH]; simpl; [constructor|].
  now apply insert_unique_sorted.
Qed.

Lemma strictly_sorted_distinct (l : list Z) : StronglySorted Z.lt l -> NoDup l.
Proof.
  induction 1 as [|a l Hs IH Hall]; constructor; [|exact IH].
  intros Hin. rewrite Forall_forall in Hall. specialize (Hall a Hin). lia.
Qed.

Lemma sorted_unique_distinct (l : list Z) : NoDup (sorted_unique l).
Proof. apply strictly_sorted_distinct, sorted_unique_sorted. Qed.

End SortedUnique.

(** ** Unique residue pairs *)

Section UniquePairs.

Variable col : contact -> Qc.

Lemma fold_max_spec (rest : list Qc) : forall x,
  (x <= fold_left max_distance rest x)%Qc
  /\ (forall y, In y rest -> (y <= fold_left max_distance rest x)%Qc)
  /\ In (fold_left max_distance rest x) (x :: rest).
Proof.
  induction rest as [|a rest IH]; intros x; simpl.
  - split; [apply Qcle_refl|]. split; [intros y []|now left].
  - destruct (IH (max_distance x a)) as (H1 & H2 & H3).
    assert (Hx : (x <= max_distance x a)%Qc /\ (a <= max_distance x a)%Qc
                 /\ (max_distance x a = x \/ max_distance x a = a)).
    { unfold max_distance. destruct (lt_distance x a) eqn:E.
      - apply lt_distance_true in E. split; [now apply Qclt_le_weak|].
        split; [apply Qcle_refl | now right].
      - apply lt_distance_false in E. split; [apply Qcle_refl|].
        split; [exact E | now left]. }
    destruct Hx as (Hx1 & Hx2 & Hx3).
    split; [eapply Qcle_trans; eauto|]. split.
    + intros y [<-|Hy]; [eapply Qcle_trans; eauto | now apply H2].
    + destruct H3 as [H3|H3]; [|right; now right].
      rewrite <- H3. destruct Hx3 as [->| ->]; [now left | right; now left].
Qed.

Lemma unique_pair_row_describes (df : frame contact) (d a : Z) :
  pair_group df d a <> [] ->
  exists u,
    unique_pair_row col (filter (fun ir => donor_position (snd ir) =? d) df) d a = Ok u
    /\ describes df col (d, a) u.
Proof.
  intros Hne. unfold unique_pair_row. fold (pair_group df d a).
  destruct (filter (fun ir => donor_position (snd ir) =? d) df) as [|ir0 rest0] eqn:Ed.
  { unfold pair_group in Hne. rewrite Ed in Hne. now elim Hne. }
  cbn [iloc0 bind].
  destruct (pair_group df d a) as [|ir1 rest1] eqn:Eg; [now elim Hne|].
  cbn [iloc0 bind rows map max_of].
  destruct (fold_max_spec (map col (map snd rest1)) (col (snd ir1))) as (H1 & H2 & H3).
  eexists. split; [reflexivity|].
  unfold describes. cbn [fst snd]. rewrite Ed, Eg.
  cbn [pair_of donor_positions acceptor_positions pair_atoms_contacts
         maximum_atoms_distance contacts_ID donor_residues acceptor_residues].
  split; [reflexivity|]. split; [discriminate|]. split; [reflexivity|].
  split; [|split; [|split; [reflexivity|split]]].
  - intros ir [<-|Hin]; [exact H1|].
    apply H2. apply in_map. now apply in_map.
  - destruct H3 as [H3|H3].
    + exists ir1. split; [now left | exact H3].
    + apply in_map_iff in H3. destruct H3 as [r [E H3]].
      apply in_map_iff in H3. destruct H3 as [ir [<- Hin]].
      exists ir. split; [now right | exact E].
  - exists ir0, rest0. split; reflexivity.
  - exists ir1, rest1. split; reflexivity.
Qed.

(** A loop that appends one row for each element of a list. *)
Lemma for_each_append {A B : Type} (f : A -> result B) (P : A -> B -> Prop)
  (l : list A) : forall made,
  (forall x, In x l -> exists y, f x = Ok y /\ P x y) ->
  exists ys,
    for_each (fun made' x => row <- f x ;; Ok (made' ++ [row])) l made
    = Ok (made ++ ys)
    /\ Forall2 P l ys.
Proof.
  induction l as [|x l IH]; intros made H.
  - exists []. rewrite app_nil_r. split; [reflexivity | constructor].
  - destruct (H x (or_introl eq_refl)) as (y & Hy & HP).
    destruct (IH (made ++ [y])) as (ys & Hys & HF).
    { intros z Hz. apply H. now right. }
    exists (y :: ys). cbn [for_each]. rewrite Hy. cbn [bind]. rewrite Hys.
    rewrite <- app_assoc. split; [reflexivity | now constructor].
Qed.

Lemma pair_group_nonempty (df : frame contact) (d a : Z) :
  In a (map acceptor_position
          (rows (filter (fun ir => donor_position (snd ir) =? d) df))) ->
  pair_group df d a <> [].
Proof.
  intros H. apply in_map_iff in H. destruct H as [r [Hr Hin]].
  unfold rows in Hin. apply in_map_iff in Hin. destruct Hin as [ir [E Hin]].
  subst r. intros Hnil.
  assert (Hg : In ir (pair_group df d a)).
  { apply filter_In. split; [exact Hin|]. now apply Z.eqb_eq. }
  rewrite Hnil in Hg. destruct Hg.
Qed.

Lemma donor_block (df : frame contact) (d : Z) (made : list unique_pair) :
  exists ys,
    unique_pairs_of_donor col df made d = Ok (made ++ ys)
    /\ Forall2 (describes df col)
         (map (fun a => (d, a))
            (sorted_unique
               (map acceptor_position
                  (rows (filter (fun ir => donor_position (snd ir) =? d) df)))))
         ys.
Proof.
  unfold unique_pairs_of_donor.
  set (L := sorted_unique _).
  destruct (for_each_append
              (unique_pair_row col (filter (fun ir => donor_position (snd ir) =? d) df) d)
              (fun a u => describes df col (d, a) u) L made) as (ys & Hys & HF).
  { intros a Ha. apply unique_pair_row_describes.
    apply pair_group_nonempty. subst L. apply (proj1 (sorted_unique_in _ _)) in Ha. exact Ha. }
  exists ys. split; [exact Hys|].
  clear Hys. induction HF; simpl; constructor; auto.
Qed.

Lemma donors_loop (df : frame contact) (D : list Z) : forall made,
  exists ys,
    for_each (unique_pairs_of_donor col df) D made = Ok (made ++ ys)
    /\ Forall2 (describes df col)
         (flat_map (fun d =>
                      map (fun a => (d, a))
                        (sorted_unique
                           (map acceptor_position
                              (rows (filter (fun ir => donor_position (snd ir) =? d) df)))))
            D)
         ys.
Proof.
  induction D as [|d D IH]; intros made.
  - exists []. rewrite app_nil_r. split; [reflexivity | constructor].
  - destruct (donor_block df d made) as (ys1 & H1 & F1).
    destruct (IH (made ++ ys1)) as (ys2 & H2 & F2).
    exists (ys1 ++ ys2). cbn [for_each flat_map]. rewrite H1. cbn [bind].
    rewrite H2, <- app_assoc. split; [reflexivity|].
    now apply Forall2_app.
Qed.

Lemma unique_residues_pairs_described (df : frame contact) :
  exists out,
    unique_residues_pairs df col = Ok out
    /\ Forall2 (describes df col) (visited_pairs df) out.
Proof.
  destruct (donors_loop df (sorted_unique (map donor_position (rows df))) [])
    as (ys & H & F).
  exists ys. split; [exact H | exact F].
Qed.

Lemma described_pairs (df : frame contact) (ps : list (Z * Z)) (out : list unique_pair) :
  Forall2 (describes df col) ps out -> map pair_of out = ps.
Proof.
  induction 1 as [|p u ps out Hd _ IH]; simpl; [reflexivity|].
  destruct Hd as [Hp _]. now rewrite Hp, IH.
Qed.

Lemma StronglySorted_app {A : Type} (R : A -> A -> Prop) (l1 l2 : list A) :
  StronglySorted R l1 -> StronglySorted R l2 ->
  (forall x y, In x l1 -> In y l2 -> R x y) ->
  StronglySorted R (l1 ++ l2).
Proof.
  induction l1 as [|a l1 IH]; simpl; intros H1 H2 H; [exact H2|].
  inversion H1 as [|? ? H1' Hall]; subst. constructor.
  - apply IH; auto.
  - apply Forall_app. split; [exact Hall|].
    apply Forall_forall. intros y Hy. apply H; auto.
Qed.

Lemma visited_pairs_sorted (df : frame contact) :
  StronglySorted pair_lt (visited_pairs df).
Proof.
  unfold visited_pairs.
  pose proof (sorted_unique_sorted (map donor_position (rows df))) as HD.
  induction HD as [|d D HD IH Hall]; [constructor|].
  cbn [flat_map]. apply StronglySorted_app.
  - pose proof (sorted_unique_sorted
                  (map acceptor_position
                     (rows (filter (fun ir => donor_position (snd ir) =? d) df)))) as HA.
    induction HA as [|a L HA IHA HallA]; simpl; constructor; [exact IHA|].
    apply Forall_forall. intros p Hp. apply in_map_iff in Hp.
    destruct Hp as [a' [<- Ha']]. right. simpl. split; [reflexivity|].
    rewrite Forall_forall in HallA. now apply HallA.
  - exact IH.
  - intros p q Hp Hq. apply in_map_iff in Hp. destruct Hp as [a [<- _]].
    apply in_flat_map in Hq. destruct Hq as [d' [Hd' Hq]].
    apply in_map_iff in Hq. destruct Hq as [a' [<- _]].
    left. simpl. rewrite Forall_forall in Hall. now apply Hall.
Qed.

Lemma visited_pairs_in (df : frame contact) (d a : Z) :
  In (d, a) (visited_pairs df) <->
  exists ir, In ir df /\ donor_position (snd ir) = d /\ acceptor_position (snd ir) = a.
Proof.
  unfold visited_pairs. rewrite in_flat_map. split.
  - intros [d' [Hd' H]]. apply in_map_iff in H. destruct H as [a' [E Ha']].
    injection E as -> ->. apply (proj1 (sorted_unique_in _ _)) in Ha'.
    apply in_map_iff in Ha'. destruct Ha' as [r [Hr Hin]].
    unfold rows in Hin. apply in_map_iff in Hin. destruct Hin as [ir [E Hin]].
    subst r. apply filter_In in Hin. destruct Hin as [Hin Hd].
    apply Z.eqb_eq in Hd. now exists ir.
  - intros [ir [Hin [Hd Ha]]]. exists d. split.
    + apply sorted_unique_in. rewrite <- Hd. apply in_map.
      unfold rows. now apply in_map.
    + apply in_map_iff. exists a. split; [reflexivity|].
      apply sorted_unique_in. rewrite <- Ha. apply in_map.
      unfold rows. apply in_map. apply filter_In. split; [exact Hin|].
      now apply Z.eqb_eq.
Qed.

Lemma visited_pairs_distinct (df : frame contact) : NoDup (visited_pairs df).
Proof.
  pose proof (visited_pairs_sorted df) as H.
  induction H as [|p l Hs IH Hall]; constructor; [|exact IH].
  intros Hin. rewrite Forall_forall in Hall. specialize (Hall p Hin).
  unfold pair_lt in Hall. lia.
Qed.

Lemma pair_group_filter (df : frame contact) (d a : Z) :
  pair_group df d a
  = filter (fun x => positions_eqb
                       (donor_position (snd x), acceptor_position (snd x)) (d, a)
                     && true) df.
Proof.
  unfold pair_group. induction df as [|ir l IH]; [reflexivity|]. simpl.
  unfold positions_eqb at 1. cbn [fst snd]. rewrite andb_true_r.
  destruct (donor_position (snd ir) =? d); simpl; [|exact IH].
  destruct (acceptor_position (snd ir) =? a); simpl; now rewrite IH.
Qed.

End UniquePairs.

(** X13: [unique_residues_pairs] never raises, and its rows come by ascending
    donor position, then ascending acceptor position: no pair comes twice. *)
Theorem unique_residues_pairs_sorted (df : frame contact) (col : contact -> Qc) :
  exists out,
    unique_residues_pairs df col = Ok out
    /\ StronglySorted pair_lt (map pair_of out)
    /\ NoDup (map pair_of out).
Proof.
  destruct (unique_residues_pairs_described col df) as (out & H & F).
  exists out. split; [exact H|].
  rewrite (described_pairs col df _ _ F).
  split; [apply visited_pairs_sorted | apply visited_pairs_distinct].
Qed.

(** X14: each row of [unique_residues_pairs] summarises the rows of the table that
    have its two positions: their number, their greatest distance, their
    identifiers joined in table order, the acceptor residue name of the first
    of them and the donor residue name of the first row with its donor
    position; and every row of the table is summarised by one. *)
Theorem unique_residues_pairs_rows (df : frame contact) (col : contact -> Qc) :
  exists out,
    unique_residues_pairs df col = Ok out
    /\ (forall u, In u out -> describes df col (pair_of u) u)
    /\ (forall ir, In ir df ->
          exists u, In u out
                    /\ pair_of u = (donor_position (snd ir), acceptor_position (snd ir))).
Proof.
  destruct (unique_residues_pairs_described col df) as (out & H & F).
  exists out. split; [exact H|]. split.
  - intros u Hu.
    assert (G : forall ps, Forall2 (describes df col) ps out ->
                           describes df col (pair_of u) u).
    { clear F H. intros ps F. induction F as [|p v ps out' Hd _ IH]; [destruct Hu|].
      destruct Hu as [<-|Hu]; [|now apply IH].
      destruct Hd as [Hp Hrest]. subst p. split; [reflexivity | exact Hrest]. }
    now apply (G _ F).
  - intros ir Hin.
    assert (Hv : In (donor_position (snd ir), acceptor_position (snd ir))
                    (visited_pairs df)).
    { apply visited_pairs_in. now exists ir. }
    rewrite <- (described_pairs col df _ _ F) in Hv.
    apply in_map_iff in Hv. destruct Hv as [u [E Hu]]. now exists u.
Qed.

(** X15: the "atoms contacts" of the rows of [unique_residues_pairs] add up to
    the number of rows of the table. *)
Theorem unique_residues_pairs_total (df : frame contact) (col : contact -> Qc) :
  exists out,
    unique_residues_pairs df col = Ok out
    /\ sum_Z (map pair_atoms_contacts out) = Z.of_nat (length df).
Proof.
  destruct (unique_residues_pairs_described col df) as (out & H & F).
  exists out. split; [exact H|].
  assert (E : map pair_atoms_contacts out
              = map (fun p => Z.of_nat (length (pair_group df (fst p) (snd p))))
                  (visited_pairs df)).
  { clear H. induction F as [|p u ps out' Hd _ IH]; simpl; [reflexivity|].
    destruct Hd as (_ & _ & Hc & _). now rewrite Hc, IH. }
  rewrite E, (sum_Z_of_nat (fun p => length (pair_group df (fst p) (snd p)))).
  f_equal.
  transitivity (length (filter (fun _ : Z * contact => true) df));
    [|now rewrite filter_all].
  rewrite (count_by_group
             (fun ir => (donor_position (snd ir), acceptor_position (snd ir)))
             _ (visited_pairs df) df (visited_pairs_distinct df)).
  - f_equal. apply map_ext. intros [d a]. cbn [fst snd].
    now rewrite pair_group_filter.
  - intros ir Hin. apply visited_pairs_in. now exists ir.
Qed.

(** ** Matrices of the heatmap *)

Section HeatmapLoops.

Variable df : frame reduced.

Lemma first_value_found {V : Type} (mask : reduced -> bool) (column : reduced -> V) :
  (exists r, In r (rows df) /\ mask r = true) ->
  exists ir, find (fun ir => mask (snd ir)) df = Some ir
             /\ first_value mask column df = Ok (column (snd ir)).
Proof.
  intros [r [Hin Hm]]. unfold first_value.
  destruct (find (fun ir => mask (snd ir)) df) as [ir|] eqn:E.
  - exists ir. split; reflexivity.
  - exfalso. unfold rows in Hin. apply in_map_iff in Hin.
    destruct Hin as [ir [<- Hin]].
    pose proof (find_none _ _ E ir Hin) as H. simpl in H. congruence.
Qed.

Lemma dict_append_skip {V : Type} (k : Z) (v : V) (F : Z -> Z * list V)
  (pre : list Z) (d : list (Z * list V)) :
  (forall a, fst (F a) = a) -> ~ In k pre ->
  dict_append k v (map F pre ++ d) = map F pre ++ dict_append k v d.
Proof.
  intros HF. induction pre as [|a pre IH]; intros Hk; [reflexivity|].
  simpl. destruct (F a) as [k' l] eqn:E.
  assert (k' = a) by (rewrite <- (HF a), E; reflexivity). subst k'.
  replace (k =? a) with false by (symmetry; apply Z.eqb_neq; intros ->; apply Hk; now left).
  f_equal. apply IH. intros H. apply Hk. now right.
Qed.

(** One pass of the inner loop over the columns already there. *)
Lemma columns_extend {V : Type} (f : Z -> list V) (g : Z -> V) (suf : list Z) :
  forall pre,
    NoDup (pre ++ suf) ->
    fold_left (fun d a => dict_append a (g a) d) suf
      (map (fun a => (a, f a ++ [g a])) pre ++ map (fun a => (a, f a)) suf)
    = map (fun a => (a, f a ++ [g a])) (pre ++ suf).
Proof.
  induction suf as [|a suf IH]; intros pre Hnd.
  - simpl. now rewrite !app_nil_r.
  - cbn [fold_left map].
    rewrite (dict_append_skip a (g a) (fun a => (a, f a ++ [g a]))); [|reflexivity|].
    + cbn [dict_append]. rewrite Z.eqb_refl.
      specialize (IH (pre ++ [a])). rewrite <- app_assoc in IH. cbn [app] in IH.
      rewrite map_app in IH. cbn [map] in IH. rewrite <- app_assoc in IH.
      cbn [app] in IH. now apply IH.
    + apply NoDup_remove_2 in Hnd. intros H. apply Hnd. apply in_or_app. now left.
Qed.

(** The first pass of the inner loop, which creates the columns. *)
Lemma columns_create {V : Type} (g : Z -> V) (suf : list Z) :
  forall pre,
    NoDup (pre ++ suf) ->
    fold_left (fun d a => dict_append a (g a) d) suf
      (map (fun a => (a, [g a])) pre)
    = map (fun a => (a, [g a])) (pre ++ suf).
Proof.
  induction suf as [|a suf IH]; intros pre Hnd.
  - simpl. now rewrite app_nil_r.
  - cbn [fold_left].
    rewrite <- (app_nil_r (map (fun a0 => (a0, [g a0])) pre)).
    rewrite (dict_append_skip a (g a) (fun a => (a, [g a]))); [|reflexivity|].
    + cbn [dict_append].
      specialize (IH (pre ++ [a])). rewrite <- app_assoc in IH. cbn [app] in IH.
      rewrite map_app in IH. cbn [map] in IH. now apply IH.
    + apply NoDup_remove_2 in Hnd. intros H. apply Hnd. apply in_or_app. now left.
Qed.

Lemma append_unique_known (s : string) (l : list string) :
  In s l -> append_unique s l = l.
Proof.
  intros H. unfold append_unique.
  replace (existsb (String.eqb s) l) with true; [reflexivity|].
  symmetry. apply existsb_exists. exists s. split; [exact H | apply String.eqb_refl].
Qed.

Lemma append_unique_new (s : string) (l : list string) :
  ~ In s l -> append_unique s l = l ++ [s].
Proof.
  intros H. unfold append_unique.
  replace (existsb (String.eqb s) l) with false; [reflexivity|].
  symmetry. apply not_true_is_false. intros E. apply existsb_exists in E.
  destruct E as [x [Hx E]]. apply String.eqb_eq in E. now subst x.
Qed.

Lemma labels_create (lab : Z -> string) (suf : list Z) : forall pre,
  NoDup (map lab (pre ++ suf)) ->
  fold_left (fun l a => append_unique (lab a) l) suf (map lab pre)
  = map lab (pre ++ suf).
Proof.
  induction suf as [|a suf IH]; intros pre Hnd.
  - simpl. now rewrite app_nil_r.
  - cbn [fold_left]. rewrite append_unique_new.
    + specialize (IH (pre ++ [a])). rewrite <- app_assoc in IH. cbn [app] in IH.
      replace (map lab (pre ++ [a])) with (map lab pre ++ [lab a]) in IH
        by (now rewrite map_app).
      now apply IH.
    + rewrite map_app in Hnd. cbn [map] in Hnd. apply NoDup_remove_2 in Hnd.
      intros H. apply Hnd. apply in_or_app. now left.
Qed.

Lemma labels_known (lab : Z -> string) (suf : list Z) (l : list string) :
  (forall a, In a suf -> In (lab a) l) ->
  fold_left (fun l a => append_unique (lab a) l) suf l = l.
Proof.
  induction suf as [|a suf IH]; intros H; [reflexivity|].
  cbn [fold_left]. rewrite append_unique_known by (apply H; now left).
  apply IH. intros b Hb. apply H. now right.
Qed.

(** The inner loop, as three folds. *)
Lemma inner_loop_folds (o : Z) (L : list Z) : forall st,
  (forall a, In a L -> In a (abscissa_positions df)) ->
  for_each (heatmap_inner df o) L st
  = Ok (mk_heatmap_state
          (fold_left (fun d a =>
                        dict_append a (square (fun r => distance (base r)) df o a) d)
             L (distances st))
          (fold_left (fun d a => dict_append a (square atoms_contacts df o a) d)
             L (nb_contacts st))
          (ordinates st)
          (fold_left (fun l a => append_unique (abscissa_label df a) l)
             L (abscissas st))).
Proof.
  induction L as [|a L IH]; intros st HL.
  - now destruct st.
  - cbn [for_each fold_left]. unfold heatmap_inner at 1.
    destruct (first_value_found
                (fun r => abscissa_position (base r) =? a)
                (fun r => abscissa_residue (base r))) as (ir & Hfind & Hval).
    { assert (Ha : In a (abscissa_positions df)) by (apply HL; now left).
      apply (proj1 (sorted_unique_in _ _)) in Ha. apply in_map_iff in Ha.
      destruct Ha as [r [E Hr]]. exists r. split; [exact Hr | now apply Z.eqb_eq]. }
    rewrite Hval. cbn [bind]. rewrite IH by (intros b Hb; apply HL; now right).
    cbn [distances nb_contacts ordinates abscissas].
    assert (E : abscissa_label df a
                = (str_of_Z a ++ abscissa_residue (base (snd ir)))%string).
    { unfold abscissa_label. now rewrite Hfind. }
    now rewrite E.
Qed.

End HeatmapLoops.

Section HeatmapMatrices.

Variable df : frame reduced.

Lemma ordinate_found (o : Z) :
  In o (ordinate_positions df) ->
  exists ir,
    find (fun ir => ordinate_position (base (snd ir)) =? o) df = Some ir
    /\ first_value (fun r => ordinate_position (base r) =? o)
         (fun r => ordinate_residue (base r)) df
       = Ok (ordinate_residue (base (snd ir))).
Proof.
  intros Ho. apply (first_value_found df (fun r => ordinate_position (base r) =? o)).
  apply (proj1 (sorted_unique_in _ _)) in Ho. apply in_map_iff in Ho.
  destruct Ho as [r [E Hr]]. exists r. split; [exact Hr | now apply Z.eqb_eq].
Qed.

(** One round of the outer loop, once the columns exist. *)
Lemma outer_round (o : Z) (done : list Z) :
  In o (ordinate_positions df) ->
  ~ In (ordinate_label df o) (map (ordinate_label df) done) ->
  heatmap_outer df (abscissa_positions df)
    (mk_heatmap_state
       (squares (fun r => distance (base r)) df (abscissa_positions df) done)
       (squares atoms_contacts df (abscissa_positions df) done)
       (map (ordinate_label df) done)
       (map (abscissa_label df) (abscissa_positions df))) o
  = Ok (mk_heatmap_state
          (squares (fun r => distance (base r)) df (abscissa_positions df) (done ++ [o]))
          (squares atoms_contacts df (abscissa_positions df) (done ++ [o]))
          (map (ordinate_label df) (done ++ [o]))
          (map (abscissa_label df) (abscissa_positions df))).
Proof.
  intros Ho Hnew. unfold heatmap_outer.
  destruct (ordinate_found o Ho) as (ir & Hfind & Hval). rewrite Hval. cbn [bind].
  rewrite inner_loop_folds by auto.
  cbn [distances nb_contacts ordinates abscissas].
  assert (E : (str_of_Z o ++ ordinate_residue (base (snd ir)))%string
              = ordinate_label df o).
  { unfold ordinate_label. now rewrite Hfind. }
  rewrite E, (append_unique_new _ _ Hnew).
  rewrite labels_known by (intros a Ha; now apply in_map).
  pose proof (sorted_unique_distinct
                (map (fun r => abscissa_position (base r)) (rows df))) as Hnd.
  fold (abscissa_positions df) in Hnd.
  unfold squares.
  pose proof (columns_extend
                (fun a => map (fun o' => square (fun r => distance (base r)) df o' a) done)
                (fun a => square (fun r => distance (base r)) df o a)
                (abscissa_positions df) [] Hnd) as Ed.
  pose proof (columns_extend
                (fun a => map (fun o' => square atoms_contacts df o' a) done)
                (fun a => square atoms_contacts df o a)
                (abscissa_positions df) [] Hnd) as En.
  cbn [app map] in Ed, En. rewrite Ed, En.
  f_equal. f_equal.
  - apply map_ext. intros a. now rewrite map_app.
  - apply map_ext. intros a. now rewrite map_app.
  - now rewrite map_app.
Qed.

Lemma outer_rounds (todo : list Z) : forall done,
  (forall o, In o todo -> In o (ordinate_positions df)) ->
  NoDup (map (ordinate_label df) (done ++ todo)) ->
  for_each (heatmap_outer df (abscissa_positions df)) todo
    (mk_heatmap_state
       (squares (fun r => distance (base r)) df (abscissa_positions df) done)
       (squares atoms_contacts df (abscissa_positions df) done)
       (map (ordinate_label df) done)
       (map (abscissa_label df) (abscissa_positions df)))
  = Ok (mk_heatmap_state
          (squares (fun r => distance (base r)) df (abscissa_positions df) (done ++ todo))
          (squares atoms_contacts df (abscissa_positions df) (done ++ todo))
          (map (ordinate_label df) (done ++ todo))
          (map (abscissa_label df) (abscissa_positions df))).
Proof.
  induction todo as [|o todo IH]; intros done Hin Hnd.
  - now rewrite app_nil_r.
  - cbn [for_each]. rewrite outer_round.
    + cbn [bind]. rewrite IH.
      * now rewrite <- app_assoc.
      * intros o' Ho'. apply Hin. now right.
      * now rewrite <- app_assoc.
    + apply Hin. now left.
    + rewrite map_app in Hnd. cbn [map] in Hnd. apply NoDup_remove_2 in Hnd.
      intros H. apply Hnd. apply in_or_app. now left.
Qed.

(** The first round, which creates the columns and the abscissa labels. *)
Lemma first_round (o : Z) :
  In o (ordinate_positions df) ->
  NoDup (map (abscissa_label df) (abscissa_positions df)) ->
  heatmap_outer df (abscissa_positions df) (mk_heatmap_state [] [] [] []) o
  = Ok (mk_heatmap_state
          (squares (fun r => distance (base r)) df (abscissa_positions df) [o])
          (squares atoms_contacts df (abscissa_positions df) [o])
          (map (ordinate_label df) [o])
          (map (abscissa_label df) (abscissa_positions df))).
Proof.
  intros Ho Hlab. unfold heatmap_outer.
  destruct (ordinate_found o Ho) as (ir & Hfind & Hval). rewrite Hval. cbn [bind].
  rewrite inner_loop_folds by auto.
  cbn [distances nb_contacts ordinates abscissas].
  assert (E : (str_of_Z o ++ ordinate_residue (base (snd ir)))%string
              = ordinate_label df o).
  { unfold ordinate_label. now rewrite Hfind. }
  rewrite E.
  pose proof (sorted_unique_distinct
                (map (fun r => abscissa_position (base r)) (rows df))) as Hnd.
  fold (abscissa_positions df) in Hnd.
  pose proof (columns_create
                (fun a => square (fun r => distance (base r)) df o a)
                (abscissa_positions df) [] Hnd) as Ed.
  pose proof (columns_create
                (fun a => square atoms_contacts df o a)
                (abscissa_positions df) [] Hnd) as En.
  pose proof (labels_create (abscissa_label df) (abscissa_positions df) [] Hlab) as El.
  cbn [app map] in Ed, En, El. rewrite Ed, En, El. reflexivity.
Qed.

Lemma sorted_unique_nil (l : list Z) : sorted_unique l = [] -> l = [].
Proof.
  destruct l as [|x l]; [reflexivity|]. intros H.
  assert (Hx : In x (sorted_unique (x :: l))) by (apply sorted_unique_in; now left).
  rewrite H in Hx. destruct Hx.
Qed.

Lemma make_matrix_squares {V : Type} (column : reduced -> V)
  (A O : list Z) (labels names : list string) :
  length labels = length O -> length names = length A ->
  make_matrix (squares column df A O) labels names
  = Ok (mk_matrix labels names
          (map (fun a => map (fun o => square column df o a) O) A)).
Proof.
  intros Hl Hn. unfold make_matrix, squares.
  replace (forallb _ _) with true.
  - rewrite length_map, (proj2 (Nat.eqb_eq _ _) Hn). now rewrite map_map.
  - symmetry. apply forallb_forall. intros c Hc. apply in_map_iff in Hc.
    destruct Hc as [a [<- _]]. cbn [snd]. rewrite length_map. now apply Nat.eqb_eq.
Qed.

Lemma heatmap_of_distinct_labels :
  NoDup (map (ordinate_label df) (ordinate_positions df)) ->
  NoDup (map (abscissa_label df) (abscissa_positions df)) ->
  heatmap_distances_nb_contacts df
  = Ok (mk_matrix
          (map (ordinate_label df) (ordinate_positions df))
          (map (abscissa_label df) (abscissa_positions df))
          (map (fun a => map (fun o => square (fun r => distance (base r)) df o a)
                           (ordinate_positions df))
             (abscissa_positions df)),
        mk_matrix
          (map (ordinate_label df) (ordinate_positions df))
          (map (abscissa_label df) (abscissa_positions df))
          (map (fun a => map (fun o => square atoms_contacts df o a)
                           (ordinate_positions df))
             (abscissa_positions df))).
Proof.
  intros Ho Ha. unfold heatmap_distances_nb_contacts.
  fold (ordinate_positions df). fold (abscissa_positions df).
  destruct (ordinate_positions df) as [|o O] eqn:EO.
  - apply sorted_unique_nil in EO. apply map_eq_nil in EO.
    unfold abscissa_positions. rewrite EO. reflexivity.
  - cbn [for_each]. rewrite first_round; [|rewrite EO; now left|exact Ha].
    cbn [bind].
    rewrite (outer_rounds O [o]).
    + cbn [bind app distances nb_contacts ordinates abscissas].
      rewrite !make_matrix_squares by (now rewrite length_map).
      reflexivity.
    + intros o' Ho'. rewrite EO. now right.
    + exact Ho.
Qed.

End HeatmapMatrices.

Section HeatmapLabels.

Variable df : frame reduced.
Hypothesis lettered : residues_lettered df.

Lemma letters_not_numeric (s : string) :
  all_chars is_letter s = true -> head_not is_numeric s = true.
Proof.
  destruct s as [|c s]; simpl; [reflexivity|]. intros H.
  apply andb_true_iff in H. destruct H as [Hc _].
  now rewrite (letter_not_numeric c Hc).
Qed.

Lemma label_position (p p' : Z) (s s' : string) :
  all_chars is_letter s = true -> all_chars is_letter s' = true ->
  (str_of_Z p ++ s)%string = (str_of_Z p' ++ s')%string -> p = p'.
Proof.
  intros Hs Hs' E.
  apply (split_unique is_numeric) in E;
    try apply str_of_Z_numeric; try now apply letters_not_numeric.
  destruct E as [E _]. now apply str_of_Z_inj.
Qed.

Lemma ordinate_label_letters (o : Z) :
  exists s, ordinate_label df o = (str_of_Z o ++ s)%string
            /\ all_chars is_letter s = true.
Proof.
  unfold ordinate_label.
  destruct (find (fun ir => ordinate_position (base (snd ir)) =? o) df) as [ir|] eqn:E.
  - eexists. split; [reflexivity|]. apply find_some in E. destruct E as [Hin _].
    apply (lettered (snd ir)). unfold rows. now apply in_map.
  - exists EmptyString. split; [now rewrite append_empty_r | reflexivity].
Qed.

Lemma abscissa_label_letters (a : Z) :
  exists s, abscissa_label df a = (str_of_Z a ++ s)%string
            /\ all_chars is_letter s = true.
Proof.
  unfold abscissa_label.
  destruct (find (fun ir => abscissa_position (base (snd ir)) =? a) df) as [ir|] eqn:E.
  - eexists. split; [reflexivity|]. apply find_some in E. destruct E as [Hin _].
    apply (lettered (snd ir)). unfold rows. now apply in_map.
  - exists EmptyString. split; [now rewrite append_empty_r | reflexivity].
Qed.

Lemma ordinate_labels_distinct (l : list Z) :
  NoDup l -> NoDup (map (ordinate_label df) l).
Proof.
  intros Hnd. apply (NoDup_map_dependent (fun x : Z => x)).
  - now rewrite map_id.
  - intros x y _ _ E.
    destruct (ordinate_label_letters x) as (s & Es & Hs).
    destruct (ordinate_label_letters y) as (s' & Es' & Hs').
    rewrite Es, Es' in E. now apply (label_position x y s s').
Qed.

Lemma abscissa_labels_distinct (l : list Z) :
  NoDup l -> NoDup (map (abscissa_label df) l).
Proof.
  intros Hnd. apply (NoDup_map_dependent (fun x : Z => x)).
  - now rewrite map_id.
  - intros x y _ _ E.
    destruct (abscissa_label_letters x) as (s & Es & Hs).
    destruct (abscissa_label_letters y) as (s' & Es' & Hs').
    rewrite Es, Es' in E. now apply (label_position x y s s').
Qed.

End HeatmapLabels.

Section HeatmapSquares.

Lemma concat_squares {V : Type} (sq : Z -> Z -> option V) (A O : list Z) :
  concat (map (fun a => map (fun o => sq o a) O) A)
  = map (fun q => sq (fst q) (snd q)) (grid A O).
Proof.
  unfold grid. induction A as [|a A IH]; [reflexivity|].
  cbn [map concat flat_map]. rewrite map_app, map_map, IH. reflexivity.
Qed.

Lemma count_filter_map {A B : Type} (p : B -> bool) (f : A -> B) (l : list A) :
  length (filter p (map f l))
  = list_sum (map (fun x => if p (f x) then 1%nat else 0%nat) l).
Proof.
  induction l as [|a l IH]; [reflexivity|]. simpl.
  destruct (p (f a)); simpl; now rewrite IH.
Qed.

Lemma grid_in (A O : list Z) (o a : Z) :
  In (o, a) (grid A O) <-> In o O /\ In a A.
Proof.
  unfold grid. rewrite in_flat_map. split.
  - intros [a' [Ha H]]. apply in_map_iff in H. destruct H as [o' [E Ho]].
    injection E as -> ->. now split.
  - intros [Ho Ha]. exists a. split; [exact Ha|]. apply in_map_iff. now exists o.
Qed.

Lemma grid_distinct (A O : list Z) : NoDup A -> NoDup O -> NoDup (grid A O).
Proof.
  intros HA HO. induction A as [|a A IH]; [constructor|].
  inversion HA as [|? ? Hnotin HA']; subst.
  change (grid (a :: A) O) with (map (fun o => (o, a)) O ++ grid A O).
  apply NoDup_app.
  - apply (NoDup_map_dependent (fun x : Z => x)); [now rewrite map_id|].
    intros x y _ _ E. now injection E.
  - now apply IH.
  - intros [o a'] H1 H2. apply in_map_iff in H1. destruct H1 as [o' [E _]].
    injection E as <- <-. apply (grid_in A O o' a) in H2. now apply Hnotin.
Qed.

Lemma find_same {A : Type} (p q : A -> bool) (l : list A) :
  (forall x, p x = q x) -> find p l = find q l.
Proof.
  intros H. induction l as [|a l IH]; [reflexivity|]. simpl.
  rewrite H, IH. reflexivity.
Qed.

Lemma one_or_none {A : Type} (g : A -> Z * Z) (p : A -> bool) (q : Z * Z)
  (l : list A) :
  NoDup (map g l) -> (forall x, p x = true -> g x = q) ->
  length (filter p l) = if is_set (find p l) then 1%nat else 0%nat.
Proof.
  intros Hnd Hp. induction l as [|a l IH]; [reflexivity|].
  simpl in *. inversion Hnd as [|? ? Hnotin Hnd']; subst.
  destruct (p a) eqn:E; [|now apply IH].
  simpl. f_equal.
  assert (Hnone : forall x, In x l -> p x = false).
  { intros x Hx. apply not_true_is_false. intros Hpx. apply Hnotin.
    rewrite (Hp a E), <- (Hp x Hpx). now apply in_map. }
  clear -Hnone. induction l as [|b l IH]; [reflexivity|]. simpl.
  rewrite (Hnone b) by now left. apply IH. intros x Hx. apply Hnone. now right.
Qed.

End HeatmapSquares.

Lemma heatmap_lettered (df : frame reduced) :
  residues_lettered df ->
  heatmap_distances_nb_contacts df
  = Ok (mk_matrix
          (map (ordinate_label df) (ordinate_positions df))
          (map (abscissa_label df) (abscissa_positions df))
          (map (fun a => map (fun o => square (fun r => distance (base r)) df o a)
                           (ordinate_positions df))
             (abscissa_positions df)),
        mk_matrix
          (map (ordinate_label df) (ordinate_positions df))
          (map (abscissa_label df) (abscissa_positions df))
          (map (fun a => map (fun o => square atoms_contacts df o a)
                           (ordinate_positions df))
             (abscissa_positions df))).
Proof.
  intros Hl. apply heatmap_of_distinct_labels.
  - apply (ordinate_labels_distinct df Hl), sorted_unique_distinct.
  - apply (abscissa_labels_distinct df Hl), sorted_unique_distinct.
Qed.

(** X11: on a table whose residue names are made of letters,
    [heatmap_distances_nb_contacts] returns two matrices with one row per
    distinct ordinate position and one column per distinct abscissa position,
    both in ascending order and labelled with the position followed by the
    residue name of the first row that has it; a square holds the distance,
    or the count, of the first row with its two positions, and nothing when
    there is no such row. *)
Theorem heatmap_matrices (df : frame reduced) :
  residues_lettered df ->
  heatmap_distances_nb_contacts df
  = Ok (mk_matrix
          (map (ordinate_label df) (ordinate_positions df))
          (map (abscissa_label df) (abscissa_positions df))
          (map (fun a => map (fun o => square (fun r => distance (base r)) df o a)
                           (ordinate_positions df))
             (abscissa_positions df)),
        mk_matrix
          (map (ordinate_label df) (ordinate_positions df))
          (map (abscissa_label df) (abscissa_positions df))
          (map (fun a => map (fun o => square atoms_contacts df o a)
                           (ordinate_positions df))
             (abscissa_positions df))).
Proof. apply heatmap_lettered. Qed.

(** X12: on a table with lettered residue names in which no two rows have the same
    two positions, each matrix of the heatmap has as many filled squares as
    the table has rows. *)
Theorem heatmap_one_square_per_row (df : frame reduced) :
  residues_lettered df ->
  NoDup (map (fun ir => positions (base (snd ir))) df) ->
  exists source_distances source_nb_contacts,
    heatmap_distances_nb_contacts df = Ok (source_distances, source_nb_contacts)
    /\ filled source_distances = length df
    /\ filled source_nb_contacts = length df.
Proof.
  intros Hl Hnd. rewrite (heatmap_lettered df Hl).
  eexists _, _. split; [reflexivity|].
  assert (G : forall (V : Type) (column : reduced -> V),
             length (filter is_set
                       (concat (map (fun a => map (fun o => square column df o a)
                                                (ordinate_positions df))
                                  (abscissa_positions df))))
             = length df).
  { intros V column. rewrite concat_squares, count_filter_map.
    transitivity (length (filter (fun _ : Z * reduced => true) df));
      [|now rewrite filter_all].
    rewrite (count_by_group (fun ir => positions (base (snd ir))) _
               (grid (abscissa_positions df) (ordinate_positions df)) df).
    - f_equal. apply map_ext. intros [o a]. cbn [fst snd].
      rewrite (one_or_none (fun ir => positions (base (snd ir))) _ (o, a) df Hnd).
      + unfold square.
        rewrite (find_same (fun ir => positions_eqb (positions (base (snd ir))) (o, a) && true)
                          (fun ir => (ordinate_position (base (snd ir)) =? o)
                                     && (abscissa_position (base (snd ir)) =? a))).
        * now destruct (find _ df).
        * intros ir. unfold positions_eqb, positions. cbn [fst snd].
          now rewrite andb_true_r.
      + intros ir H. rewrite andb_true_r in H. now apply positions_eqb_eq.
    - apply grid_distinct; apply sorted_unique_distinct.
    - intros ir Hin. destruct (positions (base (snd ir))) as [o a] eqn:E.
      apply grid_in. unfold positions in E. injection E as <- <-.
      split; apply sorted_unique_in;
        apply (in_map (fun r => _ (base r))); unfold rows; now apply in_map. }
  split; apply G.
Qed.

(** ** Domain intervals: failures and tables already without gap *)

Section DomainsFailures.

Lemma set_last_stop_ok (l : list domain) (v : Z) :
  l <> [] -> exists l', set_last_stop l v = Ok l'.
Proof.
  intros H. destruct (exists_last H) as (front & d & ->).
  rewrite set_last_stop_snoc. eauto.
Qed.

Lemma step_armed (ue : bool) (E : list nat) (st : domains_state) (ir : nat * domain) :
  armed st -> exists st', get_domains_step ue E st ir = Ok st' /\ armed st'.
Proof.
  intros [Hdata Hfields]. destruct ir as [idx row]. unfold get_domains_step.
  destruct (existsb (Nat.eqb idx) E).
  - destruct ue.
    + destruct (set_last_stop_ok (data st) (start row - 1) Hdata) as [l' ->].
      cbn [bind]. eexists. split; [reflexivity|]. split; simpl.
      * now destruct l'.
      * exact Hfields.
    + exists st. split; [reflexivity | now split].
  - assert (Hc : exists st1, close_embedding st = Ok st1).
    { unfold close_embedding. destruct (embedded (previous st)); [|eauto].
      destruct (fields (previous st)); [eauto | now elim Hfields]. }
    destruct Hc as [st1 ->]. cbn [bind]. eexists. split; [reflexivity|].
    split; simpl; [|discriminate].
    now destruct (fill_gap idx row st1).
Qed.

Lemma fused_armed (ue : bool) (rows : list domain) : forall ps k st,
  armed st -> exists st', fused ue ps k rows st = Ok st'.
Proof.
  induction rows as [|row rows IH]; intros ps k st Ha; [simpl; eauto|].
  cbn [fused]. destruct (stop row <? ps).
  - destruct (step_armed ue [k] st (k, row) Ha) as (st' & -> & Ha').
    cbn [bind]. now apply IH.
  - destruct (step_armed ue [] st (k, row) Ha) as (st' & -> & Ha').
    cbn [bind]. now apply IH.
Qed.

Lemma fused_not_embedded (rows : list domain) : forall ps k st,
  embedded (previous st) = false ->
  exists st', fused false ps k rows st = Ok st'.
Proof.
  induction rows as [|row rows IH]; intros ps k st Hf; [simpl; eauto|].
  cbn [fused]. destruct (stop row <? ps).
  - unfold get_domains_step. cbn [existsb]. rewrite Nat.eqb_refl. cbn [orb bind].
    now apply IH.
  - unfold get_domains_step. cbn [existsb]. unfold close_embedding. rewrite Hf.
    cbn [bind]. apply IH. simpl. exact Hf.
Qed.

Lemma chain_max_stop (l : list domain) : forall hi,
  chain 1 l hi -> max_stop l = hi.
Proof.
  induction l as [|d l IH] using rev_ind; intros hi H.
  - simpl in *. lia.
  - apply chain_snoc in H. destruct H as (H1 & H2 & ->).
    rewrite max_stop_snoc, (IH _ H1). lia.
Qed.

Lemma gapless_loop (ue : bool) (raw : list domain) : forall hi,
  chain 1 raw hi ->
  exists st,
    fused ue 0 0%nat raw domains_init = Ok st
    /\ data st = raw
    /\ expected_start st = hi + 1
    /\ embedded (previous st) = false.
Proof.
  induction raw as [|row pre IH] using rev_ind; intros hi H.
  - exists domains_init. simpl in *. repeat split. lia.
  - apply chain_snoc in H. destruct H as (H1 & H2 & ->).
    destruct (IH _ H1) as (st & Hrun & Hdata & Hexp & Hflag).
    rewrite fused_snoc, Hrun. cbn [bind].
    rewrite running_stop_max by lia.
    pose proof (max_stop_nonneg pre) as Hnn.
    rewrite Z.max_r by lia. rewrite (chain_max_stop pre _ H1).
    replace (stop row <? start row - 1) with false
      by (symmetry; apply Z.ltb_ge; lia).
    unfold get_domains_step. cbn [existsb]. unfold close_embedding.
    rewrite Hflag. cbn [bind]. unfold fill_gap.
    replace (expected_start st <? start row) with false
      by (symmetry; apply Z.ltb_ge; lia).
    eexists. split; [reflexivity|]. simpl. rewrite Hdata, Hflag. repeat split.
Qed.

Lemma first_row_armed (ue : bool) (idx : nat) (row : domain) :
  exists st', get_domains_step ue [] domains_init (idx, row) = Ok st' /\ armed st'.
Proof.
  unfold get_domains_step. cbn [existsb]. unfold close_embedding. simpl.
  eexists. split; [reflexivity|]. split; simpl; [|discriminate].
  now destruct (fill_gap idx row domains_init).
Qed.

Lemma gapless_unchanged (raw : list domain) (ue : bool) (hi : Z) :
  chain 1 raw hi -> get_domains raw ue = Ok raw.
Proof.
  intros H. rewrite get_domains_fused.
  destruct (gapless_loop ue raw hi H) as (st & -> & Hdata & _).
  simpl. now rewrite Hdata.
Qed.

End DomainsFailures.

(** X1: [get_domains] raises in one case only: embedded domains are used and the
    first row of the table has a negative stop, which makes that row an
    embedded one with no interval before it ([IndexError]). *)
Theorem get_domains_failure (raw : list domain) (use_embedded : bool) :
  if use_embedded && negative_first raw
  then get_domains raw use_embedded = Raise IndexError
  else exists out, get_domains raw use_embedded = Ok out.
Proof.
  rewrite get_domains_fused. destruct use_embedded; cbn [andb].
  - destruct raw as [|row rest]; cbn [negative_first].
    + simpl. eauto.
    + cbn [fused]. destruct (stop row <? 0) eqn:E.
      * reflexivity.
      * destruct (first_row_armed true 0%nat row) as (st' & Hs & Ha).
        rewrite Hs. cbn [bind].
        destruct (fused_armed true rest (stop row) 1%nat st' Ha) as [st'' ->].
        simpl. eauto.
  - destruct (fused_not_embedded raw 0 0%nat domains_init eq_refl) as [st ->].
    simpl. eauto.
Qed.

(** X2: a table that is already without gap from position 1 (every row starts
    right after the stop of the row before, the first at 1, with
    start <= stop) is returned as it is, with or without embedded domains. *)
Theorem get_domains_gapless_unchanged (raw : list domain) (use_embedded : bool)
  (hi : Z) :
  chain 1 raw hi -> get_domains raw use_embedded = Ok raw.
Proof. apply gapless_unchanged. Qed.

(** X3: applying [get_domains] to what it returned changes nothing, on tables of
    1-indexed rows with start <= stop in which each row is nested below the
    highest stop met so far or starts after it, with increasing starts when
    embedded domains are used. *)
Theorem get_domains_idempotent (raw : list domain) (use_embedded again : bool) :
  Forall (fun d => 1 <= start d <= stop d) raw ->
  separated raw ->
  (use_embedded = true -> starts_increasing raw) ->
  exists out,
    get_domains raw use_embedded = Ok out
    /\ get_domains out again = Ok out.
Proof.
  intros Hrows Hsep Hinc.
  destruct (tiling_loop use_embedded raw Hrows Hsep Hinc) as (st & Hrun & Hinv).
  rewrite get_domains_fused, Hrun. cbn [bind]. exists (data st).
  split; [reflexivity|]. destruct Hinv as (Hchain & _).
  exact (gapless_unchanged _ again _ Hchain).
Qed.

(** ** Region of interest: printed regions and surrounding text *)

Section RoiRoundTrip.

Local Open Scope string_scope.

Lemma uint_all_digits (d : Decimal.uint) :
  all_digits (NilEmpty.string_of_uint d) = true.
Proof. induction d; simpl; auto. Qed.

Lemma int_of_digits_acc (d : Decimal.uint) : forall acc : positive,
  int_of_digits (Z.pos acc) (NilEmpty.string_of_uint d)
  = Z.pos (Pos.of_uint_acc d acc).
Proof.
  induction d; intros acc; cbn [NilEmpty.string_of_uint int_of_digits Pos.of_uint_acc];
    try reflexivity;
    match goal with
    | |- int_of_digits ?z _ = Z.pos (Pos.of_uint_acc _ ?p) =>
        replace z with (Z.pos p) by digit_value; apply IHd
    end.
Qed.

Lemma int_of_digits_uint (d : Decimal.uint) :
  int_of_digits 0 (NilEmpty.string_of_uint d) = Z.of_N (Pos.of_uint d).
Proof.
  induction d; cbn [NilEmpty.string_of_uint int_of_digits Pos.of_uint];
    try reflexivity; try exact IHd;
    match goal with
    | |- int_of_digits ?z _ = Z.of_N (N.pos (Pos.of_uint_acc _ ?p)) =>
        replace z with (Z.pos p) by digit_value; apply int_of_digits_acc
    end.
Qed.

Lemma str_of_Z_digits (n : Z) :
  0 <= n ->
  all_digits (str_of_Z n) = true
  /\ str_of_Z n <> EmptyString
  /\ int (str_of_Z n) = n.
Proof.
  intros Hn. unfold str_of_Z, int. destruct n as [|p|p]; [| |lia].
  - repeat split. discriminate.
  - cbn [Z.to_int NilZero.string_of_int].
    pose proof (Unsigned.to_uint_nonnil p) as Hnn.
    assert (E : NilZero.string_of_uint (Pos.to_uint p)
                = NilEmpty.string_of_uint (Pos.to_uint p)).
    { unfold NilZero.string_of_uint. destruct (Pos.to_uint p); congruence. }
    rewrite E. split; [apply uint_all_digits|]. split.
    + destruct (Pos.to_uint p); try discriminate; now elim Hnn.
    + rewrite int_of_digits_uint, Unsigned.of_to. reflexivity.
Qed.

Lemma span_digits_stop (s : string) :
  head_not is_digit s = true -> span_digits s = (EmptyString, s).
Proof.
  destruct s as [|c s]; simpl; [reflexivity|].
  intros H. apply negb_true_iff in H. now rewrite H.
Qed.

Lemma search_skip (pre s : string) :
  all_chars (fun c => negb (is_digit c)) pre = true ->
  search (pre ++ s) = search s.
Proof.
  induction pre as [|c pre IH]; simpl; intros H; [reflexivity|].
  apply andb_true_iff in H. destruct H as [Hc Hpre].
  change (match match_here (String c (pre ++ s)) with
          | Some m => Some m
          | None => search (pre ++ s)
          end = search s).
  unfold match_here. cbn [span_digits]. apply negb_true_iff in Hc. rewrite Hc.
  now apply IH.
Qed.

Lemma search_range_first (pre d1 d2 post : string) :
  all_chars (fun c => negb (is_digit c)) pre = true ->
  all_digits d1 = true -> d1 <> "" ->
  all_digits d2 = true -> d2 <> "" ->
  head_not is_digit post = true ->
  search (pre ++ d1 ++ "-" ++ d2 ++ post) = Some (d1, d2).
Proof.
  intros Hpre H1 N1 H2 N2 Hpost.
  rewrite (search_skip pre _ Hpre), search_unfold.
  rewrite (match_here_found d1 d2 post H1 N1 H2 N2).
  now rewrite (span_digits_stop post Hpost), append_empty_r.
Qed.

End RoiRoundTrip.

(** X4: parsing a printed region gives the region back: for non-negative [lo]
    and [hi], [extract_roi] applied to the text "lo-hi" returns [lo] and
    [hi]. *)
Theorem extract_roi_round_trip (lo hi : Z) :
  0 <= lo -> 0 <= hi ->
  extract_roi (str_of_Z lo ++ "-" ++ str_of_Z hi)%string = Ok (lo, hi).
Proof.
  intros Hlo Hhi.
  destruct (str_of_Z_digits lo Hlo) as (D1 & N1 & I1).
  destruct (str_of_Z_digits hi Hhi) as (D2 & N2 & I2).
  unfold extract_roi.
  pose proof (search_range_first EmptyString (str_of_Z lo) (str_of_Z hi) EmptyString
                eq_refl D1 N1 D2 N2 eq_refl) as H.
  cbn [append] in H. rewrite append_empty_r in H.
  cbn [append]. rewrite H. now rewrite I1, I2.
Qed.

(** X5: on an ASCII argument the pattern is searched, not matched in full:
    text without digits before the range and text that does not begin with a
    digit after it are ignored, so a sign before the first number is
    dropped. *)
Theorem extract_roi_ignores_surrounding_text (pre d1 d2 post : string) :
  ascii_only pre = true -> ascii_only post = true ->
  all_chars (fun c => negb (is_digit c)) pre = true ->
  all_digits d1 = true -> d1 <> EmptyString ->
  all_digits d2 = true -> d2 <> EmptyString ->
  head_not is_digit post = true ->
  extract_roi (pre ++ d1 ++ "-" ++ d2 ++ post)%string = Ok (int d1, int d2).
Proof.
  intros _ _ Hpre H1 N1 H2 N2 Hpost. unfold extract_roi.
  now rewrite (search_range_first pre d1 d2 post Hpre H1 N1 H2 N2 Hpost).
Qed.

(** ** Orientation and reduction: what the returned rows are *)

Section ReducerRows.

Lemma representatives_rows (l : frame oriented) (seen : list string) (rep : oriented) :
  In rep (representatives seen l) -> In rep (rows l).
Proof.
  intros H. now destruct (proj1 (proj2 (representatives_spec l seen)) rep H).
Qed.

Lemma group_size (df : frame oriented) (rep : oriented) :
  In rep (rows df) ->
  (1 <= length (group df rep) <= length df)%nat.
Proof.
  intros H. split.
  - unfold rows in H. apply in_map_iff in H. destruct H as [[i r] [E Hin]].
    simpl in E. subst r.
    assert (Hg : In (i, rep) (group df rep)).
    { apply filter_In. split; [exact Hin | apply same_positions_refl]. }
    destruct (group df rep); [destruct Hg | simpl; lia].
  - unfold group. apply filter_length_le.
Qed.

(** The table before sorting, when the column assignment succeeds. *)
Lemma reducer_unsorted (df : frame oriented) (out : frame reduced) :
  get_residues_in_contact df = Ok out ->
  exists df1,
    Permutation out df1
    /\ map (fun ir => (fst ir, base (snd ir))) df1
       = drop (flat_map (group_removed df) (representatives [] df)) df
    /\ map (fun ir => atoms_contacts (snd ir)) df1
       = map (fun row => Z.of_nat (length (group df row))) (representatives [] df).
Proof.
  unfold get_residues_in_contact.
  rewrite (reducer_loop df df) by apply incl_refl.
  cbn [bind combinations idx_to_remove combinations_nb_contacts app].
  set (labels := flat_map (group_removed df) (representatives [] df)).
  set (values := map (fun row => Z.of_nat (length (group df row))) (representatives [] df)).
  destruct (Nat.eq_dec (length values) (length (drop labels df))) as [Hlen|Hlen].
  - destruct (set_atoms_contacts_ok (drop labels df) values Hlen) as (df1 & Hset & Hbase & Hcol).
    rewrite Hset. cbn [bind]. intros H; injection H as <-.
    exists df1. split; [apply sort_values_perm | now split].
  - unfold set_atoms_contacts. rewrite (proj2 (Nat.eqb_neq _ _) Hlen). discriminate.
Qed.

End ReducerRows.

(** X8: whatever the table, when [get_residues_in_contact] returns, each row it
    returns is a row of the table under the same label, with an
    "atoms contacts" entry between 1 and the number of rows of the table,
    and it returns no more rows than it was given. *)
Theorem get_residues_in_contact_rows_of_input (df : frame oriented)
  (out : frame reduced) :
  get_residues_in_contact df = Ok out ->
  (forall ir, In ir out ->
     In (fst ir, base (snd ir)) df
     /\ 1 <= atoms_contacts (snd ir) <= Z.of_nat (length df))
  /\ (length out <= length df)%nat.
Proof.
  intros H. destruct (reducer_unsorted df out H) as (df1 & Hperm & Hbase & Hcol).
  split.
  - intros ir Hin. apply (Permutation_in _ Hperm) in Hin. split.
    + assert (Hd : In (fst ir, base (snd ir))
                     (map (fun ir => (fst ir, base (snd ir))) df1))
        by (apply (in_map (fun ir => (fst ir, base (snd ir)))); exact Hin).
      rewrite Hbase in Hd. unfold drop in Hd. apply filter_In in Hd. tauto.
    + assert (Hv : In (atoms_contacts (snd ir))
                     (map (fun ir => atoms_contacts (snd ir)) df1))
        by (apply (in_map (fun ir => atoms_contacts (snd ir))); exact Hin).
      rewrite Hcol in Hv. apply in_map_iff in Hv. destruct Hv as [rep [<- Hrep]].
      apply representatives_rows in Hrep.
      pose proof (group_size df rep Hrep). lia.
  - rewrite (Permutation_length Hperm).
    rewrite <- (length_map (fun ir => (fst ir, base (snd ir))) df1), Hbase.
    unfold drop. apply filter_length_le.
Qed.

(** X6: with a region of interest, every row of the oriented table has its
    ordinate position inside the region, and when the ordinate is the
    acceptor the donor, now the abscissa, lies outside the region. *)
Theorem oriented_rows_in_region (contacts : list contact) (lo hi : Z) (o : oriented) :
  In o (rows (oriented_contacts (Some (lo, hi)) contacts)) ->
  between (ordinate_position o) lo hi = true
  /\ (ordinate_type o = acceptor -> between (abscissa_position o) lo hi = false).
Proof.
  intros H. split; [now apply (oriented_in_region lo hi contacts)|].
  unfold oriented_contacts, rows in H. rewrite map_map in H. cbn [snd] in H.
  apply in_map_iff in H. destruct H as [[i r] [<- _]]. cbn [snd].
  unfold orient. fold (between (donor_position r) lo hi).
  destruct (between (donor_position r) lo hi) eqn:E; simpl; [discriminate|].
  intros _. exact E.
Qed.

(** X10: a position pair that bears two keys, as when a position is given two
    residue names, makes the reduction fail: on a table with distinct labels
    whose keys determine the positions, [get_residues_in_contact] raises
    [ValueError] as soon as two rows with the same positions have different
    keys. *)
Theorem get_residues_in_contact_two_keys (df : frame oriented) (r1 r2 : oriented) :
  NoDup (index df) ->
  (forall a b, In a (rows df) -> In b (rows df) ->
     combination a = combination b -> positions a = positions b) ->
  In r1 (rows df) -> In r2 (rows df) ->
  positions r1 = positions r2 -> combination r1 <> combination r2 ->
  get_residues_in_contact df = Raise ValueError.
Proof.
  intros Hnd Hinj H1 H2 Hpos Hkey.
  destruct (get_residues_in_contact df) as [out|e] eqn:Hres.
  2:{ revert Hres. unfold get_residues_in_contact.
      rewrite (reducer_loop df df) by apply incl_refl. cbn [bind].
      unfold set_atoms_contacts.
      destruct (Nat.eqb _ _); cbn [bind]; congruence. }
  exfalso.
  destruct (reducer_unsorted df out Hres) as (df1 & _ & Hbase & Hcol).
  set (R := representatives [] df) in *.
  assert (Hcover : forall r, In r (rows df) ->
                     exists rep, In rep R /\ combination rep = combination r).
  { intros r Hr.
    destruct (proj2 (proj2 (representatives_spec df [])) r Hr) as [[]|H].
    apply in_map_iff in H. destruct H as [rep [E Hrep]]. now exists rep. }
  (* every kept label is kept once: the kept rows have distinct positions *)
  set (kept := drop (flat_map (group_removed df) R) df) in *.
  assert (Hlen : length R = length kept).
  { rewrite <- Hbase, length_map.
    rewrite <- (length_map (fun ir => atoms_contacts (snd ir)) df1), Hcol.
    now rewrite length_map. }
  assert (Hkept : forall i r, In (i, r) kept -> i = group_min df r).
  { intros i r Hin. unfold kept, drop in Hin. apply filter_In in Hin.
    destruct Hin as [Hin Hnot]. cbn [fst] in Hnot.
    destruct (i =? group_min df r) eqn:E; [now apply Z.eqb_eq|]. exfalso.
    apply negb_true_iff in Hnot. apply not_true_iff_false in Hnot. apply Hnot.
    destruct (Hcover r) as [rep [Hrep Hk]]; [unfold rows; now apply (in_map snd) in Hin|].
    assert (Hp : positions rep = positions r).
    { apply Hinj; auto. - now apply (representatives_rows df [] rep).
      - unfold rows. now apply (in_map snd) in Hin. }
    apply existsb_exists. exists i. split; [|apply Z.eqb_refl].
    apply in_flat_map. exists rep. split; [exact Hrep|].
    unfold group_removed. apply filter_In. split.
    - unfold index. apply in_map_iff. exists (i, r). split; [reflexivity|].
      apply filter_In. split; [exact Hin|]. simpl.
      apply same_positions_iff. now symmetry.
    - rewrite (group_min_ext df rep r Hp), E. reflexivity. }
  assert (Hdistinct : NoDup (map (fun ir => positions (snd ir)) kept)).
  { apply (NoDup_map_dependent fst).
    - exact (NoDup_index_filter _ df Hnd).
    - intros [i r] [j r'] Hx Hy Hp. simpl in *.
      rewrite (Hkept i r Hx), (Hkept j r' Hy). now apply group_min_ext. }
  assert (Hincl : incl (map (fun ir => positions (snd ir)) kept) (map positions R)).
  { intros p Hp. apply in_map_iff in Hp. destruct Hp as [[i r] [<- Hin]]. cbn [snd].
    assert (Hr : In r (rows df)).
    { unfold kept, drop in Hin. apply filter_In in Hin. destruct Hin as [Hin _].
      unfold rows. now apply (in_map snd) in Hin. }
    destruct (Hcover r Hr) as [rep [Hrep Hk]].
    rewrite <- (Hinj rep r (representatives_rows df [] rep Hrep) Hr Hk).
    now apply in_map. }
  assert (HR : NoDup (map positions R)).
  { apply (NoDup_incl_NoDup Hdistinct); [|exact Hincl].
    rewrite !length_map. lia. }
  destruct (Hcover r1 H1) as [rep1 [Hrep1 Hk1]].
  destruct (Hcover r2 H2) as [rep2 [Hrep2 Hk2]].
  assert (Hp12 : positions rep1 = positions rep2).
  { rewrite (Hinj rep1 r1 (representatives_rows df [] rep1 Hrep1) H1 Hk1).
    rewrite (Hinj rep2 r2 (representatives_rows df [] rep2 Hrep2) H2 Hk2).
    exact Hpos. }
  assert (Heq : rep1 = rep2).
  { clear -HR Hrep1 Hrep2 Hp12. induction R as [|a R IH]; [destruct Hrep1|].
    simpl in HR. inversion HR as [|? ? Hnotin HR']; subst.
    destruct Hrep1 as [->|Hr1], Hrep2 as [->|Hr2]; auto.
    - elim Hnotin. rewrite Hp12. now apply in_map.
    - elim Hnotin. rewrite <- Hp12. now apply in_map. }
  apply Hkey. rewrite <- Hk1, <- Hk2. now rewrite Heq.
Qed.

(** ** Outliers and annotation: how the steps compose *)

Section Composition.

Lemma far_enough_max (t t' : Z) (r : reduced) :
  far_enough t' r && far_enough t r = far_enough (Z.max t t') r.
Proof.
  unfold far_enough. apply eq_true_iff_eq.
  rewrite andb_true_iff, !Z.leb_le. lia.
Qed.

Lemma filter_twice {A : Type} (f g : A -> bool) (l : list A) :
  filter g (filter f l) = filter (fun x => g x && f x) l.
Proof.
  induction l as [|a l IH]; [reflexivity|]. simpl.
  destruct (f a); simpl; [destruct (g a); simpl; now rewrite IH|].
  rewrite andb_false_r. exact IH.
Qed.

Lemma outliers_table_range (df : frame reduced) (t : Z) :
  NoDup (index df) ->
  outliers_table df t = range_index (filter (far_enough t) (rows df)).
Proof.
  intros Hnd. unfold outliers_table, reset_index.
  now rewrite (drop_too_close df t Hnd), (rows_filter (far_enough t)).
Qed.

Lemma update_domains_on_range (rows0 : list reduced) (domains : list domain) :
  rows0 <> [] ->
  update_domains (range_index rows0) domains
  = Ok (annotated_by_last_match (range_index rows0) domains).
Proof.
  intros Hne. apply update_domains_annotates.
  - destruct rows0; [now elim Hne | discriminate].
  - rewrite index_range_index. f_equal. f_equal. unfold range_index.
    rewrite length_combine, length_map, length_seq. lia.
Qed.

Lemma filter_none {A : Type} (f : A -> bool) (l : list A) :
  existsb f l = false -> filter f l = [].
Proof.
  induction l as [|a l IH]; [reflexivity|]. simpl.
  destruct (f a); [discriminate | exact IH].
Qed.

Lemma filter_some {A : Type} (f : A -> bool) (l : list A) :
  existsb f l = true -> filter f l <> [].
Proof.
  induction l as [|a l IH]; [discriminate|]. simpl.
  destruct (f a); [discriminate | exact IH].
Qed.

End Composition.

(** X16: filtering with a threshold and then with another is filtering once with
    the greater of the two; in particular filtering twice with the same
    threshold changes nothing more. *)
Theorem outliers_thresholds_compose (df : frame reduced) (t t' : Z) :
  NoDup (index df) ->
  outliers_table (outliers_table df t) t' = outliers_table df (Z.max t t').
Proof.
  intros Hnd.
  rewrite (outliers_table_range df t Hnd), (outliers_table_range df _ Hnd).
  rewrite outliers_table_range by apply range_index_distinct.
  rewrite rows_range_index, filter_twice. f_equal.
  apply filter_ext. intros r. apply far_enough_max.
Qed.

(** X17: in the pipeline the annotation fails in one case only.  The table
    that [extract_residues_contacts] returns, once filtered by the outlier
    filter, has the index 0, 1, 2, ... that [update_domains] relies on: when
    some row passes the filter [update_domains] returns the filtered table
    annotated, and when none does the filtered table has no row and
    [update_domains] raises [IndexError]. *)
Theorem pipeline_annotation_outcome (contacts : list contact) (roi : option (Z * Z))
  (table : frame reduced) (t : Z) (domains : list domain) :
  extract_residues_contacts contacts roi = Ok table ->
  if existsb (far_enough t) (rows table)
  then outliers_table table t <> []
       /\ update_domains (outliers_table table t) domains
          = Ok (annotated_by_last_match (outliers_table table t) domains)
  else outliers_table table t = []
       /\ update_domains (outliers_table table t) domains = Raise IndexError.
Proof.
  intros Hext.
  assert (Hnd : NoDup (index table)).
  { apply (get_residues_in_contact_index_distinct _ _
             (oriented_contacts_index_distinct roi contacts) Hext). }
  rewrite (outliers_table_range table t Hnd).
  destruct (existsb (far_enough t) (rows table)) eqn:E.
  - pose proof (filter_some _ _ E) as Hne. split.
    + destruct (filter (far_enough t) (rows table)); [now elim Hne | discriminate].
    + now apply update_domains_on_range.
  - rewrite (filter_none _ _ E). split; [reflexivity | apply update_domains_empty].
Qed.

(** ** Annotation and aggregation: failures and reported names *)

Section AnnotationFailures.

Lemma set_nth_length {A : Type} (l : list A) : forall n v,
  length (set_nth n v l) = length l.
Proof.
  induction l as [|a l IH]; intros [|n] v; simpl; auto.
Qed.

Lemma list_setitem_sized {A : Type} (l : list A) (idx : Z) (v : A) :
  list_setitem l idx v = Raise IndexError
  \/ exists l', list_setitem l idx v = Ok l' /\ length l' = length l.
Proof.
  unfold list_setitem. destruct (_ && _); [right | now left].
  eexists. split; [reflexivity | apply set_nth_length].
Qed.

Lemma list_setitem_outside {A : Type} (l : list A) (idx : Z) (v : A) :
  idx < - Z.of_nat (length l) \/ Z.of_nat (length l) <= idx ->
  list_setitem l idx v = Raise IndexError.
Proof.
  intros H. unfold list_setitem.
  replace (_ && _) with false; [reflexivity|].
  symmetry. apply andb_false_iff.
  destruct (idx <? 0) eqn:E.
  - apply Z.ltb_lt in E. destruct H as [H|H]; [|lia]. left. apply Z.leb_gt. lia.
  - apply Z.ltb_ge in E. destruct H as [H|H]; [lia|]. right. apply Z.ltb_ge. lia.
Qed.

Lemma step_sized (n : nat) (idx : Z) (row : reduced) (d : domain)
  (regions : list (option string) * list (option string)) :
  sized n regions ->
  update_domains_step idx row regions d = Raise IndexError
  \/ exists regions', update_domains_step idx row regions d = Ok regions'
                      /\ sized n regions'.
Proof.
  destruct regions as [dr ar]. intros [Hd Ha]. simpl in Hd, Ha.
  unfold update_domains_step.
  destruct (_ && _).
  - destruct (list_setitem_sized dr idx (Some (domain_name d))) as [->|(l' & -> & Hl')];
      [now left|]. cbn [bind].
    destruct (_ && _).
    + destruct (list_setitem_sized ar idx (Some (domain_name d))) as [->|(l2 & -> & Hl2)];
        [now left|]. right. eexists. split; [reflexivity|]. split; simpl; congruence.
    + right. eexists. split; [reflexivity|]. split; simpl; congruence.
  - cbn [bind]. destruct (_ && _).
    + destruct (list_setitem_sized ar idx (Some (domain_name d))) as [->|(l2 & -> & Hl2)];
        [now left|]. right. eexists. split; [reflexivity|]. split; simpl; congruence.
    + right. eexists. split; [reflexivity|]. now split.
Qed.

Lemma step_outside (n : nat) (idx : Z) (row : reduced) (d : domain)
  (regions : list (option string) * list (option string)) :
  sized n regions ->
  idx < - Z.of_nat n \/ Z.of_nat n <= idx ->
  covers (ordinate_position (base row)) d = true
  \/ covers (abscissa_position (base row)) d = true ->
  update_domains_step idx row regions d = Raise IndexError.
Proof.
  destruct regions as [dr ar]. intros [Hd Ha] Hout Hcov. simpl in Hd, Ha.
  unfold update_domains_step.
  fold (covers (ordinate_position (base row)) d).
  fold (covers (abscissa_position (base row)) d).
  destruct (covers (ordinate_position (base row)) d).
  - rewrite list_setitem_outside by (rewrite Hd; exact Hout). reflexivity.
  - destruct Hcov as [Hcov|Hcov]; [discriminate|]. rewrite Hcov. cbn [bind].
    rewrite list_setitem_outside by (rewrite Ha; exact Hout). reflexivity.
Qed.

Lemma row_sized (n : nat) (idx : Z) (row : reduced) (domains : list domain) :
  forall regions,
    sized n regions ->
    for_each (update_domains_step idx row) domains regions = Raise IndexError
    \/ exists regions', for_each (update_domains_step idx row) domains regions = Ok regions'
                        /\ sized n regions'.
Proof.
  induction domains as [|d l IH]; intros regions Hs.
  - right. exists regions. now split.
  - cbn [for_each].
    destruct (step_sized n idx row d regions Hs) as [->|(regions' & -> & Hs')];
      [now left|]. cbn [bind]. now apply IH.
Qed.

Lemma row_outside (n : nat) (idx : Z) (row : reduced) (domains : list domain) :
  forall regions,
    sized n regions ->
    idx < - Z.of_nat n \/ Z.of_nat n <= idx ->
    (exists d, In d domains
               /\ (covers (ordinate_position (base row)) d = true
                   \/ covers (abscissa_position (base row)) d = true)) ->
    for_each (update_domains_step idx row) domains regions = Raise IndexError.
Proof.
  induction domains as [|d l IH]; intros regions Hs Hout [d0 [Hin Hcov]];
    [destruct Hin|].
  cbn [for_each].
  destruct (step_sized n idx row d regions Hs) as [->|(regions' & Hstep & Hs')];
    [reflexivity|].
  destruct Hin as [->|Hin].
  - rewrite (step_outside n idx row d0 regions Hs Hout Hcov) in Hstep. discriminate.
  - rewrite Hstep. cbn [bind]. apply IH; auto. now exists d0.
Qed.

Lemma rows_outside (n : nat) (domains : list domain) (df : frame reduced) :
  forall regions,
    sized n regions ->
    (exists ir, In ir df
                /\ (fst ir < - Z.of_nat n \/ Z.of_nat n <= fst ir)
                /\ exists d, In d domains
                     /\ (covers (ordinate_position (base (snd ir))) d = true
                         \/ covers (abscissa_position (base (snd ir))) d = true)) ->
    for_each (fun regions ir =>
                for_each (update_domains_step (fst ir) (snd ir)) domains regions)
      df regions
    = Raise IndexError.
Proof.
  induction df as [|ir0 l IH]; intros regions Hs [ir [Hin [Hout Hcov]]];
    [destruct Hin|].
  cbn [for_each].
  destruct (row_sized n (fst ir0) (snd ir0) domains regions Hs)
    as [->|(regions' & Hrow & Hs')]; [reflexivity|].
  destruct Hin as [->|Hin].
  - rewrite (row_outside n (fst ir) (snd ir) domains regions Hs Hout Hcov) in Hrow.
    discriminate.
  - rewrite Hrow. cbn [bind]. apply IH; auto. now exists ir.
Qed.

Lemma find_filter {A : Type} (p : A -> bool) (l : list A) :
  find p l = hd_error (filter p l).
Proof.
  induction l as [|a l IH]; [reflexivity|]. simpl.
  destruct (p a); [reflexivity | exact IH].
Qed.

End AnnotationFailures.

(** X18: [update_domains] relies on the index 0, 1, 2, ...: a row whose label lies
    outside the lists of regions (below minus their length, or at or above
    it) and one of whose positions lies in some interval makes it raise
    [IndexError]. *)
Theorem update_domains_label_outside (df : frame reduced) (domains : list domain)
  (i : Z) (row : reduced) (d : domain) :
  In (i, row) df ->
  i < - Z.of_nat (length df) \/ Z.of_nat (length df) <= i ->
  In d domains ->
  covers (ordinate_position (base row)) d = true
  \/ covers (abscissa_position (base row)) d = true ->
  update_domains df domains = Raise IndexError.
Proof.
  intros Hin Hout Hd Hcov. unfold update_domains.
  rewrite (rows_outside (length df) domains df).
  - reflexivity.
  - split; simpl; apply repeat_length.
  - exists (i, row). split; [exact Hin|]. split; [exact Hout|]. now exists d.
Qed.

Lemma at_most_one_match (domains : list domain) (x : Z) :
  (cover_count x domains <= 1)%nat -> last_match domains x = first_match domains x.
Proof.
  unfold cover_count, first_match, last_match. intros H.
  rewrite !find_filter, filter_rev.
  destruct (filter (covers x) domains) as [|d [|d' l]]; try reflexivity.
  simpl in H. lia.
Qed.

(** X19: when no position of the table lies in two intervals of the domains table,
    as with the domains that [get_domains] makes disjoint, the order of the
    domains table does not matter: on a table with at least one row and the
    index 0, 1, 2, ..., [update_domains] gives each side of each row the name
    of the first interval that contains its position as well, the only one,
    and leaves the entry unset when there is none. *)
Theorem update_domains_disjoint_intervals (df : frame reduced) (domains : list domain) :
  df <> [] ->
  index df = map Z.of_nat (seq 0 (length df)) ->
  (forall r, In r (rows df) ->
     (cover_count (ordinate_position (base r)) domains <= 1)%nat
     /\ (cover_count (abscissa_position (base r)) domains <= 1)%nat) ->
  update_domains df domains
  = Ok (map (fun ir =>
               (fst ir,
                mk_annotated (snd ir)
                  (first_match domains (ordinate_position (base (snd ir))))
                  (first_match domains (abscissa_position (base (snd ir))))))
            df).
Proof.
  intros Hne Hidx Hone. rewrite (update_domains_annotates df domains Hne Hidx).
  apply f_equal. apply map_ext_in. intros [i r] Hin. cbn [fst snd].
  assert (Hr : In r (rows df)) by (unfold rows; now apply (in_map snd) in Hin).
  destruct (Hone r Hr) as [Ho Ha].
  now rewrite (at_most_one_match domains _ Ho), (at_most_one_match domains _ Ha).
Qed.

Section ReportedNames.

Lemma keys_set (k : string) (v : Z) (d : dict) :
  keys (dict_set k v d)
  = if existsb (String.eqb k) (keys d) then keys d else keys d ++ [k].
Proof.
  unfold keys. induction d as [|[k' v'] d IH]; simpl; [reflexivity|].
  destruct (String.eqb k k') eqn:E; simpl.
  - apply String.eqb_eq in E. now subst k'.
  - rewrite IH. now destruct (existsb (String.eqb k) (map fst d)).
Qed.

Lemma dict_get_keys (k : string) (d : dict) :
  dict_get k d <> None <-> In k (keys d).
Proof.
  unfold keys. induction d as [|[k' v'] d IH]; simpl; [tauto|].
  destruct (String.eqb k k') eqn:E.
  - apply String.eqb_eq in E. subst k'. split; [now left | discriminate].
  - rewrite IH. apply String.eqb_neq in E. split; [now right|].
    intros [H|H]; [congruence | exact H].
Qed.

Lemma keys_set_distinct (k : string) (v : Z) (d : dict) :
  NoDup (keys d) -> NoDup (keys (dict_set k v d)).
Proof.
  intros H. rewrite keys_set.
  destruct (existsb (String.eqb k) (keys d)) eqn:E; [exact H|].
  apply NoDup_app; [exact H | repeat constructor; intros [] |].
  intros x Hx [Hk|[]]. subst x. apply not_true_iff_false in E. apply E.
  apply existsb_exists. exists k. split; [exact Hx | apply String.eqb_refl].
Qed.

Lemma keys_add_distinct (k : string) (v : Z) (d : dict) :
  NoDup (keys d) -> NoDup (keys (dict_add k v d)).
Proof.
  intros H. unfold dict_add.
  destruct (dict_get k d); [now apply keys_set_distinct | exact H].
Qed.

Lemma step_keys_distinct (df : frame annotated) (data : dict) (d : domain) :
  NoDup (keys data) -> NoDup (keys (domains_involved_step df data d)).
Proof.
  intros H. unfold domains_involved_step.
  match goal with |- context [match ?t with [] => _ | _ :: _ => _ end] =>
    generalize t end.
  intros tmp. destruct tmp as [|a tmp]; [exact H|].
  assert (H0 : NoDup (keys match dict_get (domain_name d) data with
                           | Some _ => data
                           | None => dict_set (domain_name d) 0 data
                           end)).
  { destruct (dict_get (domain_name d) data); [exact H | now apply keys_set_distinct]. }
  revert H0. generalize (match dict_get (domain_name d) data with
                         | Some _ => data
                         | None => dict_set (domain_name d) 0 data
                         end).
  generalize (a :: tmp). clear. intros l. induction l as [|x l IH]; intros d0 H0.
  - exact H0.
  - simpl. apply IH. now apply keys_add_distinct.
Qed.

Lemma name_count_positive (domains : list domain) (name : string) :
  (1 <= name_count domains name)%nat <->
  exists d, In d domains /\ domain_name d = name.
Proof.
  unfold name_count. split.
  - intros H.
    destruct (filter (fun d => String.eqb (domain_name d) name) domains) as [|d l] eqn:E;
      [simpl in H; lia|].
    assert (Hin : In d (filter (fun d => String.eqb (domain_name d) name) domains))
      by (rewrite E; now left).
    apply filter_In in Hin. destruct Hin as [Hin Hn]. apply String.eqb_eq in Hn.
    now exists d.
  - intros [d [Hin Hn]].
    assert (Hf : In d (filter (fun d => String.eqb (domain_name d) name) domains)).
    { apply filter_In. split; [exact Hin | now apply String.eqb_eq]. }
    destruct (filter _ domains); [destruct Hf | simpl; lia].
Qed.

End ReportedNames.

(** X20: the names that [acceptors_domains_involved] reports are distinct, and a
    name is reported exactly when some row of the domains table bears it and
    some row of the contacts has it as abscissa domain. *)
Theorem domains_involved_reported_names (df : frame annotated) (domains : list domain) :
  NoDup (keys (acceptors_domains_involved df domains))
  /\ forall name,
       In name (keys (acceptors_domains_involved df domains)) <->
       (exists d, In d domains /\ domain_name d = name)
       /\ abscissa_rows df name <> [].
Proof.
  split.
  - unfold acceptors_domains_involved.
    assert (G : forall l data, NoDup (keys data) ->
                  NoDup (keys (fold_left (domains_involved_step df) l data))).
    { induction l as [|d l IH]; intros data H; [exact H|].
      simpl. apply IH. now apply step_keys_distinct. }
    apply G. constructor.
  - intros name. rewrite <- dict_get_keys, <- name_count_positive.
    unfold acceptors_domains_involved. rewrite involved_loop.
    destruct (abscissa_rows df name) as [|a l];
      destruct (name_count domains name) as [|k]; cbn [dict_get].
    + split; [intros H; now elim H | intros [H _]; lia].
    + split; [intros H; now elim H | intros [_ H]; now elim H].
    + split; [intros H; now elim H | intros [H _]; lia].
    + split; [intros _; split; [lia | discriminate] | intros _; discriminate].
Qed.

(** ** Instances and counterexamples *)

Lemma get_residues_in_contact_ordered_pairs_witness :
  exists out,
    get_residues_in_contact sample_both_orders = Ok out
    /\ NoDup (map (fun ir => positions (base (snd ir))) out)
    /\ sum_atoms_contacts out = Z.of_nat (length sample_both_orders)
    /\ (forall p, In p (map (fun ir => positions (base (snd ir))) out)
                  <-> In p (map positions (rows sample_both_orders)))
    /\ (forall r1 r2,
          In r1 (rows sample_both_orders) -> In r2 (rows sample_both_orders) ->
          positions r2 = swap_positions (positions r1) ->
          ordinate_position r1 <> abscissa_position r1 ->
          exists o1 o2,
            In o1 out /\ In o2 out /\ o1 <> o2
            /\ positions (base (snd o1)) = positions r1
            /\ positions (base (snd o2)) = swap_positions (positions r1)).
Proof.
  apply (get_residues_in_contact_ordered_pairs sample_both_orders).
  - repeat constructor; simpl; intuition discriminate.
  - apply key_consistentb_sound. reflexivity.
Defined.

(** C1, counterexample: the pair 1-2 met as (1, 2) and as (2, 1) gives two
    rows of the reduced table. *)
Lemma get_residues_in_contact_swapped_counterexample :
  ~ (forall (df : frame oriented) (out : frame reduced),
       get_residues_in_contact df = Ok out ->
       no_shared_unordered_pair out
       /\ sum_atoms_contacts out = Z.of_nat (length df)).
Proof.
  intros H.
  destruct (H sample_swapped _ eq_refl) as [Hpairs _].
  inversion Hpairs as [|a l Hall _]; subst.
  inversion Hall as [|b l' [_ Hswap] _]; subst.
  apply Hswap. reflexivity.
Qed.

(** C2: the pair (1, 2) has two atom contacts and the pair (3, 4) one, but the
    counts are written in the order in which the pairs were met onto the rows
    in the order in which they stand: the kept row of (1, 2) receives 1 and
    the row of (3, 4) receives 2. *)
Theorem get_residues_in_contact_misplaced_counts :
  get_residues_in_contact sample_oriented
  = Ok [ (2, mk_reduced (residue_row "c2" 1 "ALA" 2 "GLY" (2 # 1)) 1);
         (1, mk_reduced (residue_row "c1" 3 "SER" 4 "THR" (1 # 1)) 2) ].
Proof. vm_compute. reflexivity. Qed.

(** C6, on the contacts 15-30 (the donor only in 10..20), 11-12 (both
    positions), 50-12 (the acceptor only) and 30-40 (neither). *)
Lemma roi_orientation_witness :
  ((exists i,
      filter (from_contact sample_contacts (atom "c0" 15 "ALA" 30 "GLY" (3 # 1)))
        (oriented_contacts (Some (10, 20)) sample_contacts)
      = [(i, donor_side (atom "c0" 15 "ALA" 30 "GLY" (3 # 1)))])
   /\ ~ In (acceptor_side (atom "c0" 15 "ALA" 30 "GLY" (3 # 1)))
          (rows (oriented_contacts (Some (10, 20)) sample_contacts)))
  /\ ((exists i,
      filter (from_contact sample_contacts (atom "c3" 11 "LEU" 12 "VAL" (1 # 1)))
        (oriented_contacts (Some (10, 20)) sample_contacts)
      = [(i, donor_side (atom "c3" 11 "LEU" 12 "VAL" (1 # 1)))])
   /\ ~ In (acceptor_side (atom "c3" 11 "LEU" 12 "VAL" (1 # 1)))
          (rows (oriented_contacts (Some (10, 20)) sample_contacts)))
  /\ ((exists i,
         filter (from_contact sample_contacts (atom "c2" 50 "THR" 12 "VAL" (2 # 1)))
           (oriented_contacts (Some (10, 20)) sample_contacts)
         = [(i, acceptor_side (atom "c2" 50 "THR" 12 "VAL" (2 # 1)))])
      /\ ~ In (donor_side (atom "c2" 50 "THR" 12 "VAL" (2 # 1)))
             (rows (oriented_contacts (Some (10, 20)) sample_contacts)))
  /\ (filter (from_contact sample_contacts (atom "c1" 30 "GLY" 40 "SER" (1 # 1)))
        (oriented_contacts (Some (10, 20)) sample_contacts)
      = []
      /\ ~ In (donor_side (atom "c1" 30 "GLY" 40 "SER" (1 # 1)))
             (rows (oriented_contacts (Some (10, 20)) sample_contacts))
      /\ ~ In (acceptor_side (atom "c1" 30 "GLY" 40 "SER" (1 # 1)))
             (rows (oriented_contacts (Some (10, 20)) sample_contacts))).
Proof.
  split; [|split; [|split]].
  - apply (proj1 (roi_orientation sample_contacts 10 20
                    (atom "c0" 15 "ALA" 30 "GLY" (3 # 1))
                    (or_introl eq_refl))).
    reflexivity.
  - apply (proj1 (roi_orientation sample_contacts 10 20
                    (atom "c3" 11 "LEU" 12 "VAL" (1 # 1))
                    (or_intror (or_intror (or_intror (or_introl eq_refl)))))).
    reflexivity.
  - apply (proj1 (proj2 (roi_orientation sample_contacts 10 20
                           (atom "c2" 50 "THR" 12 "VAL" (2 # 1))
                           (or_intror (or_intror (or_introl eq_refl))))));
      reflexivity.
  - apply (proj2 (proj2 (roi_orientation sample_contacts 10 20
                           (atom "c1" 30 "GLY" 40 "SER" (1 # 1))
                           (or_intror (or_introl eq_refl)))));
      reflexivity.
Defined.

Lemma outliers_contacts_keeps_far_rows_witness :
  exists h' out,
    outliers_contacts 0%nat 4 sample_heap = Ok (0%nat, h')
    /\ h' 0%nat = Some out
    /\ rows out = filter (far_enough 4) (rows sample_reduced)
    /\ index out = map Z.of_nat (seq 0 (length out))
    /\ (4 <= 0 -> rows out = rows sample_reduced).
Proof.
  apply (outliers_contacts_keeps_far_rows sample_heap 0%nat sample_reduced 4).
  - reflexivity.
  - repeat constructor; simpl; intuition discriminate.
Defined.

Lemma outliers_contacts_in_place_witness :
  exists h' out,
    outliers_contacts 0%nat 4 sample_heap = Ok (0%nat, h')
    /\ h' 0%nat = Some out
    /\ (forall r, In r (rows out) -> In r (rows sample_reduced) /\ far_enough 4 r = true)
    /\ (forall r, far_enough 4 r = false -> ~ In r (rows out))
    /\ index out = map Z.of_nat (seq 0 (length out))
    /\ ((exists r, In r (rows sample_reduced) /\ far_enough 4 r = false) ->
        h' 0%nat <> Some sample_reduced)
    /\ (forall other, other <> 0%nat -> h' other = sample_heap other).
Proof.
  apply (outliers_contacts_in_place sample_heap 0%nat sample_reduced 4).
  reflexivity.
Defined.

(** C9, counterexample: after the call the table of the caller has lost the
    row 12-15, which lies below the threshold 4. *)
Lemma outliers_contacts_mutates_counterexample :
  ~ (forall (h : heap) (df : ref) (table : frame reduced) (t : Z)
            (r : ref) (h' : heap),
       h df = Some table ->
       outliers_contacts df t h = Ok (r, h') ->
       h' df = Some table).
Proof.
  intros H.
  specialize (H sample_heap 0%nat sample_reduced 4 _ _ eq_refl eq_refl).
  vm_compute in H. discriminate H.
Qed.

Lemma update_domains_last_match_witness :
  update_domains sample_reduced overlapping_domains
  = Ok (map (fun ir =>
               (fst ir,
                mk_annotated (snd ir)
                  (last_match overlapping_domains (ordinate_position (base (snd ir))))
                  (last_match overlapping_domains (abscissa_position (base (snd ir))))))
            sample_reduced).
Proof.
  apply (update_domains_last_match sample_reduced overlapping_domains).
  - discriminate.
  - reflexivity.
Defined.

(** C5, counterexample: position 7 lies in A (1-10) and in B (5-15); the row
    is given B, the last of the two, where the first is A.  The domains table
    is one that [get_domains] returns. *)
Lemma update_domains_first_match_counterexample :
  ~ (forall (df : frame reduced) (domains : list domain) (out : frame annotated),
       update_domains df domains = Ok out ->
       forall ir, In ir out ->
         ordinate_domains (snd ir)
         = first_match domains (ordinate_position (base (reduced_row (snd ir))))
         /\ abscissa_domains (snd ir)
            = first_match domains (abscissa_position (base (reduced_row (snd ir))))).
Proof.
  intros H.
  assert (Hd : get_domains overlapping_domains false = Ok overlapping_domains)
    by reflexivity.
  specialize (H sample_reduced overlapping_domains _ eq_refl).
  destruct (H _ (or_intror (or_introl eq_refl))) as [Hfirst _].
  vm_compute in Hfirst. discriminate Hfirst.
Qed.

Lemma domains_involved_counts_each_interval_witness :
  dict_get "A" (acceptors_domains_involved sample_annotated split_domains)
  = Some (2 * 5).
Proof.
  apply (domains_involved_counts_each_interval sample_annotated split_domains "A").
  vm_compute. lia.
Defined.

Lemma extract_roi_accepts_any_order_witness :
  extract_roi "200-100" = Ok (200, 100)
  /\ exists msg, extract_roi "100_200" = Raise (ArgumentTypeError msg).
Proof.
  split.
  - apply (proj2 extract_roi_accepts_any_order "200" "100")%string;
      first [reflexivity | discriminate].
  - apply (proj2 (proj1 (proj1 extract_roi_accepts_any_order "100_200"%string
                           eq_refl))).
    intros Hc. destruct (search_found _ Hc) as (g1 & g2 & H). discriminate H.
Defined.

(** ** Instances of the further properties *)

Lemma get_domains_gapless_unchanged_witness :
  get_domains split_domains true = Ok split_domains.
Proof.
  apply (get_domains_gapless_unchanged split_domains true 10).
  simpl. lia.
Defined.

Lemma get_domains_idempotent_witness :
  exists out,
    get_domains [mk_domain "A" 3 10 "#fff"; mk_domain "B" 5 7 "#000";
                 mk_domain "C" 12 20 "#00f"] true = Ok out
    /\ get_domains out false = Ok out.
Proof.
  apply (get_domains_idempotent
           [mk_domain "A" 3 10 "#fff"; mk_domain "B" 5 7 "#000";
            mk_domain "C" 12 20 "#00f"] true false).
  - repeat constructor; simpl; lia.
  - unfold separated; simpl. repeat split; lia.
  - intros _. simpl. repeat split; lia.
Defined.

Lemma extract_roi_round_trip_witness :
  extract_roi (str_of_Z 682 ++ "-" ++ str_of_Z 840)%string = Ok (682, 840).
Proof. apply (extract_roi_round_trip 682 840); lia. Defined.

Lemma extract_roi_ignores_surrounding_text_witness :
  extract_roi ("roi -" ++ "12" ++ "-" ++ "34" ++ " end")%string
  = Ok (int "12", int "34").
Proof.
  apply (extract_roi_ignores_surrounding_text "roi -" "12" "34" " end");
    first [reflexivity | discriminate].
Defined.

Lemma get_residues_in_contact_rows_of_input_witness :
  (forall ir,
     In ir [ (2, mk_reduced (residue_row "c2" 1 "ALA" 2 "GLY" (2 # 1)) 1);
             (1, mk_reduced (residue_row "c1" 3 "SER" 4 "THR" (1 # 1)) 2) ] ->
     In (fst ir, base (snd ir)) sample_oriented
     /\ 1 <= atoms_contacts (snd ir) <= Z.of_nat (length sample_oriented))
  /\ (length [ (2, mk_reduced (residue_row "c2" 1 "ALA" 2 "GLY" (2 # 1)) 1);
               (1, mk_reduced (residue_row "c1" 3 "SER" 4 "THR" (1 # 1)) 2) ]
      <= length sample_oriented)%nat.
Proof.
  apply (get_residues_in_contact_rows_of_input sample_oriented).
  vm_compute. reflexivity.
Defined.

Lemma oriented_rows_in_region_witness :
  between (ordinate_position
             (orient (Some (10, 20)) (atom "c2" 50 "THR" 12 "VAL" (2 # 1)))) 10 20 = true
  /\ (ordinate_type (orient (Some (10, 20)) (atom "c2" 50 "THR" 12 "VAL" (2 # 1)))
      = acceptor ->
      between (abscissa_position
                 (orient (Some (10, 20)) (atom "c2" 50 "THR" 12 "VAL" (2 # 1)))) 10 20
      = false).
Proof.
  apply (oriented_rows_in_region sample_contacts 10 20).
  simpl. auto.
Defined.

Lemma get_residues_in_contact_two_keys_witness :
  get_residues_in_contact sample_two_keys = Raise ValueError.
Proof.
  apply (get_residues_in_contact_two_keys sample_two_keys
           (residue_row "c0" 1 "ALA" 2 "GLY" (3 # 1))
           (residue_row "c1" 1 "ALA" 2 "SER" (1 # 1))).
  - repeat constructor; simpl; intuition discriminate.
  - intros a b [<-|[<-|[]]] [<-|[<-|[]]] _; reflexivity.
  - simpl. auto.
  - simpl. auto.
  - reflexivity.
  - discriminate.
Defined.

Lemma get_residues_in_contact_keeps_closest_witness :
  exists out,
    get_residues_in_contact sample_oriented = Ok out
    /\ Sorted (fun a b => ordinate_position (base (snd a))
                          <= ordinate_position (base (snd b))) out
    /\ Permutation (map (fun ir => (fst ir, base (snd ir))) out)
         (kept_rows sample_oriented)
    /\ (forall x, In x (kept_rows sample_oriented) ->
          first_closest x (group sample_oriented (snd x)))
    /\ (forall x, In x sample_oriented ->
          exists y, In y (kept_rows sample_oriented)
                    /\ positions (snd y) = positions (snd x)).
Proof.
  apply (get_residues_in_contact_keeps_closest sample_oriented).
  - repeat constructor; simpl; intuition discriminate.
  - apply key_consistentb_sound. reflexivity.
Defined.

Lemma extract_residues_contacts_index_distinct_witness :
  NoDup (index [ (3, mk_reduced (mk_oriented "c3" 11 "LEU" 12 "VAL"
                                   (Q2Qc (1 # 1)) donor) 1);
                 (2, mk_reduced (mk_oriented "c2" 12 "VAL" 50 "THR"
                                   (Q2Qc (2 # 1)) acceptor) 1);
                 (0, mk_reduced (mk_oriented "c0" 15 "ALA" 30 "GLY"
                                   (Q2Qc (3 # 1)) donor) 1) ]).
Proof.
  apply (extract_residues_contacts_index_distinct sample_contacts (Some (10, 20))).
  vm_compute. reflexivity.
Defined.

Lemma outliers_thresholds_compose_witness :
  outliers_table (outliers_table sample_reduced 4) 3
  = outliers_table sample_reduced (Z.max 4 3).
Proof.
  apply (outliers_thresholds_compose sample_reduced 4 3).
  repeat constructor; simpl; intuition discriminate.
Defined.

(** With the threshold 4 two rows of the sample table stay and are
    annotated; with the threshold 100 none stays and the annotation
    raises. *)
Lemma pipeline_annotation_outcome_witness :
  (outliers_table sample_table 4 <> []
   /\ update_domains (outliers_table sample_table 4) overlapping_domains
      = Ok (annotated_by_last_match (outliers_table sample_table 4)
              overlapping_domains))
  /\ (outliers_table sample_table 100 = []
      /\ update_domains (outliers_table sample_table 100) overlapping_domains
         = Raise IndexError).
Proof.
  assert (E : extract_residues_contacts sample_contacts (Some (10, 20))
              = Ok sample_table) by (vm_compute; reflexivity).
  split.
  - exact (pipeline_annotation_outcome sample_contacts (Some (10, 20)) sample_table
             4 overlapping_domains E).
  - exact (pipeline_annotation_outcome sample_contacts (Some (10, 20)) sample_table
             100 overlapping_domains E).
Defined.

Lemma update_domains_label_outside_witness :
  update_domains sample_mislabelled overlapping_domains = Raise IndexError.
Proof.
  apply (update_domains_label_outside sample_mislabelled overlapping_domains 5
           (mk_reduced (residue_row "c0" 12 "ALA" 15 "GLY" (5 # 2)) 2)
           (mk_domain "B" 5 15 "#000")).
  - simpl. auto.
  - simpl. lia.
  - simpl. auto.
  - left. reflexivity.
Defined.

Lemma update_domains_disjoint_intervals_witness :
  update_domains sample_reduced split_domains
  = Ok (map (fun ir =>
               (fst ir,
                mk_annotated (snd ir)
                  (first_match split_domains (ordinate_position (base (snd ir))))
                  (first_match split_domains (abscissa_position (base (snd ir))))))
            sample_reduced).
Proof.
  apply (update_domains_disjoint_intervals sample_reduced split_domains).
  - discriminate.
  - reflexivity.
  - intros r [<-|[<-|[]]]; vm_compute; lia.
Defined.

Lemma heatmap_matrices_witness :
  heatmap_distances_nb_contacts sample_reduced
  = Ok (mk_matrix ["7SER"; "12ALA"]%string ["12THR"; "15GLY"]%string
          [[Some (Q2Qc (4 # 1)); None]; [None; Some (Q2Qc (5 # 2))]],
        mk_matrix ["7SER"; "12ALA"]%string ["12THR"; "15GLY"]%string
          [[Some 1; None]; [None; Some 2]]).
Proof.
  apply (heatmap_matrices sample_reduced).
  intros r [<-|[<-|[]]]; split; reflexivity.
Defined.

Lemma heatmap_one_square_per_row_witness :
  exists source_distances source_nb_contacts,
    heatmap_distances_nb_contacts sample_reduced
    = Ok (source_distances, source_nb_contacts)
    /\ filled source_distances = length sample_reduced
    /\ filled source_nb_contacts = length sample_reduced.
Proof.
  apply (heatmap_one_square_per_row sample_reduced).
  - intros r [<-|[<-|[]]]; split; reflexivity.
  - repeat constructor; simpl; intuition discriminate.
Defined.
